(** * horizon-sky: the altitude corrector and the gradient renderer

    A shallow embedding of [src/correction.ts], [src/gradient.ts] and
    [src/compute.ts] together with the properties the specification states
    about them.

    Number model.  A TypeScript [number] is modelled by a real number: the
    arithmetic operators are the field operations of [R], [Math.sin],
    [Math.cos], [Math.tan], [Math.acos], [Math.exp] and [Math.sqrt] are the
    functions of the same name of the real-number library, [Math.max],
    [Math.min] and [Math.abs] are [Rmax], [Rmin] and [Rabs].  Rounding error,
    overflow, signed zeros and NaN of binary64 are outside this model: the
    statements below are statements about the exact-arithmetic reading of
    the code.  One guard of the code compares with zero exactly; for it
    module [Binary64] embeds the code a second time, on binary64
    numbers. *)

From Corelib Require Import PrimFloat.
From Stdlib Require Import Reals Lra Lia ZArith List String Ascii DecimalString.
From Stdlib Require Import Sorted Permutation.
Import ListNotations.

Open Scope R_scope.

(** ** utils.ts *)

Module Utils.

Definition Vec3 : Type := (R * R * R)%type.

(** Modelled from the spec: [src/utils.ts] is not part of the sources at
    hand; section 4.2 lists its helpers ([dot], [len], [normalize], [add],
    [scale], element-wise [exp], [clamp]) as pure functions on 3-tuples. *)
Definition dot (a b : Vec3) : R :=
  let '(a0, a1, a2) := a in
  let '(b0, b1, b2) := b in
  a0 * b0 + a1 * b1 + a2 * b2.

(** Modelled from the spec: the Euclidean length of [utils.ts]. *)
Definition len (a : Vec3) : R := sqrt (dot a a).

(** Modelled from the spec: [norm] of [utils.ts], the vector divided by its
    length. *)
Definition norm (a : Vec3) : Vec3 :=
  let '(a0, a1, a2) := a in
  let l := len a in
  (a0 / l, a1 / l, a2 / l).

(** Modelled from the spec: component-wise sum of [utils.ts]. *)
Definition add (a b : Vec3) : Vec3 :=
  let '(a0, a1, a2) := a in
  let '(b0, b1, b2) := b in
  (a0 + b0, a1 + b1, a2 + b2).

(** Modelled from the spec: multiplication by a scalar of [utils.ts]. *)
Definition scale (a : Vec3) (s : R) : Vec3 :=
  let '(a0, a1, a2) := a in
  (a0 * s, a1 * s, a2 * s).

(** Modelled from the spec: element-wise exponential of [utils.ts]. *)
Definition vecExp (a : Vec3) : Vec3 :=
  let '(a0, a1, a2) := a in
  (exp a0, exp a1, exp a2).

(** Modelled from the spec: [clamp(x, lo, hi)] of [utils.ts]. *)
Definition clamp (x lo hi : R) : R := Rmax lo (Rmin hi x).

(** [v[k]] for [k] in 0, 1, 2. *)
Definition comp (k : nat) (v : Vec3) : R :=
  let '(v0, v1, v2) := v in
  match k with
  | O => v0
  | S O => v1
  | _ => v2
  end.

(** [v.map(f)] on a 3-tuple; the callback receives the element and its
    index. *)
Definition vmapi (f : R -> nat -> R) (v : Vec3) : Vec3 :=
  let '(v0, v1, v2) := v in
  (f v0 0%nat, f v1 1%nat, f v2 2%nat).

Definition vmap (f : R -> R) (v : Vec3) : Vec3 := vmapi (fun c _ => f c) v.

End Utils.

(** ** correction.ts *)

Module Correction.

Definition DEG_TO_RAD : R := PI / 180.

Definition getMultipleScatteringOffset (altitude : R) : R :=
  let altDeg := altitude / DEG_TO_RAD in
  if Rlt_dec 20 altDeg then
    2.0 * DEG_TO_RAD
  else if Rlt_dec (-6) altDeg then
    let t := (20 - altDeg) / 26 in
    let smoothT := t * t * (3 - 2 * t) in
    (2.0 + smoothT * 6.0) * DEG_TO_RAD
  else if Rlt_dec (-12) altDeg then
    let t := (-6 - altDeg) / 6 in
    let smoothT := t * t * (3 - 2 * t) in
    (8.0 + smoothT * 3.0) * DEG_TO_RAD
  else
    let t := Rmax 0 ((-12 - altDeg) / 18) in
    (11.0 * (1 - t)) * DEG_TO_RAD.

(** The object literal [LIGHT_POLLUTION_OFFSETS]: its own properties, in
    source order. *)
Definition LIGHT_POLLUTION_OFFSETS : list (R * R) :=
  [ (1, 0.0); (2, 0.1); (3, 0.2); (4, 1.0); (5, 2.0);
    (6, 3.0); (7, 4.0); (8, 5.0); (9, 6.0) ].

(** [table[key]]: the entry whose key is the number [key], [undefined]
    ([None]) when there is none. *)
Fixpoint lookup (table : list (R * R)) (key : R) : option R :=
  match table with
  | [] => None
  | (k, v) :: rest => if Req_dec_T key k then Some v else lookup rest key
  end.

(** [x ?? d] *)
Definition nullish (x : option R) (d : R) : R :=
  match x with
  | Some v => v
  | None => d
  end.

Definition getLightPollutionAltitude (bortle : R) : R :=
  let offsetDeg := nullish (lookup LIGHT_POLLUTION_OFFSETS bortle) 0 in
  (offsetDeg - 3.0) * DEG_TO_RAD.

End Correction.

(** ** gradient.ts *)

Module Gradient.
Import Utils.

Definition RAYLEIGH_SCATTER : Vec3 := (5.802e-6, 13.558e-6, 33.1e-6).
Definition MIE_SCATTER : R := 3.996e-6.
Definition MIE_ABSORB : R := 4.44e-6.
Definition OZONE_ABSORB : Vec3 := (0.65e-6, 1.881e-6, 0.085e-6).

Definition RAYLEIGH_SCALE_HEIGHT : R := 8e3.
Definition MIE_SCALE_HEIGHT : R := 1.2e3.

Definition GROUND_RADIUS : R := 6360e3.
Definition TOP_RADIUS : R := 6460e3.
Definition SUN_INTENSITY : R := 1.0.

Definition SAMPLES : nat := 32.
Definition FOV_DEG : R := 75.

Definition EXPOSURE_DAY : R := 18.0.
Definition EXPOSURE_SUNSET : R := 35.0.
Definition EXPOSURE_NIGHT : R := 6.0.
Definition GAMMA : R := 2.2.
Definition SUNSET_BIAS_STRENGTH : R := 0.5.

(** [Math.pow(x, y)] and [x ** y] for a base [x >= 0] and an exponent
    [y > 0], the only way the renderer uses them with a fractional
    exponent. *)
Definition Math_pow (x y : R) : R :=
  if Req_dec_T x 0 then 0 else Rpower x y.

(** [Math.round]: the nearest integer, a half rounded up. *)
Definition Math_round (x : R) : Z := Zfloor (x + / 2).

(** A colour after quantisation: the three integers [Math.round] returns. *)
Definition RGB : Type := (Z * Z * Z)%type.

Definition aces (color : Vec3) : Vec3 :=
  vmap (fun c =>
          let n := c * (2.51 * c + 0.03) in
          let d := c * (2.43 * c + 0.59) + 0.14 in
          Rmax 0 (Rmin 1 (n / d))) color.

Definition applySunsetBias (color : Vec3) : Vec3 :=
  let '(r, g, b) := color in
  let lum := 0.2126 * r + 0.7152 * g + 0.0722 * b in
  let w := 1.0 / (1.0 + 2.0 * lum) in
  let k := SUNSET_BIAS_STRENGTH in
  let rb := 1.0 + 0.5 * k * w in
  let gb := 1.0 - 0.5 * k * w in
  let bb := 1.0 + 1.0 * k * w in
  (Rmax 0 (r * rb), Rmax 0 (g * gb), Rmax 0 (b * bb)).

Definition rayleighPhase (angle : R) : R :=
  (3 * (1 + cos angle ^ 2)) / (16 * PI).

Definition miePhase (angle : R) : R :=
  let g := 0.8 in
  let s := 3 / (8 * PI) in
  let num := (1 - g ^ 2) * (1 + cos angle ^ 2) in
  let denom :=
    (2 + g ^ 2) * Math_pow (1 + g ^ 2 - 2 * g * cos angle) (3 / 2) in
  (s * num) / denom.

(** [number | null] is [option R]; [null] is [None]. *)
Definition intersectSphere (p d : Vec3) (r : R) : option R :=
  let m := p in
  let b := dot m d in
  let c := dot m m - r ^ 2 in
  let discr := b ^ 2 - c in
  if Rlt_dec discr 0 then None
  else
    let t := - b - sqrt discr in
    if Rlt_dec t 0 then Some (- b + sqrt discr) else Some t.

(** [!distance] for a [number | null]: true on [null] and on zero. *)
Definition falsy (distance : option R) : bool :=
  match distance with
  | None => true
  | Some t => if Req_dec_T t 0 then true else false
  end.

(** The variables the loop of [computeTransmittance] updates. *)
Record OpticalDepth : Type := mkOpticalDepth {
  od_t : R;
  odRayleigh : R;
  odMie : R;
  odOzone : R
}.

(** One iteration of the loop of lines 82-92. *)
Definition opticalDepthStep (rayOrigin rayDirection : Vec3)
           (segmentLength : R) (st : OpticalDepth) : OpticalDepth :=
  let pos := add rayOrigin (scale rayDirection (od_t st)) in
  let h := len pos - GROUND_RADIUS in
  let dR := exp (- h / RAYLEIGH_SCALE_HEIGHT) in
  let dM := exp (- h / MIE_SCALE_HEIGHT) in
  let ozoneDensity := 1.0 - Rmin (Rabs (h - 25e3) / 15e3) 1.0 in
  {| od_t := od_t st + segmentLength;
     odRayleigh := odRayleigh st + dR * segmentLength;
     odMie := odMie st + dM * segmentLength;
     odOzone := odOzone st + ozoneDensity * segmentLength |}.

(** Lines 75-111: the integration along a segment of length [distance]. *)
Definition integrateTransmittance (rayOrigin rayDirection : Vec3)
           (distance : R) : Vec3 :=
  let segmentLength := distance / INR SAMPLES in
  let st0 := {| od_t := 0.5 * segmentLength;
                odRayleigh := 0; odMie := 0; odOzone := 0 |} in
  let st :=
    fold_left (fun st (_ : nat) =>
                 opticalDepthStep rayOrigin rayDirection segmentLength st)
              (seq 0 SAMPLES) st0 in
  let tauR : Vec3 :=
    (comp 0 RAYLEIGH_SCATTER * odRayleigh st,
     comp 1 RAYLEIGH_SCATTER * odRayleigh st,
     comp 2 RAYLEIGH_SCATTER * odRayleigh st) in
  let tauM : Vec3 :=
    (MIE_ABSORB * odMie st, MIE_ABSORB * odMie st, MIE_ABSORB * odMie st) in
  let tauO : Vec3 :=
    (comp 0 OZONE_ABSORB * odOzone st,
     comp 1 OZONE_ABSORB * odOzone st,
     comp 2 OZONE_ABSORB * odOzone st) in
  let tau : Vec3 :=
    (- (comp 0 tauR + comp 0 tauM + comp 0 tauO),
     - (comp 1 tauR + comp 1 tauM + comp 1 tauO),
     - (comp 2 tauR + comp 2 tauM + comp 2 tauO)) in
  vecExp tau.

(** [computeTransmittance], over the real numbers.  Two things the
    binary64 code does are outside this reading.  Within rounding of the top
    of the atmosphere [GROUND_RADIUS + height] rounds to [TOP_RADIUS], the
    distance is 0 and the guard [!distance] returns [1, 1, 1]; module
    [Binary64] below embeds that guard on binary64 numbers.  And along a ray
    that passes deep below the ground [Math.exp] overflows, the optical
    depths are infinite and the result is [0, 0, 0], where the real numbers
    give positive components.  The properties that depend on either are
    stated away from that boundary and for rays that do not point
    downwards. *)
Definition computeTransmittance (height angle : R) : Vec3 :=
  let rayOrigin : Vec3 := (0, GROUND_RADIUS + height, 0) in
  let rayDirection : Vec3 := (sin angle, cos angle, 0) in
  let distance := intersectSphere rayOrigin rayDirection TOP_RADIUS in
  match distance with
  | None => (1, 1, 1)
  | Some dist =>
      if falsy distance then (1, 1, 1)
      else integrateTransmittance rayOrigin rayDirection dist
  end.

Record GradientResult : Type := mkGradientResult {
  gradient : string;
  topColor : RGB;
  bottomColor : RGB
}.

Record Stop : Type := mkStop {
  percent : R;
  rgb : RGB
}.

(** Lines 124-138. *)
Definition exposureFor (sunHeight : R) : R :=
  if Rle_dec sunHeight (-0.15) then
    EXPOSURE_NIGHT
  else if Rle_dec sunHeight 0.0 then
    let x := (sunHeight - -0.15) / 0.15 in
    let s := x * x * (3 - 2 * x) in
    EXPOSURE_NIGHT + s * (EXPOSURE_SUNSET - EXPOSURE_NIGHT)
  else if Rle_dec sunHeight 0.4 then
    let x := sunHeight / 0.4 in
    let s := x * x * (3 - 2 * x) in
    EXPOSURE_SUNSET + s * (EXPOSURE_DAY - EXPOSURE_SUNSET)
  else
    EXPOSURE_DAY.

(** The variables the ray-march loop of lines 175-218 updates. *)
Record March : Type := mkMarch {
  tRay : R;
  inscattered : Vec3
}.

(** One iteration of the loop of lines 175-218. *)
Definition marchStep (sunDirection viewDirection rayOrigin : Vec3)
           (segmentLength : R) (isRayPointingDownwardAtStart : bool)
           (transmittanceCameraToSpace : Vec3) (st : March) : March :=
  let samplePos := add rayOrigin (scale viewDirection (tRay st)) in
  let sampleRadius := len samplePos in
  let upUnit : Vec3 :=
    (comp 0 samplePos / sampleRadius,
     comp 1 samplePos / sampleRadius,
     comp 2 samplePos / sampleRadius) in
  let sampleHeight := sampleRadius - GROUND_RADIUS in
  let viewCos := clamp (dot upUnit viewDirection) (-1) 1 in
  let sunCos := clamp (dot upUnit sunDirection) (-1) 1 in
  let viewAngle := acos (Rabs viewCos) in
  let sunAngle := acos sunCos in
  let transmittanceToSpace := computeTransmittance sampleHeight viewAngle in
  let cameraToSample (k : nat) : R :=
    if isRayPointingDownwardAtStart
    then comp k transmittanceToSpace / comp k transmittanceCameraToSpace
    else comp k transmittanceCameraToSpace / comp k transmittanceToSpace in
  let transmittanceCameraToSample : Vec3 :=
    (cameraToSample 0%nat, cameraToSample 1%nat, cameraToSample 2%nat) in
  let transmittanceLight := computeTransmittance sampleHeight sunAngle in
  let opticalDensityRay := exp (- sampleHeight / RAYLEIGH_SCALE_HEIGHT) in
  let opticalDensityMie := exp (- sampleHeight / MIE_SCALE_HEIGHT) in
  let sunViewCos := clamp (dot sunDirection viewDirection) (-1) 1 in
  let sunViewAngle := acos sunViewCos in
  let phaseR := rayleighPhase sunViewAngle in
  let phaseM := miePhase sunViewAngle in
  let scattered (k : nat) : R :=
    let rayleighTerm := comp k RAYLEIGH_SCATTER * opticalDensityRay * phaseR in
    let mieTerm := MIE_SCATTER * opticalDensityMie * phaseM in
    comp k transmittanceLight * (rayleighTerm + mieTerm) in
  let scatteredRgb : Vec3 := (scattered 0%nat, scattered 1%nat, scattered 2%nat) in
  let accumulate (k : nat) : R :=
    comp k (inscattered st)
    + comp k transmittanceCameraToSample * comp k scatteredRgb * segmentLength in
  {| tRay := tRay st + segmentLength;
     inscattered := (accumulate 0%nat, accumulate 1%nat, accumulate 2%nat) |}.

(** Lines 148-221: the radiance scattered into one view ray. *)
Definition inscatter (cameraPosition sunDirection viewDirection : Vec3) : Vec3 :=
  let inscattered0 : Vec3 := (0, 0, 0) in
  match intersectSphere cameraPosition viewDirection TOP_RADIUS with
  | None => inscattered0
  | Some tExitTop =>
      if Rlt_dec 0 tExitTop then
        let rayOrigin := cameraPosition in
        let segmentLength := tExitTop / INR SAMPLES in
        let rayOriginRadius := len rayOrigin in
        let isRayPointingDownwardAtStart :=
          if Rlt_dec (dot rayOrigin viewDirection / rayOriginRadius) 0.0
          then true else false in
        let startHeight := rayOriginRadius - GROUND_RADIUS in
        let startRayCos :=
          clamp (dot (comp 0 rayOrigin / rayOriginRadius,
                      comp 1 rayOrigin / rayOriginRadius,
                      comp 2 rayOrigin / rayOriginRadius)
                     viewDirection) (-1) 1 in
        let startRayAngle := acos (Rabs startRayCos) in
        let transmittanceCameraToSpace :=
          computeTransmittance startHeight startRayAngle in
        let st :=
          fold_left (fun st (_ : nat) =>
                       marchStep sunDirection viewDirection rayOrigin
                                 segmentLength isRayPointingDownwardAtStart
                                 transmittanceCameraToSpace st)
                    (seq 0 SAMPLES)
                    {| tRay := segmentLength * 0.5;
                       inscattered := inscattered0 |} in
        vmap (fun c => c * SUN_INTENSITY) (inscattered st)
      else inscattered0
  end.

(** Lines 223-235: exposure, horizon glow, sunset bias, filmic curve, gamma
    and quantisation, in this order. *)
Definition toneMap (exposure horizonGlow : R) (inscattered : Vec3) : RGB :=
  let color := inscattered in
  let color := vmap (fun c => c * exposure) color in
  let color :=
    if Rlt_dec 0 horizonGlow then
      let warmth := horizonGlow * 0.6 in
      vmapi (fun c i =>
               let boost :=
                 match i with
                 | O => 1 + warmth
                 | S O => 1 + warmth * 0.3
                 | _ => 1 - warmth * 0.2
                 end in
               c * boost) color
    else color in
  let color := applySunsetBias color in
  let color := aces color in
  let color := vmap (fun c => Math_pow c (1.0 / GAMMA)) color in
  let '(c0, c1, c2) := color in
  (Math_round (clamp c0 0 1 * 255),
   Math_round (clamp c1 0 1 * 255),
   Math_round (clamp c2 0 1 * 255)).

(** Line 146: the vertical coordinate of view sample [i]. *)
Definition sampleS (i : nat) : R := INR i / INR (SAMPLES - 1).

(** The body of the loop of lines 145-239 for the index [i]: the stop it
    pushes. *)
Definition sampleStop (altitude : R) (i : nat) : Stop :=
  let cameraPosition : Vec3 := (0, GROUND_RADIUS, 0) in
  let sunDirection := norm (cos altitude, sin altitude, 0) in
  let sunHeight := sin altitude in
  let exposure := exposureFor sunHeight in
  let horizonGlow := Rmax 0 (1 - Rabs sunHeight * 3) in
  let focalZ := 1.0 / tan ((FOV_DEG * 0.5 * PI) / 180.0) in
  let s := sampleS i in
  let viewDirection := norm (0, s, focalZ) in
  let inscattered := inscatter cameraPosition sunDirection viewDirection in
  let rgb := toneMap exposure horizonGlow inscattered in
  let percent := (1 - s) * 100 in
  {| percent := percent; rgb := rgb |}.

(** The array [stops] when the loop of lines 145-239 has ended. *)
Definition sampleStops (altitude : R) : list Stop :=
  fold_left (fun stops i => stops ++ [sampleStop altitude i])
            (seq 0 SAMPLES) [].

(** [Array.prototype.sort(compareFn)]: a stable sort; [compareFn(a, b) < 0]
    puts [a] before [b]. *)
Fixpoint insertBy {A : Type} (compareFn : A -> A -> R) (x : A)
         (sorted : list A) : list A :=
  match sorted with
  | [] => [x]
  | y :: rest =>
      if Rlt_dec (compareFn x y) 0 then x :: sorted
      else y :: insertBy compareFn x rest
  end.

Definition sortBy {A : Type} (compareFn : A -> A -> R) (l : list A) : list A :=
  fold_left (fun sorted x => insertBy compareFn x sorted) l [].

(** Line 241: the array [stops] after [stops.sort]. *)
Definition sortedStops (altitude : R) : list Stop :=
  sortBy (fun a b => percent a - percent b) (sampleStops altitude).

(** [String(n)] for an integer [n]. *)
Definition intToString (n : Z) : string :=
  DecimalString.NilZero.string_of_int (Z.to_int n).

(** [String(n / 100)] for an integer [0 <= n]: at most two decimals, no
    trailing zero. *)
Definition hundredthsToString (n : Z) : string :=
  let ip := (n / 100)%Z in
  let fp := (n mod 100)%Z in
  if (fp =? 0)%Z then intToString ip
  else if (fp mod 10 =? 0)%Z then
    intToString ip ++ "." ++ intToString (fp / 10)
  else
    intToString ip ++ "." ++ intToString (fp / 10) ++ intToString (fp mod 10).

(** The template literal of line 245. *)
Definition formatStop (st : Stop) : string :=
  let '(r, g, b) := rgb st in
  "rgb(" ++ intToString r ++ ", " ++ intToString g ++ ", " ++ intToString b
  ++ ") " ++ hundredthsToString (Math_round (percent st * 100)) ++ "%".

(** [parts.join(sep)] *)
Fixpoint join (sep : string) (parts : list string) : string :=
  match parts with
  | [] => ""
  | [p] => p
  | p :: rest => p ++ sep ++ join sep rest
  end.

(** [renderGradient]; [None] stands for the [TypeError] that reading [.rgb]
    of [undefined] throws when [stops] holds no element. *)
Definition renderGradient (altitude : R) : option GradientResult :=
  let stops := sortedStops altitude in
  let colorStops := join ", " (map formatStop stops) in
  match nth_error stops 0, nth_error stops (List.length stops - 1) with
  | Some first, Some last =>
      Some {| gradient := "linear-gradient(to bottom, " ++ colorStops ++ ")";
              topColor := rgb first;
              bottomColor := rgb last |}
  | _, _ => None
  end.

End Gradient.

(** ** suncalc.ts and sunTimes.ts *)

Module SunTimes.

(** A [Date]: its time value, in milliseconds since the epoch. *)
Record Date : Type := mkDate { getTime : Z }.

Record SunPosition : Type := mkSunPosition {
  altitude : R;
  azimuth : R
}.

Record SunTimes : Type := mkSunTimes {
  sunrise : Date;
  sunset : Date
}.

(** [correctAltitude] of [src/sunTimes.ts]. *)
Definition correctAltitude (now : Date) (sunAltitude : R)
           (sunTimes : SunTimes) (_latitude _longitude : R) : R :=
  let tNow := IZR (getTime now) in
  let tSunrise := IZR (getTime (sunrise sunTimes)) in
  let tSunset := IZR (getTime (sunset sunTimes)) in
  let daySpan := tSunset - tSunrise in
  if Rle_dec daySpan 0 then sunAltitude
  else
    let dayPos := (tNow - tSunrise) / daySpan in
    let TWILIGHT_MS := 30 * 60 * 1000 in
    if Rlt_dec dayPos 0 then
      let timeToSunrise := tSunrise - tNow in
      if Rlt_dec (TWILIGHT_MS * 2) timeToSunrise then sunAltitude
      else
        let t := 1 - (timeToSunrise / (TWILIGHT_MS * 2)) in
        let smoothT := t * t * (3 - 2 * t) in
        let bias := - smoothT * 0.5 * (PI / 180) in
        sunAltitude + bias
    else if Rlt_dec 1 dayPos then
      let timeSinceSunset := tNow - tSunset in
      if Rlt_dec (TWILIGHT_MS * 2) timeSinceSunset then sunAltitude
      else
        let t := 1 - (timeSinceSunset / (TWILIGHT_MS * 2)) in
        let smoothT := t * t * (3 - 2 * t) in
        let bias := - smoothT * 0.5 * (PI / 180) in
        sunAltitude + bias
    else sunAltitude.

End SunTimes.

(** ** compute.ts *)

Module Compute.
Import Utils Correction Gradient SunTimes.

Section ComputeSky.

(** The collaborators [computeSky] calls and the sources do not define:
    the ephemeris of the [suncalc] package behind [getSunPosition], and
    [fetchSunTimes], which asks a provider over the network; [None] is a
    rejected promise. *)
Variable SunTimesProvider : Type.
Variable getSunPosition : Date -> R -> R -> SunPosition.
Variable fetchSunTimes :
  R -> R -> Date -> SunTimesProvider -> option SunTimes.

(** [false | { provider }] *)
Inductive SunTimesOption : Type :=
| SunTimesOff
| SunTimesFrom (provider : SunTimesProvider).

(** An absent optional field is [None]. *)
Record ComputeSkyOptions : Type := mkComputeSkyOptions {
  date : Date;
  latitude : R;
  longitude : R;
  sunTimes : option SunTimesOption;
  bortle : option R
}.

Record SkyResult : Type := mkSkyResult {
  sky_gradient : string;
  sky_topColor : string;
  sky_bottomColor : string;
  sky_altitude : R;
  sky_azimuth : R;
  sky_correctedAltitude : option R;
  sky_sunrise : option Date;
  sky_sunset : option Date
}.

Definition vecToRgb (v : RGB) : string :=
  let '(v0, v1, v2) := v in
  "rgb(" ++ intToString v0 ++ ", " ++ intToString v1 ++ ", "
  ++ intToString v2 ++ ")".

(** The local variables of [computeSky] when it reaches line 92. *)
Record Corrected : Type := mkCorrected {
  renderAltitude : R;
  correctedAltitude : option R;
  c_sunrise : option Date;
  c_sunset : option Date
}.

(** Lines 84-90 of [computeSky]: the two corrections of the altitude. *)
Definition applyCorrections (altitude : R) (bortle : option R) : R :=
  let altitude := altitude + getMultipleScatteringOffset altitude in
  match bortle with
  | Some b => Rmax altitude (getLightPollutionAltitude b)
  | None => altitude
  end.

(** Lines 59-90 of [computeSky]. *)
Definition correctedSky (options : ComputeSkyOptions) : option Corrected :=
  let sunTimesOption :=
    match sunTimes options with
    | Some o => o
    | None => SunTimesOff
    end in
  let pos := getSunPosition (date options) (latitude options)
                            (longitude options) in
  let rawAltitude := altitude pos in
  match sunTimesOption with
  | SunTimesOff =>
      Some {| renderAltitude := applyCorrections rawAltitude (bortle options);
              correctedAltitude := None;
              c_sunrise := None;
              c_sunset := None |}
  | SunTimesFrom provider =>
      match fetchSunTimes (latitude options) (longitude options)
                          (date options) provider with
      | None => None
      | Some times =>
          let corrected :=
            correctAltitude (date options) rawAltitude times
                            (latitude options) (longitude options) in
          Some {| renderAltitude := applyCorrections corrected (bortle options);
                  correctedAltitude := Some corrected;
                  c_sunrise := Some (sunrise times);
                  c_sunset := Some (sunset times) |}
      end
  end.

Definition computeSky (options : ComputeSkyOptions) : option SkyResult :=
  let pos := getSunPosition (date options) (latitude options)
                            (longitude options) in
  match correctedSky options with
  | None => None
  | Some c =>
      match renderGradient (renderAltitude c) with
      | None => None
      | Some g =>
          Some {| sky_gradient := gradient g;
                  sky_topColor := vecToRgb (topColor g);
                  sky_bottomColor := vecToRgb (bottomColor g);
                  sky_altitude := altitude pos;
                  sky_azimuth := azimuth pos;
                  sky_correctedAltitude := correctedAltitude c;
                  sky_sunrise := c_sunrise c;
                  sky_sunset := c_sunset c |}
      end
  end.

End ComputeSky.

Arguments SunTimesOff {SunTimesProvider}.
Arguments mkComputeSkyOptions {SunTimesProvider}.
Arguments date {SunTimesProvider}.
Arguments latitude {SunTimesProvider}.
Arguments longitude {SunTimesProvider}.
Arguments sunTimes {SunTimesProvider}.
Arguments bortle {SunTimesProvider}.
Arguments correctedSky {SunTimesProvider}.
Arguments computeSky {SunTimesProvider}.

End Compute.

(** ** Interval arithmetic in fixed point *)

Module Interval.

(** Fixed-point intervals: [Itv lo hi] stands for the reals between
    [lo / fx_one] and [hi / fx_one]; [Any] for all reals. *)
Definition prec : Z := 40.
Definition fx_one : Z := 2 ^ prec.
Definition squarings : nat := 12.

Inductive itv : Type :=
| Itv (lo hi : Z)
| Any.

Definition fdiv (a b : Z) : Z := (a / b)%Z.
Definition cdiv (a b : Z) : Z := (- ((- a) / b))%Z.

(** Division by [fx_one], rounded down and up. *)
Definition floor_scale (a : Z) : Z := Z.shiftr a prec.
Definition ceil_scale (a : Z) : Z := (- Z.shiftr (- a) prec)%Z.

Definition I_const (p q : Z) : itv :=
  Itv (fdiv (p * fx_one) q) (cdiv (p * fx_one) q).

Definition I_add (x y : itv) : itv :=
  match x, y with
  | Itv a b, Itv c d => Itv (a + c) (b + d)
  | _, _ => Any
  end.

Definition I_neg (x : itv) : itv :=
  match x with
  | Itv a b => Itv (- b) (- a)
  | Any => Any
  end.

Definition I_sub (x y : itv) : itv := I_add x (I_neg y).

Definition min4 (p q r s : Z) : Z := Z.min (Z.min p q) (Z.min r s).
Definition max4 (p q r s : Z) : Z := Z.max (Z.max p q) (Z.max r s).

Definition I_mul (x y : itv) : itv :=
  match x, y with
  | Itv a b, Itv c d =>
      if andb (0 <=? a)%Z (0 <=? c)%Z then
        Itv (floor_scale (a * c)) (ceil_scale (b * d))
      else
        Itv (floor_scale (min4 (a * c) (a * d) (b * c) (b * d)))
            (ceil_scale (max4 (a * c) (a * d) (b * c) (b * d)))
  | _, _ => Any
  end.

Definition I_inv (x : itv) : itv :=
  match x with
  | Itv a b =>
      if (0 <? a)%Z then Itv (fdiv (fx_one * fx_one) b) (cdiv (fx_one * fx_one) a)
      else Any
  | Any => Any
  end.

Definition I_div (x y : itv) : itv := I_mul x (I_inv y).

Definition I_sqrt (x : itv) : itv :=
  match x with
  | Itv a b => Itv (Z.sqrt (Z.max a 0 * fx_one)) (Z.sqrt (Z.max b 0 * fx_one) + 1)
  | Any => Any
  end.

Definition I_abs (x : itv) : itv :=
  match x with
  | Itv a b =>
      if (0 <=? a)%Z then x
      else if (b <=? 0)%Z then Itv (- b) (- a)
      else Itv 0 (Z.max (- a) b)
  | Any => Any
  end.

Definition I_min (x y : itv) : itv :=
  match x, y with
  | Itv a b, Itv c d => Itv (Z.min a c) (Z.min b d)
  | _, _ => Any
  end.

Definition I_max (x y : itv) : itv :=
  match x, y with
  | Itv a b, Itv c d => Itv (Z.max a c) (Z.max b d)
  | _, _ => Any
  end.

(** [a ^ (2 ^ k)] in fixed point, every square rounded down. *)
Fixpoint square_chain (k : nat) (a : Z) : Z :=
  match k with
  | O => a
  | S k' => square_chain k' (floor_scale (a * a))
  end.

(** The same, every square rounded up. *)
Fixpoint square_chain_up (k : nat) (a : Z) : Z :=
  match k with
  | O => a
  | S k' => square_chain_up k' (ceil_scale (a * a))
  end.

(** A lower bound of [exp (n / fx_one)], from [1 + z <= exp z]. *)
Definition exp_lower (n : Z) : Z :=
  let a := (fx_one + Z.shiftr n (Z.of_nat squarings))%Z in
  if (a <? 0)%Z then 0%Z else square_chain squarings a.

(** An upper bound of [exp (n / fx_one)], from [exp z <= 1 + z + 2 z^2] for
    [z <= 1/2]; [None] when [n / fx_one] is too large for it. *)
Definition exp_upper (n : Z) : option Z :=
  let z := (- Z.shiftr (- n) (Z.of_nat squarings))%Z in
  if (2 * z <=? fx_one)%Z then
    Some (square_chain_up squarings (fx_one + z + ceil_scale (2 * z * z)))
  else None.

Definition I_exp (x : itv) : itv :=
  match x with
  | Itv a b =>
      match exp_upper b with
      | Some u => Itv (exp_lower a) u
      | None => Any
      end
  | Any => Any
  end.

Definition contains (x : R) (i : itv) : Prop :=
  match i with
  | Itv lo hi => IZR lo <= x * IZR fx_one <= IZR hi
  | Any => True
  end.

End Interval.

(** ** Enclosures of the renderer's functions *)

Module GradientBounds.
Import Utils Gradient Interval.

Definition IVec3 : Type := (itv * itv * itv)%type.
Definition Any3 : IVec3 := (Any, Any, Any).

Definition I_sqr (x : itv) : itv := I_mul x x.

(** The sine of [acos x], that is [sqrt (1 - x^2)]. *)
Definition I_sin_acos (x : itv) : itv := I_sqrt (I_sub (I_const 1 1) (I_sqr x)).

Definition I_comp (k : nat) (v : IVec3) : itv :=
  let '(v0, v1, v2) := v in
  match k with
  | O => v0
  | S O => v1
  | _ => v2
  end.

Definition I_dot (a b : IVec3) : itv :=
  let '(a0, a1, a2) := a in
  let '(b0, b1, b2) := b in
  I_add (I_add (I_mul a0 b0) (I_mul a1 b1)) (I_mul a2 b2).

Definition I_len (a : IVec3) : itv := I_sqrt (I_dot a a).

Definition I_norm (a : IVec3) : IVec3 :=
  let '(a0, a1, a2) := a in
  let l := I_len a in
  (I_div a0 l, I_div a1 l, I_div a2 l).

Definition I_vadd (a b : IVec3) : IVec3 :=
  let '(a0, a1, a2) := a in
  let '(b0, b1, b2) := b in
  (I_add a0 b0, I_add a1 b1, I_add a2 b2).

Definition I_scale (a : IVec3) (s : itv) : IVec3 :=
  let '(a0, a1, a2) := a in
  (I_mul a0 s, I_mul a1 s, I_mul a2 s).

Definition I_clamp (x lo hi : itv) : itv := I_max lo (I_min hi x).

Definition upper_neg (x : itv) : bool :=
  match x with
  | Itv _ b => (b <? 0)%Z
  | Any => false
  end.

Definition lower_nonneg (x : itv) : bool :=
  match x with
  | Itv a _ => (0 <=? a)%Z
  | Any => false
  end.

Definition I_GROUND_RADIUS : itv := I_const 6360000 1.
Definition I_TOP_RADIUS : itv := I_const 6460000 1.
Definition I_SAMPLES : itv := I_const 32 1.
Definition I_0 : itv := I_const 0 1.
Definition I_1 : itv := I_const 1 1.

Record IOpticalDepth : Type := mkIOpticalDepth {
  I_od_t : itv;
  I_odRayleigh : itv;
  I_odMie : itv;
  I_odOzone : itv
}.

Definition I_opticalDepthStep (rayOrigin rayDirection : IVec3)
           (segmentLength : itv) (st : IOpticalDepth) : IOpticalDepth :=
  let pos := I_vadd rayOrigin (I_scale rayDirection (I_od_t st)) in
  let h := I_sub (I_len pos) I_GROUND_RADIUS in
  let dR := I_exp (I_div (I_neg h) (I_const 8000 1)) in
  let dM := I_exp (I_div (I_neg h) (I_const 1200 1)) in
  let ozoneDensity :=
    I_sub I_1 (I_min (I_div (I_abs (I_sub h (I_const 25000 1)))
                            (I_const 15000 1)) I_1) in
  {| I_od_t := I_add (I_od_t st) segmentLength;
     I_odRayleigh := I_add (I_odRayleigh st) (I_mul dR segmentLength);
     I_odMie := I_add (I_odMie st) (I_mul dM segmentLength);
     I_odOzone := I_add (I_odOzone st) (I_mul ozoneDensity segmentLength) |}.

Definition I_tau (rayleigh ozone : itv) (st : IOpticalDepth) : itv :=
  I_neg (I_add (I_add (I_mul rayleigh (I_odRayleigh st))
                      (I_mul (I_const 444 100000000) (I_odMie st)))
               (I_mul ozone (I_odOzone st))).

Definition I_integrateTransmittance (rayOrigin rayDirection : IVec3)
           (distance : itv) : IVec3 :=
  let segmentLength := I_div distance I_SAMPLES in
  let st0 := {| I_od_t := I_mul (I_const 1 2) segmentLength;
                I_odRayleigh := I_0; I_odMie := I_0; I_odOzone := I_0 |} in
  let st :=
    fold_left (fun st (_ : nat) =>
                 I_opticalDepthStep rayOrigin rayDirection segmentLength st)
              (seq 0 SAMPLES) st0 in
  (I_exp (I_tau (I_const 5802 1000000000) (I_const 65 100000000) st),
   I_exp (I_tau (I_const 13558 1000000000) (I_const 1881 1000000000) st),
   I_exp (I_tau (I_const 331 10000000) (I_const 85 1000000000) st)).

(** The distance to a sphere of radius [r] around the origin from a point
    inside it: the far root. *)
Definition I_exitDistance (p d : IVec3) (r : itv) : itv :=
  let b := I_dot p d in
  let c := I_sub (I_dot p p) (I_sqr r) in
  if upper_neg c then I_add (I_neg b) (I_sqrt (I_sub (I_sqr b) c)) else Any.

(** [computeTransmittance] from the height and the sine and cosine of the
    angle. *)
Definition I_computeTransmittance (height sinAngle cosAngle : itv) : IVec3 :=
  let rayOrigin : IVec3 := (I_0, I_add I_GROUND_RADIUS height, I_0) in
  let rayDirection : IVec3 := (sinAngle, cosAngle, I_0) in
  match I_exitDistance rayOrigin rayDirection I_TOP_RADIUS with
  | Any => Any3
  | distance => I_integrateTransmittance rayOrigin rayDirection distance
  end.

Definition I_rayleighPhase (cosAngle pi : itv) : itv :=
  I_div (I_mul (I_const 3 1) (I_add I_1 (I_sqr cosAngle)))
        (I_mul (I_const 16 1) pi).

Definition I_miePhase (cosAngle pi : itv) : itv :=
  let g := I_const 8 10 in
  let s := I_div (I_const 3 1) (I_mul (I_const 8 1) pi) in
  let num := I_mul (I_sub I_1 (I_sqr g)) (I_add I_1 (I_sqr cosAngle)) in
  let base := I_sub (I_add I_1 (I_sqr g)) (I_mul (I_mul (I_const 2 1) g) cosAngle) in
  let denom := I_mul (I_add (I_const 2 1) (I_sqr g)) (I_mul base (I_sqrt base)) in
  I_div (I_mul s num) denom.

Record IMarch : Type := mkIMarch {
  I_tRay : itv;
  I_inscattered : IVec3
}.

(** [marchStep] for a ray that does not point downward at its start. *)
Definition I_marchStep (pi : itv) (sunDirection viewDirection rayOrigin : IVec3)
           (segmentLength : itv) (transmittanceCameraToSpace : IVec3)
           (st : IMarch) : IMarch :=
  let samplePos := I_vadd rayOrigin (I_scale viewDirection (I_tRay st)) in
  let sampleRadius := I_len samplePos in
  let upUnit : IVec3 :=
    (I_div (I_comp 0 samplePos) sampleRadius,
     I_div (I_comp 1 samplePos) sampleRadius,
     I_div (I_comp 2 samplePos) sampleRadius) in
  let sampleHeight := I_sub sampleRadius I_GROUND_RADIUS in
  let viewCos := I_clamp (I_dot upUnit viewDirection) (I_const (-1) 1) I_1 in
  let sunCos := I_clamp (I_dot upUnit sunDirection) (I_const (-1) 1) I_1 in
  let transmittanceToSpace :=
    I_computeTransmittance sampleHeight (I_sin_acos (I_abs viewCos)) (I_abs viewCos) in
  let transmittanceLight :=
    I_computeTransmittance sampleHeight (I_sin_acos sunCos) sunCos in
  let opticalDensityRay := I_exp (I_div (I_neg sampleHeight) (I_const 8000 1)) in
  let opticalDensityMie := I_exp (I_div (I_neg sampleHeight) (I_const 1200 1)) in
  let sunViewCos := I_clamp (I_dot sunDirection viewDirection) (I_const (-1) 1) I_1 in
  let phaseR := I_rayleighPhase sunViewCos pi in
  let phaseM := I_miePhase sunViewCos pi in
  let mieTerm := I_mul (I_mul (I_const 3996 1000000000) opticalDensityMie) phaseM in
  let accumulate (k : nat) (rayleigh : itv) : itv :=
    I_add (I_comp k (I_inscattered st))
          (I_mul (I_mul (I_div (I_comp k transmittanceCameraToSpace)
                               (I_comp k transmittanceToSpace))
                        (I_mul (I_comp k transmittanceLight)
                               (I_add (I_mul (I_mul rayleigh opticalDensityRay) phaseR)
                                      mieTerm)))
                 segmentLength) in
  {| I_tRay := I_add (I_tRay st) segmentLength;
     I_inscattered := (accumulate 0%nat (I_const 5802 1000000000),
                       accumulate 1%nat (I_const 13558 1000000000),
                       accumulate 2%nat (I_const 331 10000000)) |}.

(** [inscatter] from the camera on the ground, for a view ray that does not
    point downward. *)
Definition I_inscatter (pi : itv) (sunDirection viewDirection : IVec3) : IVec3 :=
  let cameraPosition : IVec3 := (I_0, I_GROUND_RADIUS, I_0) in
  match I_exitDistance cameraPosition viewDirection I_TOP_RADIUS with
  | Any => Any3
  | tExitTop =>
      let rayOrigin := cameraPosition in
      let segmentLength := I_div tExitTop I_SAMPLES in
      let rayOriginRadius := I_len rayOrigin in
      if lower_nonneg (I_div (I_dot rayOrigin viewDirection) rayOriginRadius) then
        let startHeight := I_sub rayOriginRadius I_GROUND_RADIUS in
        let startRayCos :=
          I_clamp (I_dot (I_div (I_comp 0 rayOrigin) rayOriginRadius,
                          I_div (I_comp 1 rayOrigin) rayOriginRadius,
                          I_div (I_comp 2 rayOrigin) rayOriginRadius)
                         viewDirection) (I_const (-1) 1) I_1 in
        let transmittanceCameraToSpace :=
          I_computeTransmittance startHeight (I_sin_acos (I_abs startRayCos))
                                 (I_abs startRayCos) in
        let st :=
          fold_left (fun st (_ : nat) =>
                       I_marchStep pi sunDirection viewDirection rayOrigin
                                   segmentLength transmittanceCameraToSpace st)
                    (seq 0 SAMPLES)
                    {| I_tRay := I_mul segmentLength (I_const 1 2);
                       I_inscattered := (I_0, I_0, I_0) |} in
        (I_mul (I_comp 0 (I_inscattered st)) I_1,
         I_mul (I_comp 1 (I_inscattered st)) I_1,
         I_mul (I_comp 2 (I_inscattered st)) I_1)
      else Any3
  end.

Definition I_PI : itv := Itv (fdiv (314159 * fx_one) 100000) (cdiv (314160 * fx_one) 100000).

(** The red channel of [aces (applySunsetBias color)] for the colour
    [inscattered * exposure], when there is no horizon glow. *)
Definition I_linearRed (exposure : itv) (inscattered : IVec3) : itv :=
  let r := I_mul (I_comp 0 inscattered) exposure in
  let g := I_mul (I_comp 1 inscattered) exposure in
  let b := I_mul (I_comp 2 inscattered) exposure in
  let lum := I_add (I_add (I_mul (I_const 2126 10000) r)
                          (I_mul (I_const 7152 10000) g))
                   (I_mul (I_const 722 10000) b) in
  let w := I_div I_1 (I_add I_1 (I_mul (I_const 2 1) lum)) in
  let rb := I_add I_1 (I_mul (I_mul (I_const 1 2) (I_const 1 2)) w) in
  let c := I_max I_0 (I_mul r rb) in
  let n := I_mul c (I_add (I_mul (I_const 251 100) c) (I_const 3 100)) in
  let d := I_add (I_mul c (I_add (I_mul (I_const 243 100) c) (I_const 59 100)))
                 (I_const 14 100) in
  I_max I_0 (I_min I_1 (I_div n d)).

(** The view direction of sample [i] for a focal length in [focalZ]. *)
Definition I_viewDirection (i : Z) (focalZ : itv) : IVec3 :=
  I_norm (I_0, I_const i 31, focalZ).

Definition I_focalZ : itv :=
  Itv (fdiv (130321 * fx_one) 100000) (cdiv (130324 * fx_one) 100000).

Definition I_sunAtZenith : IVec3 := (I_0, I_1, I_0).

(** The red channel, before the gamma curve, of view sample [i] with the sun
    at the zenith. *)
Definition I_zenithRed (i : Z) : itv :=
  I_linearRed (I_const 18 1)
              (I_inscatter I_PI I_sunAtZenith (I_viewDirection i I_focalZ)).

(** A vector inside a box, a loop state inside its enclosure. *)
Definition contains3 (v : Vec3) (V : IVec3) : Prop :=
  contains (comp 0 v) (I_comp 0 V) /\
  contains (comp 1 v) (I_comp 1 V) /\
  contains (comp 2 v) (I_comp 2 V).

Definition containsOD (st : OpticalDepth) (ST : IOpticalDepth) : Prop :=
  contains (od_t st) (I_od_t ST) /\
  contains (odRayleigh st) (I_odRayleigh ST) /\
  contains (odMie st) (I_odMie ST) /\
  contains (odOzone st) (I_odOzone ST).

Definition containsMarch (st : March) (ST : IMarch) : Prop :=
  contains (tRay st) (I_tRay ST) /\
  contains3 (inscattered st) (I_inscattered ST).

End GradientBounds.

(** ** sunTimes.ts: [fetchSunTimes] and its cache *)

Module Fetch.
Import Gradient SunTimes.

Record SunTimesRequest : Type := mkSunTimesRequest {
  req_latitude : R;
  req_longitude : R;
  req_date : string
}.

(** [Date | string] *)
Inductive DateOrString : Type :=
| IsDate (d : Date)
| IsString (s : string).

Record SunTimesResponse : Type := mkSunTimesResponse {
  res_sunrise : DateOrString;
  res_sunset : DateOrString
}.

(** [s.padStart(2, "0")] *)
Definition padStart2 (s : string) : string :=
  match String.length s with
  | O => "00"
  | S O => "0" ++ s
  | _ => s
  end.

(** A promise once it has settled: fulfilled with a value, or rejected
    ([None]). *)
Definition Promise (A : Type) : Type := option A.

(** The [Map<string, Promise<SunTimes>>] kept in [globalThis]; [[]] is the
    [new Map()] of the first call. *)
Definition Cache : Type := list (string * Promise SunTimes).

(** [cache.has(key)] and [cache.get(key)]: [None] when the key is absent. *)
Fixpoint cache_get (cache : Cache) (key : string)
  : option (Promise SunTimes) :=
  match cache with
  | [] => None
  | (k, v) :: rest => if String.eqb k key then Some v else cache_get rest key
  end.

(** [cache.delete(key)] *)
Definition cache_delete (cache : Cache) (key : string) : Cache :=
  filter (fun e => negb (String.eqb (fst e) key)) cache.

(** [cache.set(key, v)]: the entry of [key], if any, is replaced. *)
Definition cache_set (cache : Cache) (key : string) (v : Promise SunTimes)
  : Cache :=
  (key, v) :: cache_delete cache key.

(** What a call of [fetchSunTimes] leaves behind when its promise has
    settled: the outcome, the cache, and the requests sent to the provider. *)
Record Fetched : Type := mkFetched {
  outcome : Promise SunTimes;
  cacheAfter : Cache;
  requests : list SunTimesRequest
}.

Section FetchSunTimes.

(** What the sources do not define: the UTC calendar fields of the [Date]
    with a given time value and [new Date(s)] for a string, both of the
    JavaScript engine; the providers, which are functions: whether one is
    [defaultSunTimesProvider], the text [provider.toString()] gives, and
    what it answers to a request, [None] when it throws or its promise
    rejects. *)
Variable getUTCFullYear : Z -> Z.
Variable getUTCMonth : Z -> Z.
Variable getUTCDate : Z -> Z.
Variable parseDate : string -> Date.
Variable SunTimesProvider : Type.
Variable isDefaultSunTimesProvider : SunTimesProvider -> bool.
Variable toString : SunTimesProvider -> string.
Variable call : SunTimesProvider -> SunTimesRequest -> Promise SunTimesResponse.

(** Lines 50-56: the date at the longitude's nominal time zone. *)
Definition dateStr (longitude : R) (date : Date) : string :=
  let tzOffsetMinutes := (Math_round (longitude / 15) * 60)%Z in
  let localDate := (getTime date + tzOffsetMinutes * 60 * 1000)%Z in
  join "-" [ intToString (getUTCFullYear localDate);
             padStart2 (intToString (getUTCMonth localDate + 1));
             padStart2 (intToString (getUTCDate localDate)) ].

(** Line 59. *)
Definition providerId (provider : SunTimesProvider) : string :=
  if isDefaultSunTimesProvider provider then "default" else toString provider.

(** Lines 61-63. *)
Definition cacheKey (latitude longitude : R) (date : Date)
           (provider : SunTimesProvider) : string :=
  let roundedLat := Math_round latitude in
  let roundedLng := Math_round longitude in
  intToString roundedLat ++ "," ++ intToString roundedLng ++ ","
  ++ dateStr longitude date ++ "," ++ providerId provider.

(** [x instanceof Date ? x : new Date(x)] *)
Definition toDate (x : DateOrString) : Date :=
  match x with
  | IsDate d => d
  | IsString s => parseDate s
  end.

(** [fetchSunTimes], for calls made one after the other: each has settled
    before the next starts. *)
Definition fetchSunTimes (latitude longitude : R) (date : Date)
           (provider : SunTimesProvider) (cache : Cache) : Fetched :=
  let key := cacheKey latitude longitude date provider in
  match cache_get cache key with
  | Some promise =>
      {| outcome := promise; cacheAfter := cache; requests := [] |}
  | None =>
      let request := {| req_latitude := latitude;
                        req_longitude := longitude;
                        req_date := dateStr longitude date |} in
      let promise : Promise SunTimes :=
        match call provider request with
        | Some result =>
            Some {| sunrise := toDate (res_sunrise result);
                    sunset := toDate (res_sunset result) |}
        | None => None
        end in
      let cache := cache_set cache key promise in
      match promise with
      | Some sunTimes =>
          {| outcome := Some sunTimes; cacheAfter := cache;
             requests := [request] |}
      | None =>
          {| outcome := None; cacheAfter := cache_delete cache key;
             requests := [request] |}
      end
  end.

End FetchSunTimes.

End Fetch.

(** ** gradient.ts in binary64: the guard of [computeTransmittance]

    Whether line 73 returns [1, 1, 1] is decided by an exact comparison
    with zero, which rounding can change.  For this guard the code is
    embedded a second time, on binary64 numbers: [+], [-], [*] and
    [Math.sqrt] are the correctly rounded operations of IEEE 754,
    [x ** 2] is [x * x], and [Math.sin(angle)] and [Math.cos(angle)] are
    given as arguments. *)

Module Binary64.

Definition Vec3 : Type := (float * float * float)%type.

Definition GROUND_RADIUS : float := 6360000%float.
Definition TOP_RADIUS : float := 6460000%float.

(** Modelled from the spec: [dot] of [utils.ts], on binary64 numbers. *)
Definition dot (a b : Vec3) : float :=
  let '(a0, a1, a2) := a in
  let '(b0, b1, b2) := b in
  (a0 * b0 + a1 * b1 + a2 * b2)%float.

Definition intersectSphere (p d : Vec3) (r : float) : option float :=
  let m := p in
  let b := dot m d in
  let c := (dot m m - r * r)%float in
  let discr := (b * b - c)%float in
  if PrimFloat.ltb discr 0 then None
  else
    let t := (- b - PrimFloat.sqrt discr)%float in
    if PrimFloat.ltb t 0 then Some (- b + PrimFloat.sqrt discr)%float else Some t.

(** [!distance]: true on [null], on zero of either sign and on NaN. *)
Definition falsy (distance : option float) : bool :=
  match distance with
  | None => true
  | Some t => orb (PrimFloat.eqb t 0) (PrimFloat.is_nan t)
  end.


End Binary64.

Import Utils Correction Gradient SunTimes Compute Interval GradientBounds.

(** ** Predicates of the properties *)

(** A colour whose three channels are bytes. *)
Definition byteRange (c : RGB) : Prop :=
  let '(r, g, b) := c in
  (0 <= r <= 255 /\ 0 <= g <= 255 /\ 0 <= b <= 255)%Z.

(** The three optical depths the loop of [computeTransmittance] has
    accumulated are non-negative. *)
Definition depthsNonneg (st : OpticalDepth) : Prop :=
  0 <= odRayleigh st /\ 0 <= odMie st /\ 0 <= odOzone st.

(** * Properties *)

Lemma DEG_TO_RAD_pos : 0 < DEG_TO_RAD.
Proof. unfold DEG_TO_RAD. pose proof PI_RGT_0. lra. Qed.

Lemma altDeg_of_degrees (d : R) : d * DEG_TO_RAD / DEG_TO_RAD = d.
Proof. pose proof DEG_TO_RAD_pos. field. lra. Qed.

(** In the deep-twilight branch the offset is the straight line through
    (-12, 11) and (-30, 0), continued below -30 degrees. *)
Lemma offset_deep_twilight (d : R) :
  d <= -12 ->
  getMultipleScatteringOffset (d * DEG_TO_RAD) = 11 * (30 + d) / 18 * DEG_TO_RAD.
Proof.
  intros Hd. unfold getMultipleScatteringOffset.
  rewrite altDeg_of_degrees.
  destruct (Rlt_dec 20 d); [lra|].
  destruct (Rlt_dec (-6) d); [lra|].
  destruct (Rlt_dec (-12) d); [lra|].
  rewrite Rmax_right by lra. lra.
Qed.

(** C1, at the input -40 degrees: the offset is -55/9 degrees, not 0. *)
Theorem C1_offset_below_minus_30_is_negative :
  -40 * DEG_TO_RAD <= -30 * PI / 180 /\
  getMultipleScatteringOffset (-40 * DEG_TO_RAD) = - (55 / 9) * DEG_TO_RAD /\
  getMultipleScatteringOffset (-40 * DEG_TO_RAD) <> 0.
Proof.
  pose proof DEG_TO_RAD_pos as Hpos.
  rewrite offset_deep_twilight by lra.
  repeat split.
  - unfold DEG_TO_RAD in *. lra.
  - lra.
  - nra.
Qed.

(** ** The altitude corrector *)

Lemma altitude_in_degrees (a : R) : a = a / DEG_TO_RAD * DEG_TO_RAD.
Proof. pose proof DEG_TO_RAD_pos. field. lra. Qed.

(** Between -12 and -6 degrees the offset is the second smoothstep. *)
Lemma offset_nautical (d : R) :
  -12 < d <= -6 ->
  getMultipleScatteringOffset (d * DEG_TO_RAD) =
  (8 + ((-6 - d) / 6) * ((-6 - d) / 6) * (3 - 2 * ((-6 - d) / 6)) * 3) * DEG_TO_RAD.
Proof.
  intros Hd. unfold getMultipleScatteringOffset.
  rewrite altDeg_of_degrees.
  destruct (Rlt_dec 20 d); [lra|].
  destruct (Rlt_dec (-6) d); [lra|].
  destruct (Rlt_dec (-12) d); [|lra].
  lra.
Qed.

(** From civil twilight downwards the corrected altitude stays at or below
    2 degrees. *)
Lemma corrected_below_civil_twilight (d : R) :
  d <= -6 ->
  d * DEG_TO_RAD + getMultipleScatteringOffset (d * DEG_TO_RAD) <= 2 * DEG_TO_RAD.
Proof.
  intros Hd. pose proof DEG_TO_RAD_pos as Hpos.
  destruct (Rlt_dec (-12) d) as [Hn | Hn].
  - rewrite offset_nautical by lra.
    set (t := (-6 - d) / 6).
    assert (Ht : 0 <= t) by (unfold t; lra).
    assert (Hdt : d = -6 - 6 * t) by (unfold t; lra).
    rewrite Hdt.
    assert (Hpoly : -6 * t + 9 * (t * t) - 6 * (t * t * t) <= 0).
    { assert (0 <= t * (6 * (t - 3 / 4) * (t - 3 / 4) + 21 / 8)) by
        (apply Rmult_le_pos; [lra | nra]).
      lra. }
    nra.
  - rewrite offset_deep_twilight by lra. nra.
Qed.

Ltac table_lookup :=
  unfold LIGHT_POLLUTION_OFFSETS, lookup;
  repeat (match goal with
          | |- context [Req_dec_T ?a ?b] => destruct (Req_dec_T a b); try lra
          end).

Lemma lookup_bortle_9 : lookup LIGHT_POLLUTION_OFFSETS 9 = Some 6.0.
Proof. table_lookup. reflexivity. Qed.

Lemma lookup_missing (table : list (R * R)) (key : R) :
  ~ In key (map fst table) -> lookup table key = None.
Proof.
  induction table as [| [k v] rest IH]; simpl; intros Hnot.
  - reflexivity.
  - destruct (Req_dec_T key k) as [-> | _].
    + exfalso. apply Hnot. now left.
    + apply IH. intros Hin. apply Hnot. now right.
Qed.

Section CorrectorProperties.

Variable SunTimesProvider : Type.
Variable getSunPosition : Date -> R -> R -> SunPosition.
Variable fetchSunTimes : R -> R -> Date -> SunTimesProvider -> option SunTimes.

Let rawAltitude (options : ComputeSkyOptions SunTimesProvider) : R :=
  altitude (getSunPosition (date options) (latitude options) (longitude options)).

(** C5: with [bortle = 9] and no sunrise/sunset correction, a raw altitude
    at or below -6 degrees reaches [renderGradient] as exactly (6.0 - 3.0)
    degrees in radians, however low the raw altitude was. *)
Theorem C5_bortle_9_floor_at_deep_night
        (options : ComputeSkyOptions SunTimesProvider) :
  bortle options = Some 9 ->
  sunTimes options = None \/ sunTimes options = Some SunTimesOff ->
  rawAltitude options <= -6 * PI / 180 ->
  exists c,
    correctedSky getSunPosition fetchSunTimes options = Some c /\
    renderAltitude c = (6.0 - 3.0) * (PI / 180) /\
    computeSky getSunPosition fetchSunTimes options =
    match renderGradient ((6.0 - 3.0) * (PI / 180)) with
    | None => None
    | Some g =>
        Some (mkSkyResult (gradient g) (vecToRgb (topColor g))
                          (vecToRgb (bottomColor g))
                          (rawAltitude options)
                          (azimuth (getSunPosition (date options)
                                      (latitude options) (longitude options)))
                          None None None)
    end.
Proof.
  intros Hb Hs Hraw.
  assert (Hc : correctedSky getSunPosition fetchSunTimes options =
               Some (mkCorrected ((6.0 - 3.0) * (PI / 180)) None None None)).
  { unfold correctedSky.
    assert (Hoff : match sunTimes options with
                   | Some o => o
                   | None => SunTimesOff
                   end = SunTimesOff)
      by (destruct Hs as [-> | ->]; reflexivity).
    rewrite Hoff, Hb. unfold applyCorrections.
    fold (rawAltitude options).
    unfold getLightPollutionAltitude. rewrite lookup_bortle_9. simpl nullish.
    pose proof DEG_TO_RAD_pos as Hpos.
    assert (Hd : rawAltitude options / DEG_TO_RAD <= -6).
    { apply Rmult_le_reg_r with DEG_TO_RAD; [assumption|].
      rewrite <- altitude_in_degrees. unfold DEG_TO_RAD in *. lra. }
    pose proof (corrected_below_civil_twilight _ Hd) as Hle.
    rewrite <- altitude_in_degrees in Hle.
    rewrite Rmax_right by lra.
    do 2 f_equal. }
  eexists. split; [exact Hc|]. split; [reflexivity|].
  unfold computeSky. rewrite Hc. cbn [renderAltitude correctedAltitude c_sunrise c_sunset].
  reflexivity.
Qed.

(** C10: a [bortle] value that is no key of the table is given the entry 0,
    so [getLightPollutionAltitude] returns (0 - 3.0) degrees in radians, and
    [computeSky] floors the altitude it renders at -3 degrees. *)
Theorem C10_unknown_bortle_floors_at_minus_3
        (options : ComputeSkyOptions SunTimesProvider)
        (b : R) (c : Corrected) :
  ~ In b (map fst LIGHT_POLLUTION_OFFSETS) ->
  bortle options = Some b ->
  correctedSky getSunPosition fetchSunTimes options = Some c ->
  let before :=
    match correctedAltitude c with
    | Some a => a
    | None => rawAltitude options
    end in
  getLightPollutionAltitude b = (0 - 3.0) * (PI / 180) /\
  renderAltitude c =
    Rmax (before + getMultipleScatteringOffset before) ((0 - 3.0) * (PI / 180)) /\
  -3 * (PI / 180) <= renderAltitude c.
Proof.
  intros Hkey Hb Hc before.
  assert (Hlp : getLightPollutionAltitude b = (0 - 3.0) * (PI / 180)).
  { unfold getLightPollutionAltitude. rewrite (lookup_missing _ _ Hkey).
    reflexivity. }
  assert (Hr : renderAltitude c =
               Rmax (before + getMultipleScatteringOffset before)
                    ((0 - 3.0) * (PI / 180))).
  { unfold correctedSky in Hc. subst before.
    destruct (match sunTimes options with
              | Some o => o
              | None => SunTimesOff
              end) as [| provider].
    - injection Hc as <-. cbn [renderAltitude correctedAltitude].
      unfold applyCorrections. rewrite Hb, Hlp. reflexivity.
    - destruct (fetchSunTimes _ _ _ _) as [times |]; [|discriminate].
      injection Hc as <-. cbn [renderAltitude correctedAltitude].
      unfold applyCorrections. rewrite Hb, Hlp. reflexivity. }
  split; [exact Hlp|]. split; [exact Hr|].
  rewrite Hr.
  eapply Rle_trans; [|apply Rmax_r]. lra.
Qed.

End CorrectorProperties.

Lemma C5_bortle_9_floor_witness :
  exists c,
    correctedSky (fun _ _ _ => mkSunPosition (-1) 0)
                 (fun _ _ _ (_ : unit) => None)
                 (mkComputeSkyOptions (mkDate 0) 0 0 None (Some 9)) = Some c /\
    renderAltitude c = (6.0 - 3.0) * (PI / 180).
Proof.
  destruct (C5_bortle_9_floor_at_deep_night
              unit (fun _ _ _ => mkSunPosition (-1) 0) (fun _ _ _ _ => None)
              (mkComputeSkyOptions (mkDate 0) 0 0 None (Some 9)))
    as [c [Hc [Hr _]]].
  - reflexivity.
  - left. reflexivity.
  - simpl. pose proof PI_4. lra.
  - exists c. split; assumption.
Defined.

Lemma C10_unknown_bortle_witness :
  getLightPollutionAltitude 10 = (0 - 3.0) * (PI / 180).
Proof.
  refine (proj1 (C10_unknown_bortle_floors_at_minus_3
                   unit (fun _ _ _ => mkSunPosition (-1) 0) (fun _ _ _ _ => None)
                   (mkComputeSkyOptions (mkDate 0) 0 0 None (Some 10)) 10
                   (mkCorrected
                      (Rmax (-1 + getMultipleScatteringOffset (-1))
                            (getLightPollutionAltitude 10))
                      None None None) _ _ _)).
  - simpl. intros H. repeat (destruct H as [H | H]; [lra|]). exact H.
  - reflexivity.
  - reflexivity.
Defined.

(** ** Exposure *)

Lemma high_sun_height (a : R) : PI / 6 < a < PI / 2 -> 0.4 < sin a.
Proof.
  intros [Hlo Hhi]. pose proof PI_RGT_0 as Hpi.
  assert (Hs : sin (PI / 6) < sin a)
    by (apply sin_increasing_1; lra).
  rewrite sin_PI6 in Hs. lra.
Qed.

Lemma exposure_above_04 (sunHeight : R) :
  0.4 < sunHeight -> exposureFor sunHeight = EXPOSURE_DAY.
Proof.
  intros H. unfold exposureFor.
  destruct (Rle_dec sunHeight (-0.15)); [lra|].
  destruct (Rle_dec sunHeight 0.0); [lra|].
  destruct (Rle_dec sunHeight 0.4); [lra|].
  reflexivity.
Qed.

(** C6: when the sine of the altitude exceeds 0.4, in particular for every
    altitude strictly between pi/6 and pi/2, the exposure [renderGradient]
    computes from [sunHeight = Math.sin(altitude)] is the day exposure 18.0;
    two such altitudes therefore have the same exposure. *)
Theorem C6_day_exposure_plateau (a1 a2 : R) :
  0.4 < sin a1 \/ PI / 6 < a1 < PI / 2 ->
  0.4 < sin a2 \/ PI / 6 < a2 < PI / 2 ->
  exposureFor (sin a1) = 18.0 /\
  exposureFor (sin a2) = 18.0 /\
  exposureFor (sin a1) = exposureFor (sin a2).
Proof.
  intros H1 H2.
  assert (S1 : 0.4 < sin a1) by (destruct H1; [assumption | now apply high_sun_height]).
  assert (S2 : 0.4 < sin a2) by (destruct H2; [assumption | now apply high_sun_height]).
  rewrite !exposure_above_04 by assumption.
  unfold EXPOSURE_DAY. repeat split; reflexivity.
Qed.

Lemma C6_day_exposure_witness :
  exposureFor (sin (PI / 2)) = 18.0 /\ exposureFor (sin (PI / 3)) = 18.0.
Proof.
  destruct (C6_day_exposure_plateau (PI / 2) (PI / 3)) as [E1 [E2 _]].
  - left. rewrite sin_PI2. lra.
  - right. pose proof PI_RGT_0. lra.
  - split; assumption.
Defined.

(** ** Ray-sphere intersection *)

(** C7: [intersectSphere] forms [b = p.d], [c = p.p - r^2] and the
    discriminant [b^2 - c]; a negative discriminant gives [null], otherwise
    the near root [-b - sqrt disc] is returned unless it is negative, in
    which case the far root [-b + sqrt disc] is.  The function is total: no
    input makes it fail. *)
Theorem C7_intersectSphere_roots (p d : Vec3) (r : R) :
  let b := dot p d in
  let c := dot p p - r ^ 2 in
  let disc := b ^ 2 - c in
  (disc < 0 -> intersectSphere p d r = None) /\
  (0 <= disc -> - b - sqrt disc < 0 ->
   intersectSphere p d r = Some (- b + sqrt disc)) /\
  (0 <= disc -> 0 <= - b - sqrt disc ->
   intersectSphere p d r = Some (- b - sqrt disc)).
Proof.
  intros b c disc. unfold intersectSphere.
  fold b. fold c. fold disc.
  repeat split.
  - intros H. destruct (Rlt_dec disc 0); [reflexivity | contradiction].
  - intros Hd Hn. destruct (Rlt_dec disc 0); [lra|].
    destruct (Rlt_dec (- b - sqrt disc) 0); [reflexivity | contradiction].
  - intros Hd Hn. destruct (Rlt_dec disc 0); [lra|].
    destruct (Rlt_dec (- b - sqrt disc) 0); [lra | reflexivity].
Qed.

Lemma sqrt_4 : sqrt 4 = 2.
Proof. replace 4 with (2 * 2) by lra. apply sqrt_square. lra. Qed.

Ltac sqrt_of_4 :=
  match goal with
  | |- context [sqrt ?x] => replace x with 4 by lra; rewrite sqrt_4
  end.

Lemma C7_intersectSphere_witness :
  intersectSphere (0, 3, 0) (1, 0, 0) 1 = None /\
  intersectSphere (0, 0, 0) (0, 1, 0) 2 = Some 2 /\
  intersectSphere (0, -3, 0) (0, 1, 0) 2 = Some 1.
Proof.
  split; [|split].
  - apply (proj1 (C7_intersectSphere_roots (0, 3, 0) (1, 0, 0) 1)).
    simpl. lra.
  - replace (Some 2) with (Some (- dot (0, 0, 0) (0, 1, 0)
                                 + sqrt (dot (0, 0, 0) (0, 1, 0) ^ 2
                                         - (dot (0, 0, 0) (0, 0, 0) - 2 ^ 2)))).
    + apply (proj1 (proj2 (C7_intersectSphere_roots (0, 0, 0) (0, 1, 0) 2))).
      * simpl. lra.
      * simpl. sqrt_of_4. lra.
    + simpl. sqrt_of_4. f_equal. lra.
  - replace (Some 1) with (Some (- dot (0, -3, 0) (0, 1, 0)
                                 - sqrt (dot (0, -3, 0) (0, 1, 0) ^ 2
                                         - (dot (0, -3, 0) (0, -3, 0) - 2 ^ 2)))).
    + apply (proj2 (proj2 (C7_intersectSphere_roots (0, -3, 0) (0, 1, 0) 2))).
      * simpl. lra.
      * simpl. sqrt_of_4. lra.
    + simpl. sqrt_of_4. f_equal. lra.
Defined.

(** ** Transmittance *)

(** A ray that starts strictly inside a sphere leaves it at a positive
    distance, the far root. *)
Lemma intersectSphere_from_inside (p d : Vec3) (r : R) :
  dot p p < r ^ 2 ->
  let b := dot p d in
  let disc := b ^ 2 - (dot p p - r ^ 2) in
  intersectSphere p d r = Some (- b + sqrt disc) /\ 0 < - b + sqrt disc.
Proof.
  intros Hin b disc.
  assert (Hdisc : b ^ 2 < disc) by (unfold disc; lra).
  assert (Hb2 : 0 <= b ^ 2) by apply pow2_ge_0.
  assert (Habs : Rabs b < sqrt disc).
  { rewrite <- sqrt_pow2 with (x := Rabs b) by apply Rabs_pos.
    rewrite pow2_abs. apply sqrt_lt_1; lra. }
  destruct (Rabs_def2 _ _ Habs) as [Hhi Hlo].
  unfold intersectSphere. fold b. fold disc.
  destruct (Rlt_dec disc 0); [lra|].
  destruct (Rlt_dec (- b - sqrt disc) 0); [|lra].
  split; [reflexivity | lra].
Qed.

(** ** [Array.prototype.sort] with a comparator [a.key - b.key] *)

Section SortByKey.

Variable A : Type.
Variable key : A -> R.

Let compareFn (a b : A) : R := key a - key b.
Let ascending : list A -> Prop := StronglySorted (fun a b => key a <= key b).
Let strictly_ascending : list A -> Prop :=
  StronglySorted (fun a b => key a < key b).

Lemma insertBy_perm (x : A) (l : list A) :
  Permutation (insertBy compareFn x l) (x :: l).
Proof.
  induction l as [| y rest IH]; simpl.
  - apply Permutation_refl.
  - destruct (Rlt_dec (compareFn x y) 0).
    + apply Permutation_refl.
    + eapply perm_trans; [apply perm_skip, IH | apply perm_swap].
Qed.

Lemma insertBy_ascending (x : A) (l : list A) :
  ascending l -> ascending (insertBy compareFn x l).
Proof.
  unfold ascending, compareFn.
  induction l as [| y rest IH]; simpl; intros Hs.
  - repeat constructor.
  - inversion Hs as [| ? ? Hrest Hall]; subst.
    destruct (Rlt_dec (key x - key y) 0) as [Hlt | Hge].
    + constructor; [exact Hs|].
      constructor; [lra|].
      eapply Forall_impl; [|exact Hall].
      simpl. intros z Hz. lra.
    + constructor; [now apply IH|].
      apply Forall_forall. intros z Hz.
      apply (Permutation_in _ (insertBy_perm x rest)) in Hz.
      destruct Hz as [<- | Hz]; [lra|].
      rewrite Forall_forall in Hall. now apply Hall.
Qed.

Lemma sortBy_from (l acc : list A) :
  ascending acc ->
  let sorted := fold_left (fun sorted x => insertBy compareFn x sorted) l acc in
  ascending sorted /\ Permutation sorted (l ++ acc).
Proof.
  revert acc. induction l as [| x rest IH]; simpl; intros acc Hacc.
  - split; [exact Hacc | apply Permutation_refl].
  - destruct (IH (insertBy compareFn x acc) (insertBy_ascending x acc Hacc))
      as [Hs Hp].
    split; [exact Hs|].
    eapply perm_trans; [exact Hp|].
    eapply perm_trans; [apply Permutation_app_head, insertBy_perm|].
    apply Permutation_sym, Permutation_middle.
Qed.

Lemma sortBy_ascending (l : list A) : ascending (sortBy compareFn l).
Proof. apply (sortBy_from l []). constructor. Qed.

Lemma sortBy_perm (l : list A) : Permutation (sortBy compareFn l) l.
Proof.
  rewrite <- (app_nil_r l) at 2.
  apply (sortBy_from l []). constructor.
Qed.

(** A sorted list whose keys are pairwise different is strictly sorted. *)
Lemma ascending_strict (l : list A) :
  ascending l -> NoDup (map key l) -> strictly_ascending l.
Proof.
  unfold ascending, strictly_ascending.
  induction l as [| x rest IH]; simpl; intros Hs Hnd.
  - constructor.
  - inversion Hs as [| ? ? Hrest Hall]; subst.
    inversion Hnd as [| ? ? Hnotin Hnd']; subst.
    constructor; [now apply IH|].
    rewrite Forall_forall in *. intros z Hz.
    destruct (Rle_lt_or_eq_dec _ _ (Hall z Hz)) as [Hlt | Heq];
      [exact Hlt|].
    exfalso. apply Hnotin. rewrite Heq. now apply in_map.
Qed.

Lemma sortBy_strict (l : list A) :
  NoDup (map key l) -> strictly_ascending (sortBy compareFn l).
Proof.
  intros Hnd. apply ascending_strict; [apply sortBy_ascending|].
  eapply Permutation_NoDup; [|exact Hnd].
  apply Permutation_map, Permutation_sym, sortBy_perm.
Qed.

(** The first element of a sorted list has the least key, the last one the
    greatest. *)
Lemma ascending_first_least (l : list A) (first x : A) :
  ascending l -> nth_error l 0 = Some first -> In x l -> key first <= key x.
Proof.
  unfold ascending. intros Hs Hf Hx.
  destruct l as [| y rest]; [discriminate|].
  injection Hf as ->.
  inversion Hs as [| ? ? _ Hall]; subst.
  destruct Hx as [<- | Hx]; [lra|].
  rewrite Forall_forall in Hall. now apply Hall.
Qed.

Lemma ascending_last_greatest (l : list A) (last x : A) :
  ascending l -> nth_error l (List.length l - 1) = Some last -> In x l ->
  key x <= key last.
Proof.
  unfold ascending. induction l as [| y rest IH]; intros Hs Hl Hx.
  - destruct Hx.
  - inversion Hs as [| ? ? Hrest Hall]; subst.
    destruct rest as [| z rest'].
    + simpl in Hl. injection Hl as <-.
      destruct Hx as [<- | []]. lra.
    + assert (Hl' : nth_error (z :: rest') (List.length (z :: rest') - 1)
                    = Some last).
      { simpl in Hl |- *. now rewrite Nat.sub_0_r in *. }
      destruct Hx as [<- | Hx].
      * rewrite Forall_forall in Hall.
        apply Hall. eapply nth_error_In, Hl'.
      * now apply IH.
Qed.

End SortByKey.

(** ** The stops of [renderGradient] *)

Lemma fold_push {A B : Type} (f : A -> B) (l : list A) (init : list B) :
  fold_left (fun stops i => stops ++ [f i]) l init = init ++ map f l.
Proof.
  revert init. induction l as [| x rest IH]; simpl; intros init.
  - now rewrite app_nil_r.
  - rewrite IH, <- app_assoc. reflexivity.
Qed.

Lemma sampleStops_map (altitude : R) :
  sampleStops altitude = map (sampleStop altitude) (seq 0 SAMPLES).
Proof. unfold sampleStops. now rewrite fold_push. Qed.

Lemma INR_SAMPLES_pred : INR (SAMPLES - 1) = 31.
Proof. unfold SAMPLES. rewrite INR_IZR_INZ. reflexivity. Qed.

Lemma percent_sampleStop (altitude : R) (i : nat) :
  percent (sampleStop altitude i) = (1 - INR i / 31) * 100.
Proof.
  unfold sampleStop. cbn [percent]. unfold sampleS.
  now rewrite INR_SAMPLES_pred.
Qed.

Lemma percent_sampleStop_inj (altitude : R) (i j : nat) :
  percent (sampleStop altitude i) = percent (sampleStop altitude j) -> i = j.
Proof.
  rewrite !percent_sampleStop. intros H. apply INR_eq. lra.
Qed.

Lemma sampleStops_length (altitude : R) :
  List.length (sampleStops altitude) = SAMPLES.
Proof. now rewrite sampleStops_map, length_map, length_seq. Qed.

Lemma In_sampleStops (altitude : R) (s : Stop) :
  In s (sampleStops altitude) <->
  exists i, (i < SAMPLES)%nat /\ s = sampleStop altitude i.
Proof.
  rewrite sampleStops_map, in_map_iff. split.
  - intros [i [<- Hi]]. apply in_seq in Hi. exists i. split; [lia | reflexivity].
  - intros [i [Hi ->]]. exists i. split; [reflexivity | apply in_seq; lia].
Qed.

Lemma NoDup_map_inj_nat {B : Type} (f : nat -> B) (l : list nat) :
  (forall i j, f i = f j -> i = j) -> NoDup l -> NoDup (map f l).
Proof.
  intros Hinj. induction 1 as [| x l Hx Hnd IH]; simpl; constructor.
  - intros Hin. apply in_map_iff in Hin. destruct Hin as [y [Hy Hin]].
    apply Hinj in Hy. now subst.
  - exact IH.
Qed.

Lemma sampleStops_percent_NoDup (altitude : R) :
  NoDup (map percent (sampleStops altitude)).
Proof.
  rewrite sampleStops_map, map_map.
  apply NoDup_map_inj_nat; [|apply seq_NoDup].
  intros i j. apply percent_sampleStop_inj.
Qed.

Lemma sortedStops_perm (altitude : R) :
  Permutation (sortedStops altitude) (sampleStops altitude).
Proof. apply sortBy_perm. Qed.

Lemma sortedStops_length (altitude : R) :
  List.length (sortedStops altitude) = SAMPLES.
Proof.
  rewrite <- (sampleStops_length altitude).
  apply Permutation_length, sortedStops_perm.
Qed.

Lemma In_sortedStops (altitude : R) (s : Stop) :
  In s (sortedStops altitude) <->
  exists i, (i < SAMPLES)%nat /\ s = sampleStop altitude i.
Proof.
  rewrite <- In_sampleStops. split; apply Permutation_in.
  - apply sortedStops_perm.
  - apply Permutation_sym, sortedStops_perm.
Qed.

Lemma nth_error_map_seq {B : Type} (f : nat -> B) (n i : nat) :
  (i < n)%nat -> nth_error (map f (seq 0 n)) i = Some (f i).
Proof.
  intros Hi. rewrite nth_error_map, nth_error_seq.
  destruct (Nat.ltb_spec i n); [reflexivity | lia].
Qed.

(** C2, at the altitude 0: the sample of index [SAMPLES - 1] is given the
    percent 0, not 100, and the sample of index 0 is given 100. *)
Lemma C2_topmost_sample_percent_counterexample :
  nth_error (sampleStops 0) (SAMPLES - 1) = Some (sampleStop 0 (SAMPLES - 1)) /\
  percent (sampleStop 0 (SAMPLES - 1)) <> 100 /\
  nth_error (sampleStops 0) 0 = Some (sampleStop 0 0) /\
  percent (sampleStop 0 0) = 100.
Proof.
  rewrite sampleStops_map, !percent_sampleStop, !nth_error_map_seq
    by (unfold SAMPLES; lia).
  rewrite INR_SAMPLES_pred. change (INR 0) with 0.
  repeat split; lra.
Qed.

(** C2, amended: for every altitude the most upward view sample, of index
    [SAMPLES - 1], is given the percent 0, and the horizontal one, of index
    0, the percent 100. *)
Theorem C2_sample_percent_by_index (altitude : R) :
  nth_error (sampleStops altitude) (SAMPLES - 1)
  = Some (sampleStop altitude (SAMPLES - 1)) /\
  percent (sampleStop altitude (SAMPLES - 1)) = 0 /\
  nth_error (sampleStops altitude) 0 = Some (sampleStop altitude 0) /\
  percent (sampleStop altitude 0) = 100.
Proof.
  rewrite sampleStops_map, !percent_sampleStop, !nth_error_map_seq
    by (unfold SAMPLES; lia).
  rewrite INR_SAMPLES_pred. change (INR 0) with 0.
  repeat split; lra.
Qed.

(** C4: the stop list holds exactly [SAMPLES] = 32 stops, before and after
    the sort, and after the sort the percents are strictly ascending. *)
Theorem C4_stops_count_and_order (altitude : R) :
  SAMPLES = 32%nat /\
  List.length (sampleStops altitude) = SAMPLES /\
  List.length (sortedStops altitude) = SAMPLES /\
  StronglySorted (fun a b => percent a < percent b) (sortedStops altitude).
Proof.
  split; [reflexivity|].
  split; [apply sampleStops_length|].
  split; [apply sortedStops_length|].
  apply sortBy_strict, sampleStops_percent_NoDup.
Qed.

Lemma renderGradient_returns (altitude : R) :
  exists first last,
    nth_error (sortedStops altitude) 0 = Some first /\
    nth_error (sortedStops altitude) (List.length (sortedStops altitude) - 1)
    = Some last /\
    renderGradient altitude =
    Some {| gradient :=
              "linear-gradient(to bottom, "
              ++ join ", " (map formatStop (sortedStops altitude)) ++ ")";
            topColor := rgb first;
            bottomColor := rgb last |}.
Proof.
  pose proof (sortedStops_length altitude) as Hlen.
  unfold renderGradient.
  destruct (nth_error (sortedStops altitude) 0) as [first |] eqn:Hf.
  - destruct (nth_error (sortedStops altitude)
                        (List.length (sortedStops altitude) - 1))
      as [last |] eqn:Hl.
    + exists first, last. repeat split.
    + apply nth_error_None in Hl. unfold SAMPLES in Hlen. lia.
  - apply nth_error_None in Hf. unfold SAMPLES in Hlen. lia.
Qed.

(** The first stop after the sort has the lowest percent and comes from the
    most upward view sample; the last one has the highest percent and comes
    from the horizontal sample.  [topColor] and [bottomColor] are their
    colours. *)
Lemma renderGradient_extremes (altitude : R) :
  exists result lowest highest,
    renderGradient altitude = Some result /\
    In lowest (sortedStops altitude) /\
    In highest (sortedStops altitude) /\
    (forall s, In s (sortedStops altitude) ->
               percent lowest <= percent s <= percent highest) /\
    lowest = sampleStop altitude (SAMPLES - 1) /\
    highest = sampleStop altitude 0 /\
    topColor result = rgb lowest /\
    bottomColor result = rgb highest.
Proof.
  destruct (renderGradient_returns altitude) as [first [last [Hf [Hl Hr]]]].
  pose proof (sortBy_ascending _ percent (sampleStops altitude)) as Hasc.
  fold (sortedStops altitude) in Hasc.
  assert (Hleast := fun s => ascending_first_least _ percent _ first s Hasc Hf).
  assert (Hgreatest :=
            fun s => ascending_last_greatest _ percent _ last s Hasc Hl).
  assert (Hfirst : first = sampleStop altitude (SAMPLES - 1)).
  { assert (Hin : In first (sortedStops altitude)) by (eapply nth_error_In, Hf).
    destruct (proj1 (In_sortedStops altitude first) Hin) as [i [Hi Heq]].
    rewrite Heq.
    assert (Hle := Hleast (sampleStop altitude (SAMPLES - 1))).
    rewrite Heq in Hle.
    rewrite !percent_sampleStop in Hle.
    f_equal. apply INR_eq.
    assert (Hi' : INR i <= INR (SAMPLES - 1)) by (apply le_INR; lia).
    rewrite INR_SAMPLES_pred in *.
    assert ((1 - INR i / 31) * 100 <= (1 - 31 / 31) * 100).
    { apply Hle, In_sortedStops. exists (SAMPLES - 1)%nat.
      split; [unfold SAMPLES; lia|]. reflexivity. }
    lra. }
  assert (Hlast : last = sampleStop altitude 0).
  { assert (Hin : In last (sortedStops altitude)) by (eapply nth_error_In, Hl).
    destruct (proj1 (In_sortedStops altitude last) Hin) as [i [Hi Heq]].
    rewrite Heq.
    assert (Hge := Hgreatest (sampleStop altitude 0)).
    rewrite Heq in Hge.
    rewrite !percent_sampleStop in Hge.
    f_equal. apply INR_eq.
    assert (Hi' : 0 <= INR i) by apply pos_INR.
    assert (H0 : (1 - INR 0 / 31) * 100 <= (1 - INR i / 31) * 100).
    { apply Hge, In_sortedStops. exists 0%nat.
      split; [unfold SAMPLES; lia|]. reflexivity. }
    change (INR 0) with 0 in H0 |- *. lra. }
  exists {| gradient :=
              "linear-gradient(to bottom, "
              ++ join ", " (map formatStop (sortedStops altitude)) ++ ")";
            topColor := rgb first;
            bottomColor := rgb last |}, first, last.
  split; [exact Hr|].
  split; [eapply nth_error_In, Hf|].
  split; [eapply nth_error_In, Hl|].
  split.
  { intros s Hs. split; [apply Hleast | apply Hgreatest]; exact Hs. }
  split; [exact Hfirst|]. split; [exact Hlast|].
  split; reflexivity.
Qed.

(** C3, amended: [topColor] is the colour of the stop with the lowest
    percent, which is the most upward view sample, and [bottomColor] the
    colour of the stop with the highest percent, the horizontal sample. *)
Theorem C3_extreme_colors (altitude : R) :
  exists result lowest highest,
    renderGradient altitude = Some result /\
    In lowest (sortedStops altitude) /\
    In highest (sortedStops altitude) /\
    (forall s, In s (sortedStops altitude) ->
               percent lowest <= percent s <= percent highest) /\
    lowest = sampleStop altitude (SAMPLES - 1) /\
    highest = sampleStop altitude 0 /\
    topColor result = rgb lowest /\
    bottomColor result = rgb highest.
Proof. exact (renderGradient_extremes altitude). Qed.

(** ** Totality of [renderGradient] *)

Lemma comp_pos (k : nat) (v : Vec3) :
  0 < comp 0 v -> 0 < comp 1 v -> 0 < comp 2 v -> 0 < comp k v.
Proof.
  destruct v as [[v0 v1] v2]. destruct k as [| [| k]]; simpl; auto.
Qed.

(** Every component of a transmittance is strictly positive: it is 1 or an
    exponential. *)
Lemma computeTransmittance_pos (height angle : R) (k : nat) :
  0 < comp k (computeTransmittance height angle).
Proof.
  unfold computeTransmittance.
  destruct (intersectSphere _ _ _) as [dist |].
  - destruct (falsy (Some dist)).
    + apply comp_pos; simpl; lra.
    + unfold integrateTransmittance, vecExp.
      apply comp_pos; cbn [comp]; apply exp_pos.
  - apply comp_pos; simpl; lra.
Qed.

(** * The colours of the extreme stops differ

    With the sun at the zenith the radiance of the horizontal view sample
    and of the most upward one are enclosed by interval arithmetic in fixed
    point, tightly enough to tell their quantised red channels apart. *)

(** ** Soundness of the interval operations *)

Lemma fx_one_pos : (0 < fx_one)%Z.
Proof. reflexivity. Qed.

Lemma IZR_fx_one_pos : 0 < IZR fx_one.
Proof. apply IZR_lt, fx_one_pos. Qed.

Lemma fdiv_le (a b : Z) : (0 < b)%Z -> IZR (fdiv a b) * IZR b <= IZR a.
Proof.
  intros Hb. rewrite <- mult_IZR. apply IZR_le. unfold fdiv.
  rewrite Z.mul_comm. apply Z.mul_div_le. exact Hb.
Qed.

Lemma cdiv_ge (a b : Z) : (0 < b)%Z -> IZR a <= IZR (cdiv a b) * IZR b.
Proof.
  intros Hb. rewrite <- mult_IZR. apply IZR_le. unfold cdiv.
  pose proof (Z.mul_div_le (- a) b Hb). lia.
Qed.

Lemma fdiv_le_div (a b : Z) : (0 < b)%Z -> IZR (fdiv a b) <= IZR a / IZR b.
Proof.
  intros Hb. pose proof (fdiv_le a b Hb). assert (0 < IZR b) by now apply IZR_lt.
  apply Rmult_le_reg_r with (IZR b); [assumption|].
  unfold Rdiv. rewrite Rmult_assoc, Rinv_l by lra. lra.
Qed.

Lemma cdiv_ge_div (a b : Z) : (0 < b)%Z -> IZR a / IZR b <= IZR (cdiv a b).
Proof.
  intros Hb. pose proof (cdiv_ge a b Hb). assert (0 < IZR b) by now apply IZR_lt.
  apply Rmult_le_reg_r with (IZR b); [assumption|].
  unfold Rdiv. rewrite Rmult_assoc, Rinv_l by lra. lra.
Qed.

Lemma contains_const (x : R) (p q : Z) :
  (0 < q)%Z -> x * IZR q = IZR p -> contains x (I_const p q).
Proof.
  intros Hq Hx. unfold I_const, contains.
  pose proof IZR_fx_one_pos as HS. assert (Hq' : 0 < IZR q) by now apply IZR_lt.
  pose proof (fdiv_le_div (p * fx_one) q Hq) as Hl.
  pose proof (cdiv_ge_div (p * fx_one) q Hq) as Hu.
  rewrite mult_IZR in Hl, Hu.
  assert (Hv : x * IZR fx_one = IZR p * IZR fx_one / IZR q).
  { rewrite <- Hx. field. lra. }
  rewrite Hv. split; assumption.
Qed.

Lemma contains_add (x y : R) (X Y : itv) :
  contains x X -> contains y Y -> contains (x + y) (I_add X Y).
Proof.
  destruct X as [a b|], Y as [c d|]; simpl; auto.
  rewrite !plus_IZR. intros. lra.
Qed.

Lemma contains_neg (x : R) (X : itv) : contains x X -> contains (- x) (I_neg X).
Proof.
  destruct X as [a b|]; simpl; auto. rewrite !opp_IZR. intros. lra.
Qed.

Lemma contains_sub (x y : R) (X Y : itv) :
  contains x X -> contains y Y -> contains (x - y) (I_sub X Y).
Proof.
  intros Hx Hy. unfold I_sub, Rminus. apply contains_add; [assumption|].
  now apply contains_neg.
Qed.

Lemma corner_lower (a b c d x y : R) :
  a <= x <= b -> c <= y <= d ->
  a * c <= x * y \/ a * d <= x * y \/ b * c <= x * y \/ b * d <= x * y.
Proof.
  intros Hx Hy.
  destruct (Rle_lt_dec 0 y) as [Hy0 | Hy0].
  - destruct (Rle_lt_dec 0 a) as [Ha | Ha].
    + left. nra.
    + right. left. nra.
  - destruct (Rle_lt_dec 0 b) as [Hb | Hb].
    + right. right. left. nra.
    + right. right. right. nra.
Qed.

Lemma corner_upper (a b c d x y : R) :
  a <= x <= b -> c <= y <= d ->
  x * y <= a * c \/ x * y <= a * d \/ x * y <= b * c \/ x * y <= b * d.
Proof.
  intros Hx Hy.
  destruct (corner_lower (- b) (- a) c d (- x) y) as [H | [H | [H | H]]];
    lra.
Qed.

Lemma min4_le (p q r s : Z) :
  (min4 p q r s <= p /\ min4 p q r s <= q /\ min4 p q r s <= r /\ min4 p q r s <= s)%Z.
Proof. unfold min4. lia. Qed.

Lemma max4_ge (p q r s : Z) :
  (p <= max4 p q r s /\ q <= max4 p q r s /\ r <= max4 p q r s /\ s <= max4 p q r s)%Z.
Proof. unfold max4. lia. Qed.

Lemma floor_scale_le (a : Z) : IZR (floor_scale a) * IZR fx_one <= IZR a.
Proof.
  unfold floor_scale. rewrite Z.shiftr_div_pow2 by (unfold prec; lia).
  apply (fdiv_le a fx_one fx_one_pos).
Qed.

Lemma ceil_scale_ge (a : Z) : IZR a <= IZR (ceil_scale a) * IZR fx_one.
Proof.
  unfold ceil_scale. rewrite Z.shiftr_div_pow2 by (unfold prec; lia).
  apply (cdiv_ge a fx_one fx_one_pos).
Qed.

Lemma contains_mul (x y : R) (X Y : itv) :
  contains x X -> contains y Y -> contains (x * y) (I_mul X Y).
Proof.
  destruct X as [a b|], Y as [c d|]; simpl; auto.
  intros Hx Hy. pose proof IZR_fx_one_pos as HS.
  destruct (andb (0 <=? a)%Z (0 <=? c)%Z) eqn:Hsign.
  - apply andb_prop in Hsign. destruct Hsign as [Ha Hc].
    apply Z.leb_le, IZR_le in Ha. apply Z.leb_le, IZR_le in Hc.
    pose proof (floor_scale_le (a * c)) as Hl.
    pose proof (ceil_scale_ge (b * d)) as Hu.
    rewrite mult_IZR in Hl, Hu. simpl.
    split.
    + apply Rmult_le_reg_r with (IZR fx_one); [assumption|]. nra.
    + apply Rmult_le_reg_r with (IZR fx_one); [assumption|]. nra.
  - set (m := min4 (a * c) (a * d) (b * c) (b * d)).
    set (M := max4 (a * c) (a * d) (b * c) (b * d)).
    assert (Hm : IZR m <= (x * IZR fx_one) * (y * IZR fx_one)).
    { destruct (min4_le (a * c) (a * d) (b * c) (b * d)) as [H1 [H2 [H3 H4]]].
      fold m in H1, H2, H3, H4.
      apply IZR_le in H1, H2, H3, H4. rewrite mult_IZR in H1, H2, H3, H4.
      destruct (corner_lower _ _ _ _ _ _ Hx Hy) as [H | [H | [H | H]]]; lra. }
    assert (HM : (x * IZR fx_one) * (y * IZR fx_one) <= IZR M).
    { destruct (max4_ge (a * c) (a * d) (b * c) (b * d)) as [H1 [H2 [H3 H4]]].
      fold M in H1, H2, H3, H4.
      apply IZR_le in H1, H2, H3, H4. rewrite mult_IZR in H1, H2, H3, H4.
      destruct (corner_upper _ _ _ _ _ _ Hx Hy) as [H | [H | [H | H]]]; lra. }
    pose proof (floor_scale_le m) as Hl.
    pose proof (ceil_scale_ge M) as Hu.
    simpl. split.
    + apply Rmult_le_reg_r with (IZR fx_one); [assumption|]. nra.
    + apply Rmult_le_reg_r with (IZR fx_one); [assumption|]. nra.
Qed.

Lemma contains_inv (x : R) (X : itv) : contains x X -> contains (/ x) (I_inv X).
Proof.
  destruct X as [a b|]; simpl; auto.
  destruct (Z.ltb_spec 0 a) as [Ha | Ha]; simpl; auto.
  intros [Hlo Hhi]. pose proof IZR_fx_one_pos as HS.
  assert (Ha' : 0 < IZR a) by now apply IZR_lt.
  assert (Hb : (0 < b)%Z) by (apply lt_IZR; lra).
  assert (Hb' : 0 < IZR b) by now apply IZR_lt.
  assert (Hx : 0 < x) by nra.
  pose proof (fdiv_le_div (fx_one * fx_one) b Hb) as Hl.
  pose proof (cdiv_ge_div (fx_one * fx_one) a Ha) as Hu.
  rewrite mult_IZR in Hl, Hu.
  assert (Hinv : / x * IZR fx_one = IZR fx_one * IZR fx_one / (x * IZR fx_one))
    by (field; lra).
  rewrite Hinv. split.
  - eapply Rle_trans; [exact Hl|].
    unfold Rdiv. apply Rmult_le_compat_l; [nra|].
    apply Rinv_le_contravar; lra.
  - eapply Rle_trans; [|exact Hu].
    unfold Rdiv. apply Rmult_le_compat_l; [nra|].
    apply Rinv_le_contravar; lra.
Qed.

Lemma contains_div (x y : R) (X Y : itv) :
  contains x X -> contains y Y -> contains (x / y) (I_div X Y).
Proof.
  intros Hx Hy. unfold Rdiv, I_div. apply contains_mul; [assumption|].
  now apply contains_inv.
Qed.

Lemma Zsqrt_bounds (n : Z) :
  (0 <= n)%Z -> IZR (Z.sqrt n) <= sqrt (IZR n) <= IZR (Z.sqrt n + 1).
Proof.
  intros Hn. destruct (Z.sqrt_spec n Hn) as [Hlo Hhi].
  pose proof (Z.sqrt_nonneg n) as Hs.
  apply IZR_le in Hlo. apply IZR_lt in Hhi. rewrite mult_IZR in Hlo, Hhi.
  assert (Hs' : 0 <= IZR (Z.sqrt n)) by now apply IZR_le.
  rewrite succ_IZR in Hhi. rewrite plus_IZR.
  split.
  - rewrite <- (sqrt_square (IZR (Z.sqrt n))) by assumption.
    now apply sqrt_le_1_alt.
  - rewrite <- (sqrt_square (IZR (Z.sqrt n) + 1)) by lra.
    apply sqrt_le_1_alt. lra.
Qed.

Lemma contains_sqrt (x : R) (X : itv) : contains x X -> contains (sqrt x) (I_sqrt X).
Proof.
  destruct X as [a b|]; simpl; auto.
  intros [Hlo Hhi]. pose proof IZR_fx_one_pos as HS.
  assert (Hsq : sqrt x * IZR fx_one = sqrt (x * IZR fx_one * IZR fx_one)).
  { destruct (Rle_lt_dec 0 x) as [Hx | Hx].
    - rewrite Rmult_assoc, sqrt_mult, sqrt_square by nra. reflexivity.
    - rewrite (sqrt_neg_0 x) by lra. rewrite sqrt_neg_0 by nra. lra. }
  rewrite Hsq.
  assert (Ha : (0 <= Z.max a 0 * fx_one)%Z) by (pose proof fx_one_pos; nia).
  assert (Hb : (0 <= Z.max b 0 * fx_one)%Z) by (pose proof fx_one_pos; nia).
  destruct (Zsqrt_bounds _ Ha) as [Hl _].
  destruct (Zsqrt_bounds _ Hb) as [_ Hu].
  rewrite mult_IZR in Hl, Hu.
  split.
  - eapply Rle_trans; [exact Hl|]. 
    destruct (Z.max_spec a 0) as [[_ ->] | [_ ->]].
    + rewrite Rmult_0_l, sqrt_0. apply sqrt_pos.
    + apply sqrt_le_1_alt. nra.
  - eapply Rle_trans; [|exact Hu].
    destruct (Rle_lt_dec 0 x) as [Hx | Hx].
    + apply sqrt_le_1_alt.
      assert (IZR b <= IZR (Z.max b 0)) by (apply IZR_le; lia). nra.
    + rewrite sqrt_neg_0 by nra. apply sqrt_pos.
Qed.

Lemma contains_abs (x : R) (X : itv) : contains x X -> contains (Rabs x) (I_abs X).
Proof.
  destruct X as [a b|]; simpl; auto.
  intros [Hlo Hhi]. pose proof IZR_fx_one_pos as HS.
  assert (Habs : Rabs x * IZR fx_one = Rabs (x * IZR fx_one))
    by (rewrite Rabs_mult, (Rabs_pos_eq (IZR fx_one)); lra).
  destruct (Z.leb_spec 0 a) as [Ha | Ha].
  - simpl. apply IZR_le in Ha. rewrite Habs, Rabs_pos_eq; lra.
  - destruct (Z.leb_spec b 0) as [Hb | Hb]; simpl; rewrite Habs.
    + apply IZR_le in Hb. rewrite Rabs_left1 by lra. rewrite !opp_IZR. lra.
    + split; [apply Rabs_pos|].
      assert (IZR (- a) <= IZR (Z.max (- a) b)) by (apply IZR_le; lia).
      assert (IZR b <= IZR (Z.max (- a) b)) by (apply IZR_le; lia).
      rewrite opp_IZR in *.
      unfold Rabs. destruct (Rcase_abs _); lra.
Qed.

Lemma contains_min (x y : R) (X Y : itv) :
  contains x X -> contains y Y -> contains (Rmin x y) (I_min X Y).
Proof.
  destruct X as [a b|], Y as [c d|]; simpl; auto.
  intros Hx Hy.
  assert (IZR (Z.min a c) <= IZR a) by (apply IZR_le; lia).
  assert (IZR (Z.min a c) <= IZR c) by (apply IZR_le; lia).
  unfold Rmin. destruct (Rle_dec x y) as [Hle | Hgt].
  - pose proof IZR_fx_one_pos.
    destruct (Z.min_spec b d) as [[_ ->] | [_ ->]]; nra.
  - pose proof IZR_fx_one_pos.
    destruct (Z.min_spec b d) as [[_ ->] | [_ ->]]; nra.
Qed.

Lemma contains_max (x y : R) (X Y : itv) :
  contains x X -> contains y Y -> contains (Rmax x y) (I_max X Y).
Proof.
  destruct X as [a b|], Y as [c d|]; simpl; auto.
  intros Hx Hy.
  assert (IZR b <= IZR (Z.max b d)) by (apply IZR_le; lia).
  assert (IZR d <= IZR (Z.max b d)) by (apply IZR_le; lia).
  unfold Rmax. destruct (Rle_dec x y) as [Hle | Hgt].
  - pose proof IZR_fx_one_pos.
    destruct (Z.max_spec a c) as [[_ ->] | [_ ->]]; nra.
  - pose proof IZR_fx_one_pos.
    destruct (Z.max_spec a c) as [[_ ->] | [_ ->]]; nra.
Qed.

Lemma square_chain_exp (k : nat) (a : Z) (z : R) :
  (0 <= a)%Z -> IZR a <= exp z * IZR fx_one ->
  (0 <= square_chain k a)%Z /\
  IZR (square_chain k a) <= exp (z * 2 ^ k) * IZR fx_one.
Proof.
  revert a z. induction k as [| k IH]; intros a z Ha Hle.
  - simpl. rewrite Rmult_1_r. split; assumption.
  - cbn [square_chain].
    pose proof IZR_fx_one_pos as HS. pose proof fx_one_pos as HS'.
    assert (Ha' : 0 <= IZR a) by now apply IZR_le.
    assert (Hpos : (0 <= floor_scale (a * a))%Z).
    { unfold floor_scale. apply Z.shiftr_nonneg. nia. }
    assert (Hsq : IZR (floor_scale (a * a)) <= exp (z * 2) * IZR fx_one).
    { pose proof (floor_scale_le (a * a)) as Hf. rewrite mult_IZR in Hf.
      replace (z * 2) with (z + z) by ring. rewrite exp_plus.
      pose proof (exp_pos z).
      apply Rmult_le_reg_r with (IZR fx_one); [assumption|]. nra. }
    destruct (IH _ _ Hpos Hsq) as [H1 H2].
    split; [exact H1|].
    replace (z * 2 ^ S k) with (z * 2 * 2 ^ k) by (simpl; ring).
    exact H2.
Qed.

Lemma square_chain_up_exp (k : nat) (a : Z) (z : R) :
  exp z * IZR fx_one <= IZR a ->
  exp (z * 2 ^ k) * IZR fx_one <= IZR (square_chain_up k a).
Proof.
  revert a z. induction k as [| k IH]; intros a z Hle.
  - simpl. now rewrite Rmult_1_r.
  - cbn [square_chain_up].
    pose proof IZR_fx_one_pos as HS. pose proof (exp_pos z) as Hez.
    assert (Hsq : exp (z * 2) * IZR fx_one <= IZR (ceil_scale (a * a))).
    { pose proof (ceil_scale_ge (a * a)) as Hf. rewrite mult_IZR in Hf.
      replace (z * 2) with (z + z) by ring. rewrite exp_plus.
      assert (exp z * IZR fx_one * (exp z * IZR fx_one) <= IZR a * IZR a)
        by (apply Rmult_le_compat; nra).
      apply Rmult_le_reg_r with (IZR fx_one); [assumption|]. nra. }
    replace (z * 2 ^ S k) with (z * 2 * 2 ^ k) by (simpl; ring).
    now apply IH.
Qed.

Lemma IZR_two_pow (k : nat) : IZR (2 ^ Z.of_nat k) = 2 ^ k.
Proof. now rewrite <- pow_IZR. Qed.

Lemma exp_lower_sound (n : Z) (y : R) :
  IZR n <= y * IZR fx_one ->
  (0 <= exp_lower n)%Z /\ IZR (exp_lower n) <= exp y * IZR fx_one.
Proof.
  intros Hn. unfold exp_lower.
  rewrite Z.shiftr_div_pow2 by lia.
  pose proof IZR_fx_one_pos as HS. pose proof (exp_pos y) as Hey.
  set (D := (2 ^ Z.of_nat squarings)%Z).
  assert (HD : (0 < D)%Z) by (apply Z.pow_pos_nonneg; lia).
  assert (HD' : 0 < IZR D) by now apply IZR_lt.
  destruct (Z.ltb_spec (fx_one + n / D) 0) as [Hneg | Hpos].
  - split; [lia | simpl; nra].
  - set (z := y / 2 ^ squarings).
    assert (HDr : IZR D = 2 ^ squarings) by apply IZR_two_pow.
    assert (Hz : y = z * 2 ^ squarings).
    { unfold z. rewrite <- HDr. field. lra. }
    assert (Ha : IZR (fx_one + n / D) <= exp z * IZR fx_one).
    { rewrite plus_IZR.
      pose proof (fdiv_le_div n D HD) as Hf. unfold fdiv in Hf.
      pose proof (exp_ineq1_le z) as He.
      assert (IZR n / IZR D <= z * IZR fx_one).
      { unfold z. rewrite <- HDr.
        apply Rmult_le_reg_r with (IZR D); [assumption|].
        replace (IZR n / IZR D * IZR D) with (IZR n) by (field; lra).
        replace (y / IZR D * IZR fx_one * IZR D) with (y * IZR fx_one)
          by (field; lra).
        exact Hn. }
      nra. }
    destruct (square_chain_exp squarings _ z Hpos Ha) as [H1 H2].
    rewrite <- Hz in H2. split; assumption.
Qed.

(** [exp w <= 1 + w + 2 w^2] as long as [w <= 1/2]. *)
Lemma exp_quadratic_upper (w : R) : w <= / 2 -> exp w <= 1 + w + 2 * (w * w).
Proof.
  intros Hw.
  pose proof (exp_ineq1_le (- w)) as He. rewrite exp_Ropp in He.
  pose proof (exp_pos w) as Hp.
  assert (Hinv : exp w <= / (1 - w)).
  { rewrite <- (Rinv_inv (exp w)). apply Rinv_le_contravar; lra. }
  eapply Rle_trans; [exact Hinv|].
  apply Rmult_le_reg_r with (1 - w); [lra|].
  rewrite Rinv_l by lra.
  assert (0 <= w * w * (1 - 2 * w)) by (apply Rmult_le_pos; nra).
  nra.
Qed.

Lemma exp_upper_sound (n : Z) (y : R) :
  y * IZR fx_one <= IZR n ->
  match exp_upper n with
  | Some u => exp y * IZR fx_one <= IZR u
  | None => True
  end.
Proof.
  intros Hn. unfold exp_upper.
  rewrite Z.shiftr_div_pow2 by lia.
  set (D := (2 ^ Z.of_nat squarings)%Z).
  set (zu := (- (- n / D))%Z).
  destruct (Z.leb_spec (2 * zu) fx_one) as [Hhalf | Hhalf]; [|exact I].
  pose proof IZR_fx_one_pos as HS.
  assert (HD : (0 < D)%Z) by (apply Z.pow_pos_nonneg; lia).
  assert (HD' : 0 < IZR D) by now apply IZR_lt.
  assert (HDr : IZR D = 2 ^ squarings) by apply IZR_two_pow.
  set (w := IZR zu / IZR fx_one).
  assert (Hw : w <= / 2).
  { unfold w. apply IZR_le in Hhalf. rewrite mult_IZR in Hhalf.
    apply Rmult_le_reg_r with (IZR fx_one); [assumption|].
    unfold Rdiv. rewrite Rmult_assoc, Rinv_l by lra. lra. }
  assert (Hyw : y <= w * 2 ^ squarings).
  { pose proof (cdiv_ge_div n D HD) as Hc. unfold cdiv in Hc. fold zu in Hc.
    unfold w. rewrite <- HDr.
    apply Rmult_le_reg_r with (IZR fx_one); [assumption|].
    replace (IZR zu / IZR fx_one * IZR D * IZR fx_one) with (IZR zu * IZR D)
      by (field; lra).
    assert (IZR n <= IZR zu * IZR D).
    { apply Rmult_le_reg_r with (/ IZR D); [now apply Rinv_0_lt_compat|].
      rewrite Rmult_assoc, Rinv_r by lra. unfold Rdiv in Hc. lra. }
    lra. }
  assert (Hstart : exp w * IZR fx_one
                   <= IZR (fx_one + zu + ceil_scale (2 * zu * zu))).
  { pose proof (exp_quadratic_upper w Hw) as Hq.
    pose proof (ceil_scale_ge (2 * zu * zu)) as Hc.
    rewrite !plus_IZR. rewrite !mult_IZR in Hc.
    assert (Hzw : IZR zu = w * IZR fx_one) by (unfold w; field; lra).
    rewrite Hzw in Hc |- *.
    assert (2 * (w * w) * IZR fx_one <= IZR (ceil_scale (2 * zu * zu))).
    { apply Rmult_le_reg_r with (IZR fx_one); [assumption|]. nra. }
    nra. }
  pose proof (square_chain_up_exp squarings _ w Hstart) as Hchain.
  eapply Rle_trans; [|exact Hchain].
  apply Rmult_le_compat_r; [lra|].
  destruct (Rle_lt_or_eq_dec _ _ Hyw) as [Hlt | ->]; [|lra].
  left. now apply exp_increasing.
Qed.

Lemma contains_exp (x : R) (X : itv) : contains x X -> contains (exp x) (I_exp X).
Proof.
  destruct X as [a b|]; simpl; auto.
  intros [Hlo Hhi].
  pose proof (exp_upper_sound b x Hhi) as Hu.
  destruct (exp_upper b) as [u |]; [|exact I].
  split.
  - apply exp_lower_sound. exact Hlo.
  - exact Hu.
Qed.

(** ** Bounds on pi and on the focal length *)

Lemma PI_bounds : 3.14159 < PI < 3.1416.
Proof.
  pose proof (PI_2_3_7_ineq 2) as [Hlo Hhi].
  assert (Eu : sum_f_R0 (tg_alt PI_2_3_7_tg) (2 * 2) < 3.1416 / 4).
  { unfold tg_alt, PI_2_3_7_tg, Ratan_seq. simpl. lra. }
  assert (El : 3.14159 / 4 < sum_f_R0 (tg_alt PI_2_3_7_tg) (S (2 * 2))).
  { unfold tg_alt, PI_2_3_7_tg, Ratan_seq. simpl. lra. }
  split; lra.
Qed.

Lemma fact_values :
  INR (fact 2) = 2 /\ INR (fact 3) = 6 /\ INR (fact 4) = 24 /\
  INR (fact 5) = 120 /\ INR (fact 6) = 720 /\ INR (fact 7) = 5040 /\
  INR (fact 8) = 40320 /\ INR (fact 9) = 362880.
Proof.
  rewrite !INR_IZR_INZ.
  repeat split; apply f_equal; vm_compute; reflexivity.
Qed.

Lemma sin_approx_3 (a : R) :
  sin_approx a 3 = a - a ^ 3 / 6 + a ^ 5 / 120 - a ^ 7 / 5040.
Proof.
  destruct fact_values as [F2 [F3 [F4 [F5 [F6 [F7 [F8 F9]]]]]]].
  unfold sin_approx, sin_term.
  cbn [sum_f_R0 Nat.mul Nat.add].
  rewrite F3, F5, F7. change (INR (fact 1)) with 1. simpl pow. field.
Qed.

Lemma sin_approx_4 (a : R) :
  sin_approx a 4 = a - a ^ 3 / 6 + a ^ 5 / 120 - a ^ 7 / 5040 + a ^ 9 / 362880.
Proof.
  destruct fact_values as [F2 [F3 [F4 [F5 [F6 [F7 [F8 F9]]]]]]].
  unfold sin_approx, sin_term.
  cbn [sum_f_R0 Nat.mul Nat.add].
  rewrite F3, F5, F7, F9. change (INR (fact 1)) with 1. simpl pow. field.
Qed.

Lemma cos_approx_3 (a : R) :
  cos_approx a 3 = 1 - a ^ 2 / 2 + a ^ 4 / 24 - a ^ 6 / 720.
Proof.
  destruct fact_values as [F2 [F3 [F4 [F5 [F6 [F7 [F8 F9]]]]]]].
  unfold cos_approx, cos_term.
  cbn [sum_f_R0 Nat.mul Nat.add].
  rewrite F2, F4, F6. change (INR (fact 0)) with 1. simpl pow. field.
Qed.

Lemma cos_approx_4 (a : R) :
  cos_approx a 4 = 1 - a ^ 2 / 2 + a ^ 4 / 24 - a ^ 6 / 720 + a ^ 8 / 40320.
Proof.
  destruct fact_values as [F2 [F3 [F4 [F5 [F6 [F7 [F8 F9]]]]]]].
  unfold cos_approx, cos_term.
  cbn [sum_f_R0 Nat.mul Nat.add].
  rewrite F2, F4, F6, F8. change (INR (fact 0)) with 1. simpl pow. field.
Qed.

(** The half field of view, 37.5 degrees. *)
Lemma half_fov_bounds :
  0.6544979 < 75 * 0.5 * PI / 180.0 < 0.6545.
Proof. pose proof PI_bounds. lra. Qed.

Lemma sin_half_fov : 0.60876 < sin (75 * 0.5 * PI / 180.0) < 0.608763.
Proof.
  pose proof PI_bounds as HPI. pose proof half_fov_bounds as [Hlo Hhi].
  set (x := 75 * 0.5 * PI / 180.0) in *.
  assert (Hl : sin 0.6544979 < sin x) by (apply sin_increasing_1; lra).
  assert (Hu : sin x < sin 0.6545) by (apply sin_increasing_1; lra).
  destruct (sin_bound 0.6544979 1) as [Hl' _]; [lra | lra |].
  destruct (sin_bound 0.6545 1) as [_ Hu']; [lra | lra |].
  change (2 * 1 + 1)%nat with 3%nat in Hl'.
  change (2 * (1 + 1))%nat with 4%nat in Hu'.
  rewrite sin_approx_3 in Hl'. rewrite sin_approx_4 in Hu'.
  split; lra.
Qed.

Lemma cos_half_fov : 0.79335 < cos (75 * 0.5 * PI / 180.0) < 0.793355.
Proof.
  pose proof PI_bounds as HPI. pose proof half_fov_bounds as [Hlo Hhi].
  set (x := 75 * 0.5 * PI / 180.0) in *.
  assert (Hl : cos 0.6545 < cos x) by (apply cos_decreasing_1; lra).
  assert (Hu : cos x < cos 0.6544979) by (apply cos_decreasing_1; lra).
  destruct (cos_bound 0.6545 1) as [Hl' _]; [lra | lra |].
  destruct (cos_bound 0.6544979 1) as [_ Hu']; [lra | lra |].
  change (2 * 1 + 1)%nat with 3%nat in Hl'.
  change (2 * (1 + 1))%nat with 4%nat in Hu'.
  rewrite cos_approx_3 in Hl'. rewrite cos_approx_4 in Hu'.
  split; lra.
Qed.

Lemma focalZ_bounds :
  1.30321 < 1.0 / tan (75 * 0.5 * PI / 180.0) < 1.30324.
Proof.
  pose proof sin_half_fov as [Sl Su]. pose proof cos_half_fov as [Cl Cu].
  unfold tan.
  generalize dependent (sin (75 * 0.5 * PI / 180.0)). intros s Sl Su.
  generalize dependent (cos (75 * 0.5 * PI / 180.0)). intros c Cl Cu.
  assert (E : 1.0 / (s / c) = c / s)
    by (replace 1.0 with 1 by lra; field; lra).
  rewrite E.
  split.
  - apply Rmult_lt_reg_r with s; [lra|].
    unfold Rdiv. rewrite Rmult_assoc, Rinv_l by lra. nra.
  - apply Rmult_lt_reg_r with s; [lra|].
    unfold Rdiv. rewrite Rmult_assoc, Rinv_l by lra. nra.
Qed.

(** ** Soundness of the enclosures *)

Lemma contains3_intro (v0 v1 v2 : R) (V0 V1 V2 : itv) :
  contains v0 V0 -> contains v1 V1 -> contains v2 V2 ->
  contains3 (v0, v1, v2) (V0, V1, V2).
Proof. intros. repeat split; assumption. Qed.

Lemma contains_comp (k : nat) (v : Vec3) (V : IVec3) :
  contains3 v V -> contains (comp k v) (I_comp k V).
Proof.
  destruct v as [[v0 v1] v2], V as [[V0 V1] V2].
  intros [H0 [H1 H2]]. destruct k as [| [| k]]; assumption.
Qed.

Lemma contains_sqr (x : R) (X : itv) : contains x X -> contains (x * x) (I_sqr X).
Proof. intros. now apply contains_mul. Qed.

Lemma contains_pow2 (x : R) (X : itv) : contains x X -> contains (x ^ 2) (I_sqr X).
Proof.
  intros. replace (x ^ 2) with (x * x) by ring. now apply contains_sqr.
Qed.

Lemma contains_dot (a b : Vec3) (A B : IVec3) :
  contains3 a A -> contains3 b B -> contains (dot a b) (I_dot A B).
Proof.
  destruct a as [[a0 a1] a2], b as [[b0 b1] b2].
  destruct A as [[A0 A1] A2], B as [[B0 B1] B2].
  intros [Ha0 [Ha1 Ha2]] [Hb0 [Hb1 Hb2]]. simpl in *.
  repeat apply contains_add; apply contains_mul; assumption.
Qed.

Lemma contains_len (a : Vec3) (A : IVec3) :
  contains3 a A -> contains (len a) (I_len A).
Proof. intros. apply contains_sqrt. now apply contains_dot. Qed.

Lemma contains3_norm (a : Vec3) (A : IVec3) :
  contains3 a A -> contains3 (norm a) (I_norm A).
Proof.
  intros H. pose proof (contains_len a A H) as Hl.
  destruct a as [[a0 a1] a2], A as [[A0 A1] A2].
  destruct H as [H0 [H1 H2]]. unfold norm, I_norm.
  apply contains3_intro; apply contains_div; assumption.
Qed.

Lemma contains3_add (a b : Vec3) (A B : IVec3) :
  contains3 a A -> contains3 b B -> contains3 (add a b) (I_vadd A B).
Proof.
  destruct a as [[a0 a1] a2], b as [[b0 b1] b2].
  destruct A as [[A0 A1] A2], B as [[B0 B1] B2].
  intros [Ha0 [Ha1 Ha2]] [Hb0 [Hb1 Hb2]].
  apply contains3_intro; apply contains_add; assumption.
Qed.

Lemma contains3_scale (a : Vec3) (s : R) (A : IVec3) (S : itv) :
  contains3 a A -> contains s S -> contains3 (scale a s) (I_scale A S).
Proof.
  destruct a as [[a0 a1] a2], A as [[A0 A1] A2].
  intros [Ha0 [Ha1 Ha2]] Hs.
  apply contains3_intro; apply contains_mul; assumption.
Qed.

Lemma contains_clamp (x lo hi : R) (X LO HI : itv) :
  contains x X -> contains lo LO -> contains hi HI ->
  contains (clamp x lo hi) (I_clamp X LO HI).
Proof.
  intros. apply contains_max; [assumption|]. now apply contains_min.
Qed.

Lemma clamp_range (x : R) : -1 <= clamp x (-1) 1 <= 1.
Proof.
  unfold clamp, Rmax, Rmin.
  destruct (Rle_dec 1 x); destruct (Rle_dec (-1) _); lra.
Qed.

Lemma abs_clamp_range (x : R) : -1 <= Rabs (clamp x (-1) 1) <= 1.
Proof.
  pose proof (clamp_range x). unfold Rabs. destruct (Rcase_abs _); lra.
Qed.

Lemma contains_sin_acos (x : R) (X : itv) :
  -1 <= x <= 1 -> contains x X -> contains (sin (acos x)) (I_sin_acos X).
Proof.
  intros Hx H. rewrite sin_acos by assumption.
  unfold I_sin_acos. apply contains_sqrt, contains_sub.
  - apply contains_const; [lia | lra].
  - unfold Rsqr. now apply contains_sqr.
Qed.

Lemma contains_cos_acos (x : R) (X : itv) :
  -1 <= x <= 1 -> contains x X -> contains (cos (acos x)) X.
Proof. intros Hx H. now rewrite cos_acos. Qed.

Lemma contains_INR_SAMPLES : contains (INR SAMPLES) I_SAMPLES.
Proof.
  apply contains_const; [lia|].
  unfold SAMPLES. rewrite INR_IZR_INZ. simpl. lra.
Qed.

Ltac unfold_constants :=
  unfold RAYLEIGH_SCATTER, MIE_SCATTER, MIE_ABSORB, OZONE_ABSORB,
    RAYLEIGH_SCALE_HEIGHT, MIE_SCALE_HEIGHT, GROUND_RADIUS, TOP_RADIUS,
    SUN_INTENSITY, EXPOSURE_DAY, GAMMA, SUNSET_BIAS_STRENGTH; cbn [comp].

(** Containment goals, solved along the structure of the interval term;
    [rec] is the tactic applied to the subgoals. *)
Ltac bound_rules rec :=
  lazymatch goal with
  | H : contains ?x ?X |- contains ?x ?X => exact H
  | H : contains3 ?x ?X |- contains3 ?x ?X => exact H
  | |- contains (INR SAMPLES) _ => apply contains_INR_SAMPLES
  | |- contains (cos (acos _)) _ =>
      apply contains_cos_acos;
      [first [apply abs_clamp_range | apply clamp_range] | rec]
  | |- contains _ I_0 => unfold I_0; rec
  | |- contains _ I_1 => unfold I_1; rec
  | |- contains _ I_GROUND_RADIUS => unfold I_GROUND_RADIUS; rec
  | |- contains _ I_TOP_RADIUS => unfold I_TOP_RADIUS; rec
  | |- contains _ (I_const _ _) =>
      apply contains_const; [lia | unfold_constants; lra]
  | |- contains _ (I_add _ _) => apply contains_add; rec
  | |- contains _ (I_sub _ _) => apply contains_sub; rec
  | |- contains _ (I_mul _ _) => apply contains_mul; rec
  | |- contains _ (I_div _ _) => apply contains_div; rec
  | |- contains _ (I_neg _) => apply contains_neg; rec
  | |- contains (_ * _) (I_sqr _) => apply contains_sqr; rec
  | |- contains (_ ^ 2) (I_sqr _) => apply contains_pow2; rec
  | |- contains _ (I_sin_acos _) =>
      apply contains_sin_acos;
      [first [apply abs_clamp_range | apply clamp_range] | rec]
  | |- contains _ (I_sqrt _) => apply contains_sqrt; rec
  | |- contains _ (I_exp _) => apply contains_exp; rec
  | |- contains _ (I_abs _) => apply contains_abs; rec
  | |- contains _ (I_min _ _) => apply contains_min; rec
  | |- contains _ (I_max _ _) => apply contains_max; rec
  | |- contains _ (I_clamp _ _ _) => apply contains_clamp; rec
  | |- contains _ (I_comp _ _) => apply contains_comp; rec
  | |- contains _ (I_dot _ _) => apply contains_dot; rec
  | |- contains _ (I_len _) => apply contains_len; rec
  | |- contains3 _ (I_vadd _ _) => apply contains3_add; rec
  | |- contains3 _ (I_scale _ _) => apply contains3_scale; rec
  | |- contains3 _ (I_norm _) => apply contains3_norm; rec
  | |- contains3 (_, _, _) (_, _, _) => apply contains3_intro; rec
  | _ => idtac
  end.

Ltac bound := bound_rules ltac:(idtac; bound).

Lemma fold_related {A B : Type} (Rel : A -> B -> Prop)
      (f : A -> A) (F : B -> B) (l : list nat) (a : A) (b : B) :
  (forall a b, Rel a b -> Rel (f a) (F b)) ->
  Rel a b ->
  Rel (fold_left (fun s (_ : nat) => f s) l a)
      (fold_left (fun s (_ : nat) => F s) l b).
Proof.
  intros Hstep. revert a b. induction l as [| i l IH]; simpl; intros a b H.
  - exact H.
  - apply IH, Hstep, H.
Qed.

Lemma opticalDepthStep_bound (o d : Vec3) (seg : R) (st : OpticalDepth)
      (O D : IVec3) (SEG : itv) (ST : IOpticalDepth) :
  contains3 o O -> contains3 d D -> contains seg SEG -> containsOD st ST ->
  containsOD (opticalDepthStep o d seg st) (I_opticalDepthStep O D SEG ST).
Proof.
  intros Ho Hd Hseg [Ht [Hr [Hm Hz]]].
  unfold opticalDepthStep, I_opticalDepthStep, containsOD.
  cbn [od_t odRayleigh odMie odOzone I_od_t I_odRayleigh I_odMie I_odOzone].
  split; [|split; [|split]]; bound.
Qed.

Lemma integrateTransmittance_bound (o d : Vec3) (dist : R)
      (O D : IVec3) (DIST : itv) :
  contains3 o O -> contains3 d D -> contains dist DIST ->
  contains3 (integrateTransmittance o d dist)
            (I_integrateTransmittance O D DIST).
Proof.
  intros Ho Hd Hdist.
  unfold integrateTransmittance, I_integrateTransmittance.
  cbv zeta.
  assert (Hseg : contains (dist / INR SAMPLES) (I_div DIST I_SAMPLES)) by bound.
  set (seg := dist / INR SAMPLES) in *.
  set (SEG := I_div DIST I_SAMPLES) in *.
  match goal with
  | |- context [fold_left ?f ?l ?a] =>
      match goal with
      | |- context [fold_left ?F l ?b] =>
          lazymatch type of b with
          | IOpticalDepth =>
              assert (Hst : containsOD (fold_left f l a) (fold_left F l b))
          end
      end
  end.
  { apply (fold_related containsOD
             (opticalDepthStep o d seg) (I_opticalDepthStep O D SEG)).
    - intros a b Hab. now apply opticalDepthStep_bound.
    - unfold containsOD.
      cbn [od_t odRayleigh odMie odOzone I_od_t I_odRayleigh I_odMie I_odOzone].
      split; [|split; [|split]]; bound. }
  match type of Hst with
  | containsOD ?s ?S => set (st := s) in *; set (ST := S) in *
  end.
  destruct Hst as [Ht [Hr [Hm Hz]]].
  unfold vecExp, I_tau. unfold_constants.
  apply contains3_intro; bound.
Qed.

Lemma upper_neg_sound (x : R) (X : itv) :
  contains x X -> upper_neg X = true -> x < 0.
Proof.
  destruct X as [a b|]; simpl; [|discriminate].
  intros [_ Hhi] Hb. apply Z.ltb_lt, IZR_lt in Hb.
  pose proof IZR_fx_one_pos. nra.
Qed.

Lemma lower_nonneg_sound (x : R) (X : itv) :
  contains x X -> lower_nonneg X = true -> 0 <= x.
Proof.
  destruct X as [a b|]; simpl; [|discriminate].
  intros [Hlo _] Ha. apply Z.leb_le, IZR_le in Ha.
  pose proof IZR_fx_one_pos. nra.
Qed.

Lemma contains3_any (v : Vec3) : contains3 v Any3.
Proof. repeat split. Qed.

(** From a point inside the sphere [intersectSphere] returns a positive
    distance, which the interval [I_exitDistance] encloses. *)
Lemma exitDistance_bound (p d : Vec3) (r : R) (P D : IVec3) (RI : itv) :
  contains3 p P -> contains3 d D -> contains r RI ->
  upper_neg (I_sub (I_dot P P) (I_sqr RI)) = true ->
  exists t,
    intersectSphere p d r = Some t /\ 0 < t /\
    contains t (I_exitDistance P D RI).
Proof.
  intros Hp Hd Hr Hneg.
  assert (Hc : contains (dot p p - r ^ 2) (I_sub (I_dot P P) (I_sqr RI)))
    by bound.
  pose proof (upper_neg_sound _ _ Hc Hneg) as Hin.
  assert (Hin' : dot p p < r ^ 2) by lra.
  destruct (intersectSphere_from_inside p d r Hin') as [Hsome Hpos].
  eexists. split; [exact Hsome|]. split; [exact Hpos|].
  unfold I_exitDistance. rewrite Hneg. bound.
Qed.

Lemma computeTransmittance_bound (h angle : R) (H SI CO : itv) :
  contains h H -> contains (sin angle) SI -> contains (cos angle) CO ->
  contains3 (computeTransmittance h angle) (I_computeTransmittance H SI CO).
Proof.
  intros Hh Hs Hc. unfold I_computeTransmittance.
  set (O := (I_0, I_add I_GROUND_RADIUS H, I_0)).
  set (D := (SI, CO, I_0)).
  destruct (upper_neg (I_sub (I_dot O O) (I_sqr I_TOP_RADIUS))) eqn:Hneg.
  - assert (HO : contains3 (0, GROUND_RADIUS + h, 0) O)
      by (unfold O; bound).
    assert (HD : contains3 (sin angle, cos angle, 0) D)
      by (unfold D; bound).
    assert (HR : contains TOP_RADIUS I_TOP_RADIUS) by bound.
    destruct (exitDistance_bound _ _ _ _ _ _ HO HD HR Hneg)
      as [t [Hsome [Hpos Ht]]].
    destruct (I_exitDistance O D I_TOP_RADIUS) as [lo hi|] eqn:Hexit;
      [|apply contains3_any].
    unfold computeTransmittance. rewrite Hsome.
    unfold falsy. destruct (Req_dec_T t 0) as [H0 | _]; [lra|].
    now apply integrateTransmittance_bound.
  - unfold I_exitDistance. rewrite Hneg. apply contains3_any.
Qed.

Lemma Math_pow_three_halves (x : R) : 0 < x -> Math_pow x (3 / 2) = x * sqrt x.
Proof.
  intros Hx. unfold Math_pow. destruct (Req_dec_T x 0) as [H0 | _]; [lra|].
  replace (3 / 2) with (1 + / 2) by lra.
  rewrite Rpower_plus, Rpower_1, Rpower_sqrt by assumption. reflexivity.
Qed.

Lemma rayleighPhase_bound (x : R) (X PIi : itv) :
  -1 <= x <= 1 -> contains x X -> contains PI PIi ->
  contains (rayleighPhase (acos x)) (I_rayleighPhase X PIi).
Proof.
  intros Hx HX Hpi. unfold rayleighPhase, I_rayleighPhase.
  rewrite cos_acos by assumption. bound.
Qed.

Lemma miePhase_bound (x : R) (X PIi : itv) :
  -1 <= x <= 1 -> contains x X -> contains PI PIi ->
  contains (miePhase (acos x)) (I_miePhase X PIi).
Proof.
  intros Hx HX Hpi. unfold miePhase, I_miePhase. cbv zeta.
  rewrite cos_acos by assumption.
  rewrite Math_pow_three_halves by nra.
  bound.
Qed.

Ltac bound_march :=
  lazymatch goal with
  | |- contains3 (computeTransmittance _ _) _ =>
      apply computeTransmittance_bound; bound_march
  | |- contains (rayleighPhase (acos _)) _ =>
      apply rayleighPhase_bound; [apply clamp_range | bound_march | bound_march]
  | |- contains (miePhase (acos _)) _ =>
      apply miePhase_bound; [apply clamp_range | bound_march | bound_march]
  | _ => bound_rules ltac:(idtac; bound_march)
  end.

Lemma marchStep_bound (sun view o : Vec3) (seg : R) (tc : Vec3) (st : March)
      (PIi : itv) (SUN V O : IVec3) (SEG : itv) (TC : IVec3) (ST : IMarch) :
  contains PI PIi ->
  contains3 sun SUN -> contains3 view V -> contains3 o O ->
  contains seg SEG -> contains3 tc TC -> containsMarch st ST ->
  containsMarch (marchStep sun view o seg false tc st)
                (I_marchStep PIi SUN V O SEG TC ST).
Proof.
  intros Hpi Hsun Hview Ho Hseg Htc [Ht Hins].
  unfold marchStep, I_marchStep, containsMarch.
  cbv beta iota zeta.
  cbn [tRay inscattered I_tRay I_inscattered].
  split.
  - bound_march.
  - apply contains3_intro; cbn [comp]; bound_march.
Qed.

Lemma vmap_components (f : R -> R) (v : Vec3) :
  vmap f v = (f (comp 0 v), f (comp 1 v), f (comp 2 v)).
Proof. destruct v as [[v0 v1] v2]. reflexivity. Qed.

Lemma inscatter_bound (sun view : Vec3) (PIi : itv) (SUN V : IVec3) :
  contains PI PIi -> contains3 sun SUN -> contains3 view V ->
  contains3 (inscatter (0, GROUND_RADIUS, 0) sun view) (I_inscatter PIi SUN V).
Proof.
  intros Hpi Hsun Hview. unfold I_inscatter.
  set (O := (I_0, I_GROUND_RADIUS, I_0)).
  set (o := (0, GROUND_RADIUS, 0)).
  assert (HO : contains3 o O) by (unfold o, O; bound).
  assert (HR : contains TOP_RADIUS I_TOP_RADIUS) by bound.
  destruct (upper_neg (I_sub (I_dot O O) (I_sqr I_TOP_RADIUS))) eqn:Hneg.
  2:{ unfold I_exitDistance. rewrite Hneg. apply contains3_any. }
  destruct (exitDistance_bound _ _ _ _ _ _ HO Hview HR Hneg)
    as [t [Hsome [Hpos Ht]]].
  destruct (I_exitDistance O V I_TOP_RADIUS) as [lo hi|] eqn:Hexit;
    [|apply contains3_any].
  destruct (lower_nonneg (I_div (I_dot O V) (I_len O))) eqn:Hup;
    [|apply contains3_any].
  assert (Hdown : contains (dot o view / len o) (I_div (I_dot O V) (I_len O)))
    by bound.
  apply lower_nonneg_sound in Hdown; [|exact Hup].
  unfold inscatter. rewrite Hsome.
  destruct (Rlt_dec 0 t) as [_ | Hn]; [|contradiction].
  fold o.
  destruct (Rlt_dec (dot o view / len o) 0.0) as [Hlt | _]; [lra|].
  set (seg := t / INR SAMPLES).
  set (SEG := I_div (Itv lo hi) I_SAMPLES).
  assert (Hseg : contains seg SEG) by (unfold seg, SEG; bound).
  match goal with
  | |- context [marchStep _ _ _ _ _ ?c] => set (tc := c)
  end.
  match goal with
  | |- context [I_marchStep _ _ _ _ _ ?C] => set (TC := C)
  end.
  assert (Htc : contains3 tc TC) by (unfold tc, TC, o, O; bound_march).
  rewrite vmap_components.
  match goal with
  | |- context [fold_left ?f ?l ?a] =>
      match goal with
      | |- context [fold_left ?F l ?b] =>
          lazymatch type of b with
          | IMarch =>
              assert (Hst : containsMarch (fold_left f l a) (fold_left F l b))
          end
      end
  end.
  { apply (fold_related containsMarch
             (marchStep sun view o seg false tc)
             (I_marchStep PIi SUN V O SEG TC)).
    - intros a b Hab. now apply marchStep_bound.
    - unfold containsMarch. cbn [tRay inscattered I_tRay I_inscattered].
      split; bound. }
  match type of Hst with
  | containsMarch ?s ?S => set (st := s) in *; set (ST := S) in *
  end.
  destruct Hst as [_ Hins].
  apply contains3_intro; bound.
Qed.

(** ** Tone mapping of the red channel *)

Lemma toneMap_red (e glow : R) (ins : Vec3) (E : itv) (INS : IVec3) :
  ~ 0 < glow -> contains e E -> contains3 ins INS ->
  exists c,
    contains c (I_linearRed E INS) /\ 0 <= c /\
    fst (fst (toneMap e glow ins))
    = Math_round (clamp (Math_pow c (1.0 / GAMMA)) 0 1 * 255).
Proof.
  intros Hglow He Hins.
  destruct ins as [[r g] b].
  unfold toneMap. destruct (Rlt_dec 0 glow) as [Hg | _]; [contradiction|].
  unfold vmap, vmapi, applySunsetBias, aces, vmap, vmapi.
  cbv beta iota zeta. cbn [fst].
  eexists. split; [|split; [|reflexivity]].
  - unfold I_linearRed. cbv zeta.
    assert (Hr : contains r (I_comp 0 INS)) by apply Hins.
    assert (Hgr : contains g (I_comp 1 INS)) by apply Hins.
    assert (Hb : contains b (I_comp 2 INS)) by apply Hins.
    bound.
  - apply Rmax_l.
Qed.

Lemma pow_lt_strict (x y : R) (n : nat) :
  0 <= x < y -> x ^ S n < y ^ S n.
Proof.
  intros [Hx Hxy]. induction n as [| n IH].
  - simpl. lra.
  - change (x ^ S (S n)) with (x * x ^ S n).
    change (y ^ S (S n)) with (y * y ^ S n).
    assert (0 <= x ^ S n) by (apply pow_le; exact Hx).
    nra.
Qed.

Lemma gamma_exponent : 1.0 / GAMMA = 5 / 11.
Proof. unfold GAMMA. lra. Qed.

(** For a positive base the gamma curve [c ^ (5/11)] is the positive number
    whose eleventh power is [c ^ 5]. *)
Lemma gamma_power (c : R) :
  0 < c ->
  0 < Math_pow c (1.0 / GAMMA) /\ Math_pow c (1.0 / GAMMA) ^ 11 = c ^ 5.
Proof.
  intros Hc. unfold Math_pow. destruct (Req_dec_T c 0) as [H0 | _]; [lra|].
  rewrite gamma_exponent.
  assert (Hp : 0 < Rpower c (5 / 11)) by apply exp_pos.
  split; [exact Hp|].
  rewrite <- (Rpower_pow 11 _ Hp), Rpower_mult.
  replace (5 / 11 * INR 11) with (INR 5)
    by (rewrite !INR_IZR_INZ; simpl; lra).
  now apply Rpower_pow.
Qed.

Lemma red_at_least (c : R) (m : Z) :
  0 < c -> (0 < m <= 255)%Z ->
  ((IZR m - / 2) / 255) ^ 11 <= c ^ 5 ->
  (m <= Math_round (clamp (Math_pow c (1.0 / GAMMA)) 0 1 * 255))%Z.
Proof.
  intros Hc [Hm0 Hm] Hpow.
  destruct (gamma_power c Hc) as [Hp Heq].
  set (p := Math_pow c (1.0 / GAMMA)) in *.
  set (v := (IZR m - / 2) / 255) in *.
  assert (Hm0' : 1 <= IZR m) by (apply IZR_le; lia).
  assert (Hm' : IZR m <= 255) by (apply IZR_le; lia).
  assert (Hv : 0 <= v <= 1) by (unfold v; split; lra).
  assert (Hvp : v <= p).
  { destruct (Rle_lt_dec v p) as [Hle | Hlt]; [exact Hle|].
    exfalso. assert (p ^ 11 < v ^ 11) by (apply pow_lt_strict; lra). lra. }
  unfold Math_round. apply Zfloor_lub.
  assert (Hcl : v <= clamp p 0 1).
  { unfold clamp, Rmax, Rmin.
    destruct (Rle_dec 1 p); destruct (Rle_dec 0 _); lra. }
  unfold v in Hcl. lra.
Qed.

Lemma red_at_most (c : R) (m : Z) :
  0 <= c -> (0 <= m)%Z ->
  c ^ 5 < ((IZR m + / 2) / 255) ^ 11 ->
  (Math_round (clamp (Math_pow c (1.0 / GAMMA)) 0 1 * 255) <= m)%Z.
Proof.
  intros Hc Hm Hpow.
  assert (Hm' : 0 <= IZR m) by (apply IZR_le; lia).
  set (v := (IZR m + / 2) / 255) in *.
  assert (Hv : 0 < v) by (unfold v; lra).
  assert (Hcl : clamp (Math_pow c (1.0 / GAMMA)) 0 1 < v).
  { destruct (Req_dec_T c 0) as [-> | Hne].
    - unfold Math_pow. destruct (Req_dec_T 0 0) as [_ | Hn]; [|lra].
      unfold clamp, Rmax, Rmin.
      destruct (Rle_dec 1 0); destruct (Rle_dec 0 _); lra.
    - destruct (gamma_power c ltac:(lra)) as [Hp Heq].
      set (p := Math_pow c (1.0 / GAMMA)) in *.
      assert (Hpv : p < v).
      { destruct (Rle_lt_dec v p) as [Hle | Hlt]; [|exact Hlt].
        exfalso. assert (v ^ 11 <= p ^ 11) by (apply pow_incr; lra). lra. }
      unfold clamp, Rmax, Rmin.
      destruct (Rle_dec 1 p); destruct (Rle_dec 0 _); lra. }
  unfold Math_round.
  pose proof (Zfloor_bound
                (clamp (Math_pow c (1.0 / GAMMA)) 0 1 * 255 + / 2)) as [Hfl _].
  assert (Hlt : IZR (Zfloor (clamp (Math_pow c (1.0 / GAMMA)) 0 1 * 255 + / 2))
                < IZR (m + 1)).
  { rewrite plus_IZR. unfold v in Hcl. lra. }
  apply lt_IZR in Hlt. lia.
Qed.

(** ** The two extreme view samples with the sun at the zenith *)

Lemma contains_between (x : R) (p p' q : Z) :
  (0 < q)%Z -> IZR p / IZR q <= x <= IZR p' / IZR q ->
  contains x (Itv (fdiv (p * fx_one) q) (cdiv (p' * fx_one) q)).
Proof.
  intros Hq [Hlo Hhi]. pose proof IZR_fx_one_pos as HS.
  assert (Hq' : 0 < IZR q) by now apply IZR_lt.
  pose proof (fdiv_le_div (p * fx_one) q Hq) as Hl.
  pose proof (cdiv_ge_div (p' * fx_one) q Hq) as Hu.
  rewrite mult_IZR in Hl, Hu. unfold contains. split.
  - eapply Rle_trans; [exact Hl|].
    replace (IZR p * IZR fx_one / IZR q) with (IZR p / IZR q * IZR fx_one)
      by (field; lra).
    apply Rmult_le_compat_r; lra.
  - eapply Rle_trans; [|exact Hu].
    replace (IZR p' * IZR fx_one / IZR q) with (IZR p' / IZR q * IZR fx_one)
      by (field; lra).
    apply Rmult_le_compat_r; lra.
Qed.

Lemma contains_PI : contains PI I_PI.
Proof.
  pose proof PI_bounds. apply contains_between; [lia | lra].
Qed.

Lemma contains_focalZ :
  contains (1.0 / tan ((FOV_DEG * 0.5 * PI) / 180.0)) I_focalZ.
Proof.
  pose proof focalZ_bounds as H. unfold FOV_DEG.
  apply contains_between; [lia | lra].
Qed.

Lemma sun_at_zenith : contains3 (norm (0, 1, 0)) I_sunAtZenith.
Proof.
  unfold norm, len, dot.
  replace (0 * 0 + 1 * 1 + 0 * 0) with 1 by ring. rewrite sqrt_1.
  unfold I_sunAtZenith. apply contains3_intro; bound.
Qed.

Lemma contains_sampleS (i : nat) :
  contains (sampleS i) (I_const (Z.of_nat i) 31).
Proof.
  apply contains_const; [lia|].
  unfold sampleS. rewrite INR_SAMPLES_pred, INR_IZR_INZ. field.
Qed.

(** The red channel of view sample [i] with the sun at the zenith, in terms
    of a number the interval [I_zenithRed] encloses. *)
Lemma zenith_red (i : nat) :
  exists c,
    contains c (I_zenithRed (Z.of_nat i)) /\ 0 <= c /\
    fst (fst (rgb (sampleStop (PI / 2) i)))
    = Math_round (clamp (Math_pow c (1.0 / GAMMA)) 0 1 * 255).
Proof.
  unfold sampleStop, I_zenithRed. cbn [rgb]. rewrite sin_PI2, cos_PI2.
  apply (toneMap_red _ _ _ (I_const 18 1)
           (I_inscatter I_PI I_sunAtZenith
                        (I_viewDirection (Z.of_nat i) I_focalZ))).
  - rewrite Rabs_R1. unfold Rmax. destruct (Rle_dec 0 (1 - 1 * 3)); lra.
  - rewrite exposure_above_04 by lra. bound.
  - apply inscatter_bound.
    + apply contains_PI.
    + apply sun_at_zenith.
    + unfold I_viewDirection. apply contains3_norm, contains3_intro.
      * bound.
      * apply contains_sampleS.
      * apply contains_focalZ.
Qed.

Lemma zenith_red_horizon : I_zenithRed 0 = Itv 782285437775 801645841429.
Proof. vm_cast_no_check (eq_refl (Itv 782285437775 801645841429)). Qed.

Lemma zenith_red_top : I_zenithRed 31 = Itv 188886562130 190471533845.
Proof. vm_cast_no_check (eq_refl (Itv 188886562130 190471533845)). Qed.

Lemma fx_one_value : IZR fx_one = 1099511627776.
Proof. reflexivity. Qed.

(** With the sun at the zenith the horizontal view sample is quantised to a
    red value of at least 200, the most upward one to at most 130. *)
Lemma zenith_horizon_red_high :
  (200 <= fst (fst (rgb (sampleStop (PI / 2) 0))))%Z.
Proof.
  destruct (zenith_red 0) as [c [Hc [_ ->]]].
  change (Z.of_nat 0) with 0%Z in Hc. rewrite zenith_red_horizon in Hc.
  unfold contains in Hc. rewrite fx_one_value in Hc.
  assert (Hlow : 0.7114 <= c) by lra.
  apply red_at_least; [lra | lia |].
  apply Rle_trans with (0.7114 ^ 5); [lra | apply pow_incr; lra].
Qed.

Lemma zenith_top_red_low :
  (fst (fst (rgb (sampleStop (PI / 2) 31))) <= 130)%Z.
Proof.
  destruct (zenith_red 31) as [c [Hc [Hpos ->]]].
  change (Z.of_nat 31) with 31%Z in Hc. rewrite zenith_red_top in Hc.
  unfold contains in Hc. rewrite fx_one_value in Hc.
  assert (Hhigh : c <= 0.1733) by lra.
  apply red_at_most; [exact Hpos | lia |].
  apply Rle_lt_trans with (0.1733 ^ 5); [apply pow_incr; lra | lra].
Qed.

Lemma zenith_extreme_colors_differ :
  rgb (sampleStop (PI / 2) (SAMPLES - 1)) <> rgb (sampleStop (PI / 2) 0).
Proof.
  pose proof zenith_horizon_red_high as Hh.
  pose proof zenith_top_red_low as Ht.
  change (SAMPLES - 1)%nat with 31%nat.
  intros Heq. rewrite Heq in Ht. lia.
Qed.

(** C3, with the sun at the zenith: the stop with the highest percent is the
    horizontal sample and [topColor] is not its colour; the stop with the
    lowest percent is the most upward sample and [bottomColor] is not its
    colour. *)
Lemma C3_extreme_colors_counterexample :
  exists result lowest highest,
    renderGradient (PI / 2) = Some result /\
    In lowest (sortedStops (PI / 2)) /\
    In highest (sortedStops (PI / 2)) /\
    (forall s, In s (sortedStops (PI / 2)) ->
               percent lowest <= percent s <= percent highest) /\
    topColor result <> rgb highest /\
    bottomColor result <> rgb lowest.
Proof.
  destruct (renderGradient_extremes (PI / 2))
    as [result [lowest [highest [Hr [Hl [Hh [Hall [El [Eh [Et Eb]]]]]]]]]].
  exists result, lowest, highest.
  pose proof zenith_extreme_colors_differ as Hne.
  repeat (split; [assumption|]).
  rewrite Et, Eb, El, Eh. split; [exact Hne|].
  intros Heq. apply Hne. symmetry. exact Heq.
Qed.

(** * Further properties *)

(** ** More on the altitude corrector *)

Lemma offset_high_sun (d : R) :
  20 < d -> getMultipleScatteringOffset (d * DEG_TO_RAD) = 2 * DEG_TO_RAD.
Proof.
  intros Hd. unfold getMultipleScatteringOffset. rewrite altDeg_of_degrees.
  destruct (Rlt_dec 20 d); [lra | contradiction].
Qed.

Lemma offset_day (d : R) :
  -6 < d <= 20 ->
  getMultipleScatteringOffset (d * DEG_TO_RAD) =
  (2 + ((20 - d) / 26) * ((20 - d) / 26) * (3 - 2 * ((20 - d) / 26)) * 6)
  * DEG_TO_RAD.
Proof.
  intros Hd. unfold getMultipleScatteringOffset. rewrite altDeg_of_degrees.
  destruct (Rlt_dec 20 d); [lra|].
  destruct (Rlt_dec (-6) d); [|lra].
  lra.
Qed.

(** The corrected altitude, in degrees, on each of the four pieces. *)
Lemma corrected_pieces (d : R) :
  exists c,
    d * DEG_TO_RAD + getMultipleScatteringOffset (d * DEG_TO_RAD)
    = c * DEG_TO_RAD /\
    ((d <= -12 /\ c = d + 11 * (30 + d) / 18) \/
     (exists t, 0 <= t < 1 /\ d = -6 - 6 * t /\
                c = 2 - 6 * t + 9 * (t * t) - 6 * (t * t * t)) \/
     (exists t, 0 <= t < 1 /\ d = 20 - 26 * t /\
                c = 22 - 26 * t + 18 * (t * t) - 12 * (t * t * t)) \/
     (20 < d /\ c = d + 2)).
Proof.
  destruct (Rle_lt_dec d (-12)) as [H1 | H1].
  { eexists. split; [rewrite offset_deep_twilight by assumption|left; split;
                     [assumption | reflexivity]]. lra. }
  destruct (Rle_lt_dec d (-6)) as [H2 | H2].
  { exists (2 - 6 * ((-6 - d) / 6) + 9 * ((-6 - d) / 6 * ((-6 - d) / 6))
            - 6 * ((-6 - d) / 6 * ((-6 - d) / 6) * ((-6 - d) / 6))).
    split; [rewrite offset_nautical by lra; lra|].
    right. left. exists ((-6 - d) / 6). repeat split; lra. }
  destruct (Rle_lt_dec d 20) as [H3 | H3].
  { exists (22 - 26 * ((20 - d) / 26) + 18 * ((20 - d) / 26 * ((20 - d) / 26))
            - 12 * ((20 - d) / 26 * ((20 - d) / 26) * ((20 - d) / 26))).
    split; [rewrite offset_day by lra; lra|].
    right. right. left. exists ((20 - d) / 26). repeat split; lra. }
  exists (d + 2). split; [rewrite offset_high_sun by assumption; lra|].
  right. right. right. split; [assumption | reflexivity].
Qed.

Lemma nautical_piece_range (t : R) :
  0 <= t < 1 -> -1 < 2 - 6 * t + 9 * (t * t) - 6 * (t * t * t) <= 2.
Proof.
  intros Ht. assert (Hsq : 0 <= t * t) by nra.
  assert (Ha : 0 < 1 - t + 2 * (t * t)) by lra.
  assert (Hb : 0 < 2 - 3 * t + 2 * (t * t))
    by (pose proof (Rle_0_sqr (t - 3 / 4)) as Hs; unfold Rsqr in Hs; nra).
  split.
  - assert (0 < (1 - t) * (1 - t + 2 * (t * t)))
      by (apply Rmult_lt_0_compat; lra).
    nra.
  - assert (0 <= t * (2 - 3 * t + 2 * (t * t)))
      by (apply Rmult_le_pos; lra).
    nra.
Qed.

Lemma day_piece_range (t : R) :
  0 <= t < 1 -> 2 < 22 - 26 * t + 18 * (t * t) - 12 * (t * t * t) <= 22.
Proof.
  intros Ht. assert (Hsq : 0 <= t * t) by nra.
  assert (Ha : 0 < 10 - 3 * t + 6 * (t * t)) by lra.
  assert (Hb : 0 < 13 - 9 * t + 6 * (t * t)) by lra.
  split.
  - assert (0 < (1 - t) * (10 - 3 * t + 6 * (t * t)))
      by (apply Rmult_lt_0_compat; lra).
    nra.
  - assert (0 <= t * (13 - 9 * t + 6 * (t * t)))
      by (apply Rmult_le_pos; lra).
    nra.
Qed.

Lemma quadratic_form_nonneg (x y : R) : 0 <= x * x + x * y + y * y.
Proof.
  pose proof (Rle_0_sqr (x + y / 2)) as H1. pose proof (Rle_0_sqr y) as H2.
  unfold Rsqr in *. nra.
Qed.

Lemma nautical_piece_decreasing (u v : R) :
  v < u ->
  2 - 6 * u + 9 * (u * u) - 6 * (u * u * u)
  < 2 - 6 * v + 9 * (v * v) - 6 * (v * v * v).
Proof.
  intros Huv.
  assert (Hq : 0 < 6 * ((u - /2) * (u - /2) + (u - /2) * (v - /2)
                        + (v - /2) * (v - /2)) + 3 / 2)
    by (pose proof (quadratic_form_nonneg (u - /2) (v - /2)); lra).
  assert (0 < (u - v) * (6 * ((u - /2) * (u - /2) + (u - /2) * (v - /2)
                              + (v - /2) * (v - /2)) + 3 / 2))
    by (apply Rmult_lt_0_compat; lra).
  nra.
Qed.

Lemma day_piece_decreasing (u v : R) :
  v < u ->
  22 - 26 * u + 18 * (u * u) - 12 * (u * u * u)
  < 22 - 26 * v + 18 * (v * v) - 12 * (v * v * v).
Proof.
  intros Huv.
  assert (Hq : 0 < 12 * ((u - /2) * (u - /2) + (u - /2) * (v - /2)
                         + (v - /2) * (v - /2)) + 17)
    by (pose proof (quadratic_form_nonneg (u - /2) (v - /2)); lra).
  assert (0 < (u - v) * (12 * ((u - /2) * (u - /2) + (u - /2) * (v - /2)
                               + (v - /2) * (v - /2)) + 17))
    by (apply Rmult_lt_0_compat; lra).
  nra.
Qed.

Lemma corrected_altitude_lt (a b : R) :
  a < b ->
  a + getMultipleScatteringOffset a < b + getMultipleScatteringOffset b.
Proof.
  intros Hab. pose proof DEG_TO_RAD_pos as Hpos.
  rewrite (altitude_in_degrees a), (altitude_in_degrees b).
  assert (Hd : a / DEG_TO_RAD < b / DEG_TO_RAD).
  { apply Rmult_lt_reg_r with DEG_TO_RAD; [assumption|].
    now rewrite <- !altitude_in_degrees. }
  generalize dependent (b / DEG_TO_RAD). generalize dependent (a / DEG_TO_RAD).
  clear a b Hab. intros d1 d2 Hd.
  destruct (corrected_pieces d1) as [c1 [-> H1]].
  destruct (corrected_pieces d2) as [c2 [-> H2]].
  apply Rmult_lt_compat_r; [assumption|].
  destruct H1 as [[Hd1 ->] | [[t1 [Ht1 [Hd1 ->]]] | [[t1 [Ht1 [Hd1 ->]]] | [Hd1 ->]]]];
    destruct H2 as [[Hd2 ->] | [[t2 [Ht2 [Hd2 ->]]] | [[t2 [Ht2 [Hd2 ->]]] | [Hd2 ->]]]];
    try (pose proof (nautical_piece_range t1 Ht1));
    try (pose proof (nautical_piece_range t2 Ht2));
    try (pose proof (day_piece_range t1 Ht1));
    try (pose proof (day_piece_range t2 Ht2));
    try lra.
  - apply nautical_piece_decreasing. lra.
  - apply day_piece_decreasing. lra.
Qed.





Lemma smoothstep_unit (t : R) : 0 <= t <= 1 -> 0 <= t * t * (3 - 2 * t) <= 1.
Proof.
  intros Ht. split.
  - apply Rmult_le_pos; nra.
  - assert (0 <= (1 - t) * (1 - t) * (1 + 2 * t)) by (apply Rmult_le_pos; nra).
    nra.
Qed.

Lemma offset_range_degrees (d : R) :
  -30 <= d ->
  0 <= getMultipleScatteringOffset (d * DEG_TO_RAD) <= 11 * DEG_TO_RAD /\
  (-12 <= d -> 2 * DEG_TO_RAD <= getMultipleScatteringOffset (d * DEG_TO_RAD)).
Proof.
  intros Hd. pose proof DEG_TO_RAD_pos as Hpos.
  destruct (Rle_lt_dec d (-12)) as [H1 | H1].
  { rewrite offset_deep_twilight by assumption.
    split; [nra|]. intros H. assert (d = -12) by lra. subst d. nra. }
  destruct (Rle_lt_dec d (-6)) as [H2 | H2].
  { rewrite offset_nautical by lra.
    pose proof (smoothstep_unit ((-6 - d) / 6) ltac:(lra)).
    split; [nra|]. intros _. nra. }
  destruct (Rle_lt_dec d 20) as [H3 | H3].
  { rewrite offset_day by lra.
    pose proof (smoothstep_unit ((20 - d) / 26) ltac:(lra)).
    split; [nra|]. intros _. nra. }
  rewrite offset_high_sun by assumption.
  split; [nra|]. intros _. lra.
Qed.

(** X2: from -30 degrees upwards the offset lies between 0 and 11 degrees,
    and from -12 degrees upwards it is at least 2 degrees. *)
Theorem offset_range (a : R) :
  -30 * DEG_TO_RAD <= a ->
  0 <= getMultipleScatteringOffset a <= 11 * DEG_TO_RAD /\
  (-12 * DEG_TO_RAD <= a -> 2 * DEG_TO_RAD <= getMultipleScatteringOffset a).
Proof.
  intros Ha. pose proof DEG_TO_RAD_pos as Hpos.
  assert (Hd : -30 <= a / DEG_TO_RAD).
  { apply Rmult_le_reg_r with DEG_TO_RAD; [assumption|].
    now rewrite <- altitude_in_degrees. }
  destruct (offset_range_degrees _ Hd) as [Hr H12].
  rewrite <- altitude_in_degrees in Hr, H12.
  split; [exact Hr|]. intros H. apply H12.
  apply Rmult_le_reg_r with DEG_TO_RAD; [assumption|].
  now rewrite <- altitude_in_degrees.
Qed.

Lemma offset_range_witness :
  0 <= getMultipleScatteringOffset 0 <= 11 * DEG_TO_RAD.
Proof.
  apply (offset_range 0). pose proof DEG_TO_RAD_pos. lra.
Defined.

(** ** The light-pollution floor *)

Lemma lookup_first (table : list (R * R)) (b v : R) :
  lookup table b = Some v -> In (b, v) table.
Proof.
  induction table as [| [k w] rest IH]; simpl; [discriminate|].
  destruct (Req_dec_T b k) as [-> | _].
  - intros H. injection H as ->. now left.
  - intros H. right. now apply IH.
Qed.

Lemma light_pollution_entry_range (b v : R) :
  lookup LIGHT_POLLUTION_OFFSETS b = Some v -> 0 <= v <= 6.
Proof.
  intros H. apply lookup_first in H. simpl in H.
  repeat (destruct H as [H | H]; [injection H as <- <-; lra|]).
  destruct H.
Qed.

Lemma light_pollution_floor_range (b : R) :
  -3 * DEG_TO_RAD <= getLightPollutionAltitude b <= 3 * DEG_TO_RAD.
Proof.
  pose proof DEG_TO_RAD_pos as Hpos. unfold getLightPollutionAltitude.
  destruct (lookup LIGHT_POLLUTION_OFFSETS b) as [v |] eqn:Hl; simpl.
  - pose proof (light_pollution_entry_range b v Hl). nra.
  - nra.
Qed.

(** X3: whatever the [bortle] value, the floor lies between -3 and 3
    degrees; over the keys of the table it does not decrease as the Bortle
    class grows. *)
Theorem light_pollution_range_and_order :
  (forall b, -3 * DEG_TO_RAD <= getLightPollutionAltitude b <= 3 * DEG_TO_RAD) /\
  (forall b1 v1 b2 v2,
      lookup LIGHT_POLLUTION_OFFSETS b1 = Some v1 ->
      lookup LIGHT_POLLUTION_OFFSETS b2 = Some v2 ->
      b1 <= b2 ->
      getLightPollutionAltitude b1 <= getLightPollutionAltitude b2).
Proof.
  pose proof DEG_TO_RAD_pos as Hpos.
  split; [exact light_pollution_floor_range|].
  intros b1 v1 b2 v2 H1 H2 Hle. unfold getLightPollutionAltitude.
  rewrite H1, H2. simpl.
  apply lookup_first in H1. apply lookup_first in H2. simpl in H1, H2.
  assert (v1 <= v2).
  { repeat (destruct H1 as [H1 | H1]; [injection H1 as <- <-|]);
      try (destruct H1);
      repeat (destruct H2 as [H2 | H2]; [injection H2 as <- <-; lra|]);
      destruct H2. }
  nra.
Qed.

Lemma lookup_bortle_1 : lookup LIGHT_POLLUTION_OFFSETS 1 = Some 0.0.
Proof. table_lookup. reflexivity. Qed.

Lemma light_pollution_range_and_order_witness :
  getLightPollutionAltitude 1 <= getLightPollutionAltitude 9.
Proof.
  apply (proj2 light_pollution_range_and_order 1 0.0 9 6.0).
  - exact lookup_bortle_1.
  - exact lookup_bortle_9.
  - lra.
Defined.

(** X4: the two corrections together are non-decreasing in the altitude
    they are given; with a [bortle] value, in the table or not, their result
    is never below -3 degrees and never below the altitude corrected for
    multiple scattering alone. *)
Theorem applyCorrections_monotone_and_floored (a a' : R) (bortle : option R) :
  a <= a' ->
  applyCorrections a bortle <= applyCorrections a' bortle /\
  a + getMultipleScatteringOffset a <= applyCorrections a bortle /\
  (bortle <> None -> -3 * DEG_TO_RAD <= applyCorrections a bortle).
Proof.
  intros Hle.
  assert (Hmono : a + getMultipleScatteringOffset a
                  <= a' + getMultipleScatteringOffset a').
  { destruct (Rle_lt_or_eq_dec _ _ Hle) as [Hlt | ->]; [|lra].
    left. now apply corrected_altitude_lt. }
  unfold applyCorrections. destruct bortle as [b |].
  - pose proof (light_pollution_floor_range b) as [Hlo _].
    split; [|split].
    + apply Rle_max_compat_r. exact Hmono.
    + apply Rmax_l.
    + intros _. eapply Rle_trans; [exact Hlo | apply Rmax_r].
  - split; [exact Hmono|]. split; [lra|]. intros H. now contradict H.
Qed.

Lemma applyCorrections_monotone_and_floored_witness :
  applyCorrections 0 (Some 5) <= applyCorrections 1 (Some 5).
Proof.
  apply (applyCorrections_monotone_and_floored 0 1 (Some 5)). lra.
Defined.

(** ** computeSky *)

Section ComputeSkyProperties.

Variable SunTimesProvider : Type.
Variable getSunPosition : Date -> R -> R -> SunPosition.
Variable fetchSunTimes : R -> R -> Date -> SunTimesProvider -> option SunTimes.

Let position (options : ComputeSkyOptions SunTimesProvider) : SunPosition :=
  getSunPosition (date options) (latitude options) (longitude options).

(** X5: without the sunrise/sunset correction [computeSky] always returns a
    result; it reports the raw altitude and azimuth of the ephemeris, and
    leaves [correctedAltitude], [sunrise] and [sunset] undefined. *)
Theorem computeSky_without_sunTimes
        (options : ComputeSkyOptions SunTimesProvider) :
  sunTimes options = None \/ sunTimes options = Some SunTimesOff ->
  exists result g,
    computeSky getSunPosition fetchSunTimes options = Some result /\
    renderGradient (applyCorrections (altitude (position options))
                                     (bortle options)) = Some g /\
    sky_gradient result = gradient g /\
    sky_altitude result = altitude (position options) /\
    sky_azimuth result = azimuth (position options) /\
    sky_correctedAltitude result = None /\
    sky_sunrise result = None /\
    sky_sunset result = None.
Proof.
  intros Hoff. unfold computeSky, correctedSky.
  assert (Hs : match sunTimes options with
               | Some o => o
               | None => SunTimesOff
               end = SunTimesOff)
    by (destruct Hoff as [-> | ->]; reflexivity).
  rewrite Hs. cbn [renderAltitude correctedAltitude c_sunrise c_sunset].
  fold (position options).
  destruct (renderGradient_returns
              (applyCorrections (altitude (position options)) (bortle options)))
    as [first [last [_ [_ Hr]]]].
  rewrite Hr. do 2 eexists. split; [reflexivity|].
  split; [reflexivity|]. repeat split.
Qed.

(** X6: with a provider, [computeSky] is rejected exactly when
    [fetchSunTimes] is; otherwise the altitude it renders is the one
    [correctAltitude] returns, corrected further, while the result still
    reports the raw altitude, together with the corrected one and the two
    times of the provider. *)
Theorem computeSky_with_sunTimes
        (options : ComputeSkyOptions SunTimesProvider)
        (provider : SunTimesProvider) :
  sunTimes options = Some (SunTimesFrom _ provider) ->
  match fetchSunTimes (latitude options) (longitude options) (date options)
                      provider with
  | None => computeSky getSunPosition fetchSunTimes options = None
  | Some times =>
      let corrected :=
        correctAltitude (date options) (altitude (position options)) times
                        (latitude options) (longitude options) in
      exists result g,
        computeSky getSunPosition fetchSunTimes options = Some result /\
        renderGradient (applyCorrections corrected (bortle options)) = Some g /\
        sky_gradient result = gradient g /\
        sky_altitude result = altitude (position options) /\
        sky_correctedAltitude result = Some corrected /\
        sky_sunrise result = Some (sunrise times) /\
        sky_sunset result = Some (sunset times)
  end.
Proof.
  intros Hs. unfold computeSky, correctedSky. rewrite Hs.
  destruct (fetchSunTimes _ _ _ _) as [times |]; [|reflexivity].
  cbn [renderAltitude correctedAltitude c_sunrise c_sunset].
  fold (position options).
  set (corrected := correctAltitude _ _ _ _ _).
  destruct (renderGradient_returns
              (applyCorrections corrected (bortle options)))
    as [first [last [_ [_ Hr]]]].
  rewrite Hr. do 2 eexists. split; [reflexivity|].
  split; [reflexivity|]. repeat split.
Qed.

End ComputeSkyProperties.

Lemma computeSky_without_sunTimes_witness :
  exists result,
    computeSky (fun _ _ _ => mkSunPosition 1 2) (fun _ _ _ (_ : unit) => None)
               (mkComputeSkyOptions (mkDate 0) 0 0 None None) = Some result /\
    sky_altitude result = 1.
Proof.
  destruct (computeSky_without_sunTimes
              unit (fun _ _ _ => mkSunPosition 1 2) (fun _ _ _ _ => None)
              (mkComputeSkyOptions (mkDate 0) 0 0 None None))
    as [result [g [Hr [_ [_ [Ha _]]]]]].
  - left. reflexivity.
  - exists result. split; [exact Hr | exact Ha].
Defined.

Lemma computeSky_with_sunTimes_witness :
  exists result,
    computeSky (fun _ _ _ => mkSunPosition 1 2)
               (fun _ _ _ (_ : unit) =>
                  Some (mkSunTimes (mkDate 21600000) (mkDate 64800000)))
               (mkComputeSkyOptions (mkDate 20700000) 35 139
                                    (Some (SunTimesFrom _ tt)) (Some 5))
    = Some result /\
    sky_altitude result = 1 /\
    sky_correctedAltitude result
    = Some (correctAltitude (mkDate 20700000) 1
                            (mkSunTimes (mkDate 21600000) (mkDate 64800000))
                            35 139) /\
    sky_sunrise result = Some (mkDate 21600000) /\
    sky_sunset result = Some (mkDate 64800000).
Proof.
  pose proof (computeSky_with_sunTimes
                unit (fun _ _ _ => mkSunPosition 1 2)
                (fun _ _ _ _ =>
                   Some (mkSunTimes (mkDate 21600000) (mkDate 64800000)))
                (mkComputeSkyOptions (mkDate 20700000) 35 139
                                     (Some (SunTimesFrom _ tt)) (Some 5))
                tt eq_refl) as H.
  cbv beta iota zeta in H.
  destruct H as [result [g [Hr [_ [_ [Ha [Hc [Hsr Hss]]]]]]]].
  exists result.
  split; [exact Hr|]. split; [exact Ha|]. split; [exact Hc|].
  split; [exact Hsr | exact Hss].
Defined.

(** ** Exposure *)

Lemma smoothstep_monotone (u v : R) :
  0 <= u <= v -> v <= 1 -> u * u * (3 - 2 * u) <= v * v * (3 - 2 * v).
Proof.
  intros [Hu Huv] Hv.
  assert (H1 : 0 <= u * (1 - u)) by (apply Rmult_le_pos; lra).
  assert (H2 : 0 <= v * (1 - v)) by (apply Rmult_le_pos; lra).
  assert (H3 : 0 <= u * (1 - v)) by (apply Rmult_le_pos; lra).
  assert (H4 : 0 <= (v - u) * (3 * (u + v) - 2 * (u * u + u * v + v * v)))
    by (apply Rmult_le_pos; nra).
  nra.
Qed.

Lemma exposure_twilight (h : R) :
  -0.15 < h <= 0 ->
  exposureFor h =
  6 + ((h + 0.15) / 0.15) * ((h + 0.15) / 0.15)
      * (3 - 2 * ((h + 0.15) / 0.15)) * 29.
Proof.
  intros Hh. unfold exposureFor, EXPOSURE_NIGHT, EXPOSURE_SUNSET.
  destruct (Rle_dec h (-0.15)); [lra|].
  destruct (Rle_dec h 0.0); [|lra].
  lra.
Qed.

Lemma exposure_low_sun (h : R) :
  0 < h <= 0.4 ->
  exposureFor h =
  35 - (h / 0.4) * (h / 0.4) * (3 - 2 * (h / 0.4)) * 17.
Proof.
  intros Hh. unfold exposureFor, EXPOSURE_DAY, EXPOSURE_SUNSET.
  destruct (Rle_dec h (-0.15)); [lra|].
  destruct (Rle_dec h 0.0); [lra|].
  destruct (Rle_dec h 0.4); [|lra].
  lra.
Qed.

Lemma exposure_night (h : R) : h <= -0.15 -> exposureFor h = 6.
Proof.
  intros Hh. unfold exposureFor, EXPOSURE_NIGHT.
  destruct (Rle_dec h (-0.15)); [lra | contradiction].
Qed.

Lemma exposure_day (h : R) : 0.4 < h -> exposureFor h = 18.
Proof.
  intros Hh. rewrite exposure_above_04 by assumption.
  unfold EXPOSURE_DAY. lra.
Qed.

Lemma exposure_range (h : R) : 6 <= exposureFor h <= 35.
Proof.
  destruct (Rle_lt_dec h (-0.15)) as [H1 | H1];
    [rewrite exposure_night by assumption; lra|].
  destruct (Rle_lt_dec h 0) as [H2 | H2].
  { rewrite exposure_twilight by lra.
    pose proof (smoothstep_unit ((h + 0.15) / 0.15) ltac:(lra)). lra. }
  destruct (Rle_lt_dec h 0.4) as [H3 | H3].
  { rewrite exposure_low_sun by lra.
    pose proof (smoothstep_unit (h / 0.4) ltac:(lra)). lra. }
  rewrite exposure_day by assumption. lra.
Qed.

Lemma exposure_rising (h1 h2 : R) :
  h1 <= h2 -> h2 <= 0 -> exposureFor h1 <= exposureFor h2.
Proof.
  intros Hle H0.
  destruct (Rle_lt_dec h2 (-0.15)) as [A2 | A2].
  { rewrite !exposure_night by lra. lra. }
  rewrite (exposure_twilight h2) by lra.
  destruct (Rle_lt_dec h1 (-0.15)) as [A1 | A1].
  { rewrite exposure_night by lra.
    pose proof (smoothstep_unit ((h2 + 0.15) / 0.15) ltac:(lra)). lra. }
  rewrite (exposure_twilight h1) by lra.
  pose proof (smoothstep_monotone ((h1 + 0.15) / 0.15) ((h2 + 0.15) / 0.15)
                                  ltac:(lra) ltac:(lra)).
  lra.
Qed.

Lemma exposure_at_horizon : exposureFor 0 = 35.
Proof. rewrite exposure_twilight by lra. lra. Qed.

Lemma exposure_falling (h1 h2 : R) :
  h1 <= h2 -> 0 <= h1 -> exposureFor h2 <= exposureFor h1.
Proof.
  intros Hle H0.
  destruct (Rle_lt_or_eq_dec _ _ H0) as [Hpos | <-];
    [|rewrite exposure_at_horizon; apply exposure_range].
  destruct (Rle_lt_dec h1 0.4) as [A1 | A1].
  - rewrite (exposure_low_sun h1) by lra.
    destruct (Rle_lt_dec h2 0.4) as [A2 | A2].
    + rewrite (exposure_low_sun h2) by lra.
      pose proof (smoothstep_monotone (h1 / 0.4) (h2 / 0.4)
                                      ltac:(lra) ltac:(lra)).
      lra.
    + rewrite exposure_day by lra.
      pose proof (smoothstep_unit (h1 / 0.4) ltac:(lra)). lra.
  - rewrite !exposure_day by lra. lra.
Qed.

(** X7: the exposure always lies between the night exposure 6 and the
    sunset exposure 35; it does not decrease while the sun height rises to
    0 and does not increase afterwards. *)
Theorem exposure_range_and_shape (h1 h2 : R) :
  h1 <= h2 ->
  6 <= exposureFor h1 <= 35 /\
  (h2 <= 0 -> exposureFor h1 <= exposureFor h2) /\
  (0 <= h1 -> exposureFor h2 <= exposureFor h1).
Proof.
  intros Hle. split; [apply exposure_range|]. split.
  - now apply exposure_rising.
  - now apply exposure_falling.
Qed.

Lemma exposure_range_and_shape_witness :
  6 <= exposureFor 0 <= 35.
Proof. apply (exposure_range_and_shape 0 1). lra. Defined.

(** ** The filmic curve and the sunset bias *)

Lemma aces_component (k : nat) (v : Vec3) :
  comp k (aces v) =
  Rmax 0 (Rmin 1 (comp k v * (2.51 * comp k v + 0.03)
                  / (comp k v * (2.43 * comp k v + 0.59) + 0.14))).
Proof.
  destruct v as [[v0 v1] v2]. destruct k as [| [| k]]; reflexivity.
Qed.

Lemma aces_fraction_monotone (x y : R) :
  0 <= x <= y ->
  x * (2.51 * x + 0.03) / (x * (2.43 * x + 0.59) + 0.14)
  <= y * (2.51 * y + 0.03) / (y * (2.43 * y + 0.59) + 0.14).
Proof.
  intros [Hx Hxy].
  assert (Hdx : 0 < x * (2.43 * x + 0.59) + 0.14) by nra.
  assert (Hdy : 0 < y * (2.43 * y + 0.59) + 0.14) by nra.
  apply Rmult_le_reg_r with (x * (2.43 * x + 0.59) + 0.14); [assumption|].
  apply Rmult_le_reg_r with (y * (2.43 * y + 0.59) + 0.14); [assumption|].
  replace (x * (2.51 * x + 0.03) / (x * (2.43 * x + 0.59) + 0.14)
           * (x * (2.43 * x + 0.59) + 0.14) * (y * (2.43 * y + 0.59) + 0.14))
    with (x * (2.51 * x + 0.03) * (y * (2.43 * y + 0.59) + 0.14))
    by (field; lra).
  replace (y * (2.51 * y + 0.03) / (y * (2.43 * y + 0.59) + 0.14)
           * (x * (2.43 * x + 0.59) + 0.14) * (y * (2.43 * y + 0.59) + 0.14))
    with (y * (2.51 * y + 0.03) * (x * (2.43 * x + 0.59) + 0.14))
    by (field; lra).
  assert (0 <= (y - x) * (1.408 * (x * y) + 0.3514 * (x + y) + 0.0042))
    by (apply Rmult_le_pos; nra).
  nra.
Qed.

(** X8: every channel the filmic curve returns lies in [0, 1], whatever
    the input, and on non-negative inputs the curve is non-decreasing: more
    radiance never gives a darker channel. *)
Theorem aces_range_and_monotone (k : nat) (u v : Vec3) :
  0 <= comp k (aces u) <= 1 /\
  (0 <= comp k u <= comp k v -> comp k (aces u) <= comp k (aces v)).
Proof.
  rewrite !aces_component. split.
  - split; [apply Rmax_l|].
    apply Rmax_lub; [lra | apply Rmin_l].
  - intros H. pose proof (aces_fraction_monotone _ _ H) as Hm.
    apply Rle_max_compat_l. apply Rle_min_compat_l. exact Hm.
Qed.

Lemma aces_range_and_monotone_witness :
  0 <= comp 0 (aces (1, 0, 0)) <= 1 /\
  comp 0 (aces (1, 0, 0)) <= comp 0 (aces (2, 0, 0)).
Proof.
  destruct (aces_range_and_monotone 0 (1, 0, 0) (2, 0, 0)) as [Hr Hm].
  split; [exact Hr|]. apply Hm. simpl. lra.
Defined.

(** X9: on a colour with non-negative channels the sunset bias raises red
    by at most a quarter, lowers green by at most a quarter and raises blue
    by at most a half. *)
Theorem applySunsetBias_bounds (r g b : R) :
  0 <= r -> 0 <= g -> 0 <= b ->
  r <= comp 0 (applySunsetBias (r, g, b)) <= 1.25 * r /\
  0.75 * g <= comp 1 (applySunsetBias (r, g, b)) <= g /\
  b <= comp 2 (applySunsetBias (r, g, b)) <= 1.5 * b.
Proof.
  intros Hr Hg Hb. unfold applySunsetBias, SUNSET_BIAS_STRENGTH. cbn [comp].
  set (lum := 0.2126 * r + 0.7152 * g + 0.0722 * b).
  assert (Hlum : 0 <= lum) by (unfold lum; lra).
  set (w := 1.0 / (1.0 + 2.0 * lum)).
  assert (Hw : 0 < w <= 1).
  { unfold w. split.
    - apply Rdiv_lt_0_compat; lra.
    - apply Rmult_le_reg_r with (1.0 + 2.0 * lum); [lra|].
      unfold Rdiv. rewrite Rmult_assoc, Rinv_l by lra. lra. }
  assert (H0 : 0 <= r * (1.0 + 0.5 * 0.5 * w)) by (apply Rmult_le_pos; lra).
  assert (H1 : 0 <= g * (1.0 - 0.5 * 0.5 * w)) by (apply Rmult_le_pos; lra).
  assert (H2 : 0 <= b * (1.0 + 1.0 * 0.5 * w)) by (apply Rmult_le_pos; lra).
  rewrite !Rmax_right by assumption.
  repeat split; nra.
Qed.

Lemma applySunsetBias_bounds_witness :
  1 <= comp 0 (applySunsetBias (1, 1, 1)) <= 1.25 * 1.
Proof. apply (applySunsetBias_bounds 1 1 1); lra. Defined.

(** ** Quantised colours *)

Lemma clamp_unit (x : R) : 0 <= clamp x 0 1 <= 1.
Proof.
  unfold clamp, Rmax, Rmin.
  destruct (Rle_dec 1 x); destruct (Rle_dec 0 _); lra.
Qed.

Lemma quantise_range (x : R) :
  (0 <= Math_round (clamp x 0 1 * 255) <= 255)%Z.
Proof.
  pose proof (clamp_unit x) as Hc. unfold Math_round. split.
  - apply Zfloor_lub. simpl. lra.
  - pose proof (Zfloor_bound (clamp x 0 1 * 255 + / 2)) as [Hlo _].
    assert (Hlt : IZR (Zfloor (clamp x 0 1 * 255 + / 2)) < IZR 256) by lra.
    apply lt_IZR in Hlt. lia.
Qed.

Lemma toneMap_byteRange (exposure horizonGlow : R) (inscattered : Vec3) :
  byteRange (toneMap exposure horizonGlow inscattered).
Proof.
  unfold toneMap.
  destruct (vmap _ (aces _)) as [[c0 c1] c2].
  unfold byteRange. repeat split; apply quantise_range.
Qed.

(** X10: every stop that [renderGradient] formats has a percent between
    0 and 100 and three colour channels between 0 and 255, and the
    returned [topColor] and [bottomColor] are such byte triples too,
    whatever the altitude. *)
Theorem stops_within_range (altitude : R) :
  Forall (fun s => 0 <= percent s <= 100 /\ byteRange (rgb s))
         (sortedStops altitude) /\
  exists result,
    renderGradient altitude = Some result /\
    byteRange (topColor result) /\ byteRange (bottomColor result).
Proof.
  assert (Hstop : forall s, In s (sortedStops altitude) ->
                            0 <= percent s <= 100 /\ byteRange (rgb s)).
  { intros s Hs.
    destruct (proj1 (In_sortedStops altitude s) Hs) as [i [Hi Hs']].
    rewrite Hs'. split.
    - rewrite percent_sampleStop.
      assert (H0 : 0 <= INR i) by apply pos_INR.
      assert (H1 : INR i <= INR (SAMPLES - 1)) by (apply le_INR; lia).
      rewrite INR_SAMPLES_pred in H1. lra.
    - unfold sampleStop. cbn [rgb]. apply toneMap_byteRange. }
  split; [apply Forall_forall; exact Hstop|].
  destruct (renderGradient_returns altitude) as [first [last [Hf [Hl Hr]]]].
  eexists. split; [exact Hr|]. cbn [topColor bottomColor].
  split.
  - exact (proj2 (Hstop first (nth_error_In _ _ Hf))).
  - exact (proj2 (Hstop last (nth_error_In _ _ Hl))).
Qed.

(** ** Geometry of [intersectSphere] *)

(** The squared distance from the centre of the point at parameter [t] on
    the ray. *)
Lemma ray_point_radius (p d : Vec3) (t : R) :
  dot (add p (scale d t)) (add p (scale d t))
  = dot p p + 2 * t * dot p d + t * t * dot d d.
Proof.
  destruct p as [[p0 p1] p2]. destruct d as [[d0 d1] d2].
  unfold add, scale, dot. ring.
Qed.

Lemma on_sphere_iff (p d : Vec3) (r t : R) :
  dot d d = 1 ->
  dot (add p (scale d t)) (add p (scale d t)) = r ^ 2 <->
  (t + dot p d) ^ 2 = dot p d ^ 2 - (dot p p - r ^ 2).
Proof.
  intros Hd. rewrite ray_point_radius, Hd. split; intros H; nra.
Qed.

Lemma square_roots (x D : R) :
  0 <= D -> x ^ 2 = D -> x = sqrt D \/ x = - sqrt D.
Proof.
  intros HD Hx.
  assert (Hs : sqrt D * sqrt D = D) by (apply sqrt_sqrt; exact HD).
  assert (Hz : (x - sqrt D) * (x + sqrt D) = 0) by nra.
  destruct (Rmult_integral _ _ Hz); [left | right]; lra.
Qed.

(** X11: for a unit direction [d], a number [intersectSphere] returns is
    the parameter of a point of the ray on the sphere; no hit at a
    parameter [s >= 0] is nearer than the returned one; the returned number
    is negative exactly when every hit lies behind the origin; and [null]
    is returned exactly when the line misses the sphere. *)
Theorem intersectSphere_nearest_hit (p d : Vec3) (r : R) :
  dot d d = 1 ->
  let hit (s : R) :=
    dot (add p (scale d s)) (add p (scale d s)) = r ^ 2 in
  match intersectSphere p d r with
  | Some t =>
      hit t /\
      (forall s, hit s -> 0 <= s -> 0 <= t <= s) /\
      (t < 0 <-> forall s, hit s -> s < 0)
  | None => forall s, ~ hit s
  end.
Proof.
  intros Hd hit.
  assert (Hiff := fun s => on_sphere_iff p d r s Hd). fold hit in Hiff.
  unfold intersectSphere.
  set (b := dot p d) in *. set (D := b ^ 2 - (dot p p - r ^ 2)) in *.
  destruct (Rlt_dec D 0) as [Hneg | Hpos].
  - intros s Hs. apply (proj1 (Hiff s)) in Hs.
    pose proof (pow2_ge_0 (s + b)). lra.
  - assert (HD : 0 <= D) by lra.
    assert (Hs0 : 0 <= sqrt D) by apply sqrt_pos.
    assert (Hss : sqrt D * sqrt D = D) by (apply sqrt_sqrt; exact HD).
    assert (Hroots : forall s, hit s ->
                               s = - b + sqrt D \/ s = - b - sqrt D).
    { intros s Hs. apply (proj1 (Hiff s)) in Hs.
      destruct (square_roots _ _ HD Hs); [left | right]; lra. }
    destruct (Rlt_dec (- b - sqrt D) 0) as [Hfar | Hnear].
    + split; [apply (proj2 (Hiff _)); nra|]. split.
      * intros s Hs Hge. destruct (Hroots s Hs); lra.
      * split.
        -- intros Ht s Hs. destruct (Hroots s Hs); lra.
        -- intros Hall. apply Hall. apply (proj2 (Hiff _)). nra.
    + split; [apply (proj2 (Hiff _)); nra|]. split.
      * intros s Hs Hge. destruct (Hroots s Hs); lra.
      * split.
        -- intros Ht. lra.
        -- intros Hall.
           assert (Hh : hit (- b - sqrt D)) by (apply (proj2 (Hiff _)); nra).
           apply Hall in Hh. lra.
Qed.

Lemma intersectSphere_nearest_hit_witness :
  dot (add (0, -3, 0) (scale (0, 1, 0) 1)) (add (0, -3, 0) (scale (0, 1, 0) 1))
  = 2 ^ 2.
Proof.
  pose proof (intersectSphere_nearest_hit (0, -3, 0) (0, 1, 0) 2) as H.
  assert (Hd : dot (0, 1, 0) (0, 1, 0) = 1) by (simpl; lra).
  specialize (H Hd). cbv zeta in H.
  assert (Hi : intersectSphere (0, -3, 0) (0, 1, 0) 2 = Some 1).
  { unfold intersectSphere. simpl.
    replace ((0 * 0 + -3 * 1 + 0 * 0) * ((0 * 0 + -3 * 1 + 0 * 0) * 1)
             - (0 * 0 + -3 * -3 + 0 * 0 - 2 * (2 * 1))) with 4 by lra.
    rewrite sqrt_4.
    destruct (Rlt_dec 4 0); [lra|].
    destruct (Rlt_dec _ 0); [lra|]. f_equal. lra. }
  rewrite Hi in H. exact (proj1 H).
Defined.

(** ** Phase functions *)

Lemma cos_sqr_range (a : R) : 0 <= cos a ^ 2 <= 1.
Proof.
  pose proof (COS_bound a) as [Hlo Hhi]. split; nra.
Qed.

Lemma mie_base_range (a : R) : 0.04 <= 1 + 0.8 ^ 2 - 2 * 0.8 * cos a <= 3.24.
Proof.
  pose proof (COS_bound a) as [Hlo Hhi]. split; lra.
Qed.

Lemma miePhase_eq (a : R) :
  miePhase a =
  3 / (8 * PI) * ((1 - 0.8 ^ 2) * (1 + cos a ^ 2))
  / ((2 + 0.8 ^ 2)
     * ((1 + 0.8 ^ 2 - 2 * 0.8 * cos a)
        * sqrt (1 + 0.8 ^ 2 - 2 * 0.8 * cos a))).
Proof.
  unfold miePhase. cbv zeta.
  rewrite Math_pow_three_halves; [reflexivity|].
  pose proof (mie_base_range a). lra.
Qed.

Lemma miePhase_pos (a : R) : 0 < miePhase a.
Proof.
  rewrite miePhase_eq.
  pose proof PI_RGT_0 as Hpi. pose proof (cos_sqr_range a) as Hc.
  pose proof (mie_base_range a) as Hb.
  assert (Hs : 0 < sqrt (1 + 0.8 ^ 2 - 2 * 0.8 * cos a))
    by (apply sqrt_lt_R0; lra).
  apply Rdiv_lt_0_compat.
  - apply Rmult_lt_0_compat.
    + apply Rdiv_lt_0_compat; lra.
    + apply Rmult_lt_0_compat; lra.
  - apply Rmult_lt_0_compat; [lra|].
    apply Rmult_lt_0_compat; lra.
Qed.

Lemma rayleighPhase_range (a : R) :
  3 / (16 * PI) <= rayleighPhase a <= 3 / (8 * PI).
Proof.
  unfold rayleighPhase.
  pose proof PI_RGT_0 as Hpi. pose proof (cos_sqr_range a) as Hc.
  assert (Hi : 0 < / (16 * PI)) by (apply Rinv_0_lt_compat; lra).
  replace (3 / (8 * PI)) with (3 * 2 / (16 * PI)) by (field; lra).
  unfold Rdiv. split; apply Rmult_le_compat_r; lra.
Qed.

Lemma rayleighPhase_pos (a : R) : 0 < rayleighPhase a.
Proof.
  pose proof (rayleighPhase_range a) as [Hlo _].
  pose proof PI_RGT_0 as Hpi.
  assert (0 < 3 / (16 * PI)) by (apply Rdiv_lt_0_compat; lra).
  lra.
Qed.

(** X12: both phase functions are strictly positive and even in the
    angle; the Rayleigh phase stays between 3/(16 pi), reached at a right
    angle, and 3/(8 pi), reached forward and backward; the Mie phase is
    never larger than in the forward direction, angle 0. *)
Theorem phase_functions_shape (angle : R) :
  3 / (16 * PI) <= rayleighPhase angle <= 3 / (8 * PI) /\
  rayleighPhase (PI / 2) = 3 / (16 * PI) /\
  rayleighPhase 0 = 3 / (8 * PI) /\
  rayleighPhase PI = 3 / (8 * PI) /\
  rayleighPhase (- angle) = rayleighPhase angle /\
  0 < miePhase angle <= miePhase 0 /\
  miePhase (- angle) = miePhase angle.
Proof.
  pose proof PI_RGT_0 as Hpi.
  split; [apply rayleighPhase_range|].
  split; [unfold rayleighPhase; rewrite cos_PI2; field; lra|].
  split; [unfold rayleighPhase; rewrite cos_0; field; lra|].
  split; [unfold rayleighPhase; rewrite cos_PI; field; lra|].
  split; [unfold rayleighPhase; rewrite cos_neg; reflexivity|].
  split; [|unfold miePhase; rewrite cos_neg; reflexivity].
  split; [apply miePhase_pos|].
  rewrite !miePhase_eq, cos_0.
  pose proof (cos_sqr_range angle) as Hc.
  pose proof (mie_base_range angle) as Hb.
  set (x := 1 + 0.8 ^ 2 - 2 * 0.8 * cos angle) in *.
  replace (1 + 0.8 ^ 2 - 2 * 0.8 * 1) with 0.04 by lra.
  assert (Hsx : sqrt 0.04 <= sqrt x) by (apply sqrt_le_1; lra).
  assert (Hs0 : 0 < sqrt 0.04) by (apply sqrt_lt_R0; lra).
  assert (Hden : 0.04 * sqrt 0.04 <= x * sqrt x)
    by (apply Rmult_le_compat; lra).
  assert (Hd0 : 0 < 0.04 * sqrt 0.04) by (apply Rmult_lt_0_compat; lra).
  assert (Hk : 0 < 3 / (8 * PI)) by (apply Rdiv_lt_0_compat; lra).
  set (u := x * sqrt x) in *. set (v := 0.04 * sqrt 0.04) in *.
  set (c2 := cos angle ^ 2) in *.
  assert (Hnum : 3 / (8 * PI) * ((1 - 0.8 ^ 2) * (1 + c2))
                 <= 3 / (8 * PI) * ((1 - 0.8 ^ 2) * (1 + 1 ^ 2))).
  { apply Rmult_le_compat_l; [lra|]. apply Rmult_le_compat_l; lra. }
  assert (Hn0 : 0 <= 3 / (8 * PI) * ((1 - 0.8 ^ 2) * (1 + c2))).
  { apply Rmult_le_pos; [lra|]. apply Rmult_le_pos; lra. }
  set (n1 := 3 / (8 * PI) * ((1 - 0.8 ^ 2) * (1 + c2))) in *.
  set (n2 := 3 / (8 * PI) * ((1 - 0.8 ^ 2) * (1 + 1 ^ 2))) in *.
  assert (Hw : (2 + 0.8 ^ 2) * v <= (2 + 0.8 ^ 2) * u)
    by (apply Rmult_le_compat_l; lra).
  assert (Hw0 : 0 < (2 + 0.8 ^ 2) * v) by (apply Rmult_lt_0_compat; lra).
  apply Rle_trans with (n1 / ((2 + 0.8 ^ 2) * v)).
  - unfold Rdiv. apply Rmult_le_compat_l; [exact Hn0|].
    apply Rinv_le_contravar; assumption.
  - unfold Rdiv. apply Rmult_le_compat_r; [|exact Hnum].
    left. apply Rinv_0_lt_compat. exact Hw0.
Qed.

(** ** Transmittance *)

Lemma ozoneDensity_range (h : R) :
  0 <= 1.0 - Rmin (Rabs (h - 25e3) / 15e3) 1.0 <= 1.
Proof.
  assert (Ha : 0 <= Rabs (h - 25e3) / 15e3).
  { apply Rmult_le_pos; [apply Rabs_pos | lra]. }
  unfold Rmin. destruct (Rle_dec _ _); lra.
Qed.

Lemma opticalDepthStep_nonneg (o d : Vec3) (seg : R) (st : OpticalDepth) :
  0 <= seg -> depthsNonneg st ->
  depthsNonneg (opticalDepthStep o d seg st).
Proof.
  intros Hseg [HR [HM HO]]. unfold depthsNonneg, opticalDepthStep.
  cbn [odRayleigh odMie odOzone].
  set (h := len (add o (scale d (od_t st))) - GROUND_RADIUS).
  pose proof (exp_pos (- h / RAYLEIGH_SCALE_HEIGHT)).
  pose proof (exp_pos (- h / MIE_SCALE_HEIGHT)).
  pose proof (ozoneDensity_range h) as [Hz _].
  split; [|split].
  - apply Rplus_le_le_0_compat; [exact HR|]. apply Rmult_le_pos; lra.
  - apply Rplus_le_le_0_compat; [exact HM|]. apply Rmult_le_pos; lra.
  - apply Rplus_le_le_0_compat; [exact HO|]. apply Rmult_le_pos; lra.
Qed.

Lemma fold_invariant {A B : Type} (P : A -> Prop) (f : A -> B -> A)
      (l : list B) (a : A) :
  (forall x b, P x -> P (f x b)) -> P a -> P (fold_left f l a).
Proof.
  intros Hstep. revert a.
  induction l as [| b l IH]; intros a Ha; simpl; [exact Ha|].
  apply IH, Hstep, Ha.
Qed.

Lemma exp_nonpos_le_1 (x : R) : x <= 0 -> exp x <= 1.
Proof.
  intros Hx. destruct (Req_dec x 0) as [-> | Hne].
  - rewrite exp_0. lra.
  - left. rewrite <- exp_0. apply exp_increasing. lra.
Qed.

Lemma comp_range (k : nat) (v : Vec3) (lo hi : R) :
  lo < comp 0 v <= hi -> lo < comp 1 v <= hi -> lo < comp 2 v <= hi ->
  lo < comp k v <= hi.
Proof.
  destruct v as [[v0 v1] v2]. destruct k as [| [| k]]; simpl; auto.
Qed.

Lemma integrateTransmittance_range (o d : Vec3) (dist : R) (k : nat) :
  0 <= dist -> 0 < comp k (integrateTransmittance o d dist) <= 1.
Proof.
  intros Hdist. unfold integrateTransmittance.
  set (seg := dist / INR SAMPLES).
  assert (Hseg : 0 <= seg).
  { unfold seg. apply Rmult_le_pos; [exact Hdist|].
    left. apply Rinv_0_lt_compat. unfold SAMPLES. simpl. lra. }
  set (st := fold_left _ _ _).
  assert (Hst : depthsNonneg st).
  { unfold st. apply fold_invariant.
    - intros x _ Hx. apply opticalDepthStep_nonneg; assumption.
    - unfold depthsNonneg. cbn. lra. }
  destruct Hst as [HR [HM HO]].
  apply comp_range; unfold vecExp; cbn [comp];
    unfold RAYLEIGH_SCATTER, MIE_ABSORB, OZONE_ABSORB; cbn [comp];
    (split; [apply exp_pos | apply exp_nonpos_le_1; nra]).
Qed.

(** Over the real numbers every component of a transmittance from inside
    the atmosphere lies in (0, 1]. *)
Lemma computeTransmittance_unit (height angle : R) (k : nat) :
  - GROUND_RADIUS <= height < TOP_RADIUS - GROUND_RADIUS ->
  0 < comp k (computeTransmittance height angle) <= 1.
Proof.
  intros Hh. unfold computeTransmittance.
  set (o := (0, GROUND_RADIUS + height, 0)).
  set (d := (sin angle, cos angle, 0)).
  assert (Hin : dot o o < TOP_RADIUS ^ 2).
  { unfold o, dot. unfold TOP_RADIUS, GROUND_RADIUS in *. nra. }
  destruct (intersectSphere_from_inside o d TOP_RADIUS Hin) as [Hsome Hpos].
  rewrite Hsome.
  destruct (falsy _).
  - apply comp_range; simpl; lra.
  - apply integrateTransmittance_range. lra.
Qed.

(** ** In-scattered radiance *)

Lemma scatter_coefficients_pos (k : nat) : 0 < comp k RAYLEIGH_SCATTER.
Proof.
  apply comp_pos; unfold RAYLEIGH_SCATTER; simpl; lra.
Qed.

(** What one iteration of the ray march adds to channel [k], divided by the
    segment length, is strictly positive. *)
Lemma marchStep_gain (sun view o : Vec3) (seg : R) (down : bool)
      (tc : Vec3) (st : March) (k : nat) :
  (forall j, 0 < comp j tc) ->
  exists gain,
    0 < gain /\
    comp k (inscattered (marchStep sun view o seg down tc st))
    = comp k (inscattered st) + gain * seg.
Proof.
  intros Htc. unfold marchStep. cbn [inscattered].
  set (samplePos := add o (scale view (tRay st))).
  set (sampleHeight := len samplePos - GROUND_RADIUS).
  set (up := (comp 0 samplePos / len samplePos,
              comp 1 samplePos / len samplePos,
              comp 2 samplePos / len samplePos)).
  set (tS := computeTransmittance sampleHeight
                                  (acos (Rabs (clamp (dot up view) (-1) 1)))).
  set (tL := computeTransmittance sampleHeight
                                  (acos (clamp (dot up sun) (-1) 1))).
  set (phaseR := rayleighPhase (acos (clamp (dot sun view) (-1) 1))).
  set (phaseM := miePhase (acos (clamp (dot sun view) (-1) 1))).
  set (dR := exp (- sampleHeight / RAYLEIGH_SCALE_HEIGHT)).
  set (dM := exp (- sampleHeight / MIE_SCALE_HEIGHT)).
  assert (HtS : forall j, 0 < comp j tS)
    by (intros j; apply computeTransmittance_pos).
  assert (HtL : forall j, 0 < comp j tL)
    by (intros j; apply computeTransmittance_pos).
  assert (HpR : 0 < phaseR) by apply rayleighPhase_pos.
  assert (HpM : 0 < phaseM) by apply miePhase_pos.
  assert (HdR : 0 < dR) by apply exp_pos.
  assert (HdM : 0 < dM) by apply exp_pos.
  assert (Hratio : forall j,
             0 < (if down then comp j tS / comp j tc
                  else comp j tc / comp j tS)).
  { intros j. destruct down; apply Rdiv_lt_0_compat; auto. }
  assert (Hscat : forall j,
             0 < comp j tL * (comp j RAYLEIGH_SCATTER * dR * phaseR
                              + MIE_SCATTER * dM * phaseM)).
  { intros j. apply Rmult_lt_0_compat; [apply HtL|].
    pose proof (scatter_coefficients_pos j) as Hc.
    assert (Hm : 0 < MIE_SCATTER) by (unfold MIE_SCATTER; lra).
    assert (0 < comp j RAYLEIGH_SCATTER * dR * phaseR).
    { apply Rmult_lt_0_compat; [|exact HpR].
      apply Rmult_lt_0_compat; [exact Hc | exact HdR]. }
    assert (0 < MIE_SCATTER * dM * phaseM).
    { apply Rmult_lt_0_compat; [|exact HpM].
      apply Rmult_lt_0_compat; [exact Hm | exact HdM]. }
    lra. }
  destruct k as [| [| k]]; cbn [comp];
    (eexists; split;
     [apply Rmult_lt_0_compat; [apply Hratio | apply Hscat] | reflexivity]).
Qed.

Lemma marchStep_nonneg (sun view o : Vec3) (seg : R) (down : bool)
      (tc : Vec3) (st : March) :
  0 <= seg -> (forall j, 0 < comp j tc) ->
  (forall k, 0 <= comp k (inscattered st)) ->
  forall k, 0 <= comp k (inscattered (marchStep sun view o seg down tc st)).
Proof.
  intros Hseg Htc Hst k.
  destruct (marchStep_gain sun view o seg down tc st k Htc) as [g [Hg ->]].
  specialize (Hst k). nra.
Qed.

Lemma marchStep_pos (sun view o : Vec3) (seg : R) (down : bool)
      (tc : Vec3) (st : March) :
  0 < seg -> (forall j, 0 < comp j tc) ->
  (forall k, 0 <= comp k (inscattered st)) ->
  forall k, 0 < comp k (inscattered (marchStep sun view o seg down tc st)).
Proof.
  intros Hseg Htc Hst k.
  destruct (marchStep_gain sun view o seg down tc st k Htc) as [g [Hg ->]].
  specialize (Hst k). nra.
Qed.

Lemma vmap_comp (f : R -> R) (v : Vec3) (k : nat) :
  comp k (vmap f v) = f (comp k v).
Proof.
  destruct v as [[v0 v1] v2]. destruct k as [| [| k]]; reflexivity.
Qed.

Lemma inscatter_cases (cam sun view : Vec3) (k : nat) :
  match intersectSphere cam view TOP_RADIUS with
  | Some tExitTop =>
      if Rlt_dec 0 tExitTop then 0 < comp k (inscatter cam sun view)
      else inscatter cam sun view = (0, 0, 0)
  | None => inscatter cam sun view = (0, 0, 0)
  end.
Proof.
  unfold inscatter.
  destruct (intersectSphere cam view TOP_RADIUS) as [t |]; [|reflexivity].
  destruct (Rlt_dec 0 t) as [Ht | Ht]; [|reflexivity].
  rewrite vmap_comp. unfold SUN_INTENSITY.
  set (seg := t / INR SAMPLES).
  assert (Hseg : 0 < seg).
  { unfold seg. apply Rdiv_lt_0_compat; [exact Ht|].
    unfold SAMPLES. simpl. lra. }
  set (tc := computeTransmittance _ _).
  assert (Htc : forall j, 0 < comp j tc)
    by (intros j; apply computeTransmittance_pos).
  set (down := if Rlt_dec _ 0.0 then true else false).
  change (seq 0 SAMPLES) with (seq 0 31 ++ [31%nat]).
  rewrite fold_left_app. cbn [fold_left].
  set (st := fold_left _ (seq 0 31) _).
  assert (Hst : forall j, 0 <= comp j (inscattered st)).
  { unfold st.
    apply (fold_invariant (fun s => forall j, 0 <= comp j (inscattered s))).
    - intros x _ Hx. apply marchStep_nonneg; [lra | exact Htc | exact Hx].
    - intros j. cbn [inscattered]. destruct j as [| [| j]]; simpl; lra. }
  pose proof (marchStep_pos sun view cam seg down tc st Hseg Htc Hst k).
  lra.
Qed.

(** ** View and sun directions *)

Lemma len_norm (a : Vec3) : 0 < dot a a -> len (norm a) = 1.
Proof.
  intros Ha. destruct a as [[a0 a1] a2]. unfold norm, len.
  set (q := dot (a0, a1, a2) (a0, a1, a2)) in *.
  assert (Hl : 0 < sqrt q) by (apply sqrt_lt_R0; exact Ha).
  assert (Hq : sqrt q * sqrt q = q) by (apply sqrt_sqrt; lra).
  assert (Hd : dot (a0 / sqrt q, a1 / sqrt q, a2 / sqrt q)
                   (a0 / sqrt q, a1 / sqrt q, a2 / sqrt q) = 1).
  { unfold dot. unfold dot in q.
    replace (a0 / sqrt q * (a0 / sqrt q) + a1 / sqrt q * (a1 / sqrt q)
             + a2 / sqrt q * (a2 / sqrt q))
      with ((a0 * a0 + a1 * a1 + a2 * a2) / (sqrt q * sqrt q))
      by (field; lra).
    rewrite Hq. unfold q. field. fold q. lra. }
  rewrite Hd. apply sqrt_1.
Qed.

Lemma focalZ_pos : 0 < 1.0 / tan ((FOV_DEG * 0.5 * PI) / 180.0).
Proof.
  pose proof focalZ_bounds as [Hlo _]. unfold FOV_DEG.
  replace (75 * 0.5 * PI / 180.0) with (75 * 0.5 * PI / 180.0) by reflexivity.
  lra.
Qed.

Lemma sampleS_nonneg (i : nat) : 0 <= sampleS i.
Proof.
  unfold sampleS. rewrite INR_SAMPLES_pred.
  pose proof (pos_INR i). lra.
Qed.

Lemma sampleS_increasing (i j : nat) : (i < j)%nat -> sampleS i < sampleS j.
Proof.
  intros Hij. unfold sampleS. rewrite INR_SAMPLES_pred.
  apply lt_INR in Hij. lra.
Qed.

(** The vertical component of the unit vector along [(0, s, f)]. *)
Lemma elevation_increasing (s1 s2 f : R) :
  0 < f -> 0 <= s1 < s2 ->
  comp 1 (norm (0, s1, f)) < comp 1 (norm (0, s2, f)).
Proof.
  intros Hf [H1 H12]. unfold norm, len, dot. cbn [comp].
  set (q1 := 0 * 0 + s1 * s1 + f * f). set (q2 := 0 * 0 + s2 * s2 + f * f).
  assert (Hq1 : 0 < q1) by (unfold q1; nra).
  assert (Hq2 : 0 < q2) by (unfold q2; nra).
  assert (L1 : 0 < sqrt q1) by (apply sqrt_lt_R0; exact Hq1).
  assert (L2 : 0 < sqrt q2) by (apply sqrt_lt_R0; exact Hq2).
  assert (E1 : sqrt q1 * sqrt q1 = q1) by (apply sqrt_sqrt; lra).
  assert (E2 : sqrt q2 * sqrt q2 = q2) by (apply sqrt_sqrt; lra).
  assert (Hcross : s1 * sqrt q2 < s2 * sqrt q1).
  { destruct (Rlt_dec (s1 * sqrt q2) (s2 * sqrt q1)) as [|Hn]; [assumption|].
    exfalso.
    assert (Hge : s2 * sqrt q1 <= s1 * sqrt q2) by lra.
    assert (H0 : 0 <= s2 * sqrt q1) by (apply Rmult_le_pos; lra).
    assert (Hsq : (s2 * sqrt q1) * (s2 * sqrt q1)
                  <= (s1 * sqrt q2) * (s1 * sqrt q2))
      by (apply Rmult_le_compat; lra).
    replace ((s2 * sqrt q1) * (s2 * sqrt q1))
      with (s2 * s2 * (sqrt q1 * sqrt q1)) in Hsq by ring.
    replace ((s1 * sqrt q2) * (s1 * sqrt q2))
      with (s1 * s1 * (sqrt q2 * sqrt q2)) in Hsq by ring.
    rewrite E1, E2 in Hsq. unfold q1, q2 in Hsq.
    assert (Hf2 : 0 < f * f) by nra.
    assert (Hs : s1 * s1 < s2 * s2) by nra.
    nra. }
  apply Rmult_lt_reg_r with (sqrt q1 * sqrt q2);
    [apply Rmult_lt_0_compat; assumption|].
  replace (s1 / sqrt q1 * (sqrt q1 * sqrt q2)) with (s1 * sqrt q2)
    by (field; lra).
  replace (s2 / sqrt q2 * (sqrt q1 * sqrt q2)) with (s2 * sqrt q1)
    by (field; lra).
  exact Hcross.
Qed.

Lemma half_fov_trig :
  0 < sin ((FOV_DEG * 0.5 * PI) / 180.0) /\
  0 < cos ((FOV_DEG * 0.5 * PI) / 180.0).
Proof.
  pose proof sin_half_fov as [Hs _]. pose proof cos_half_fov as [Hc _].
  unfold FOV_DEG. split; lra.
Qed.

(** X15: the directions [renderGradient] traces.  The sun direction is the
    unit vector (cos altitude, sin altitude, 0).  Every view direction is a
    unit vector in the plane x = 0 that looks forward; the one of index 0 is
    horizontal, the vertical component grows strictly with the index, and
    the last one, of index [SAMPLES - 1], is elevated by half the field of
    view, 37.5 degrees. *)
Theorem traced_directions (altitude : R) (i j : nat) :
  let focalZ := 1.0 / tan ((FOV_DEG * 0.5 * PI) / 180.0) in
  let viewDirection (n : nat) := norm (0, sampleS n, focalZ) in
  norm (cos altitude, sin altitude, 0) = (cos altitude, sin altitude, 0) /\
  len (viewDirection i) = 1 /\
  comp 0 (viewDirection i) = 0 /\
  0 < comp 2 (viewDirection i) /\
  viewDirection 0%nat = (0, 0, 1) /\
  ((i < j)%nat -> comp 1 (viewDirection i) < comp 1 (viewDirection j)) /\
  comp 1 (viewDirection (SAMPLES - 1)%nat)
  = sin ((FOV_DEG * 0.5 * PI) / 180.0).
Proof.
  intros focalZ viewDirection.
  pose proof focalZ_pos as Hf. fold focalZ in Hf.
  assert (Hq : forall n, 0 < dot (0, sampleS n, focalZ) (0, sampleS n, focalZ)).
  { intros n. unfold dot. pose proof (sampleS_nonneg n). nra. }
  split; [|split; [|split; [|split; [|split; [|split]]]]].
  - unfold norm, len, dot.
    replace (cos altitude * cos altitude + sin altitude * sin altitude + 0 * 0)
      with 1.
    + rewrite sqrt_1. f_equal; [f_equal|]; field.
    + pose proof (sin2_cos2 altitude) as H. unfold Rsqr in H. lra.
  - apply len_norm, Hq.
  - unfold viewDirection, norm. cbn [comp]. unfold Rdiv. ring.
  - unfold viewDirection, norm. cbn [comp].
    apply Rdiv_lt_0_compat; [exact Hf|].
    unfold len. apply sqrt_lt_R0, Hq.
  - unfold viewDirection, norm, len, dot, sampleS.
    change (INR 0) with 0.
    replace (0 * 0 + 0 / INR (SAMPLES - 1) * (0 / INR (SAMPLES - 1))
             + focalZ * focalZ) with (focalZ * focalZ)
      by (rewrite INR_SAMPLES_pred; field).
    rewrite sqrt_square by lra.
    rewrite INR_SAMPLES_pred.
    f_equal; [f_equal|]; field; lra.
  - intros Hij. apply elevation_increasing; [exact Hf|].
    split; [apply sampleS_nonneg | apply sampleS_increasing, Hij].
  - destruct half_fov_trig as [Hs Hc].
    set (theta := (FOV_DEG * 0.5 * PI) / 180.0) in *.
    assert (Hone : sampleS (SAMPLES - 1) = 1).
    { unfold sampleS. rewrite INR_SAMPLES_pred. lra. }
    unfold viewDirection, norm, len, dot. cbn [comp]. rewrite Hone.
    assert (Hfz : focalZ = cos theta / sin theta).
    { unfold focalZ. fold theta. unfold tan.
      replace 1.0 with 1 by lra. field. lra. }
    assert (Hsc : sin theta * sin theta + cos theta * cos theta = 1).
    { pose proof (sin2_cos2 theta) as H. unfold Rsqr in H. lra. }
    replace (0 * 0 + 1 * 1 + focalZ * focalZ)
      with ((/ sin theta) * (/ sin theta)).
    + rewrite sqrt_square by (left; apply Rinv_0_lt_compat; exact Hs).
      field. lra.
    + rewrite Hfz.
      replace (0 * 0 + 1 * 1 + cos theta / sin theta * (cos theta / sin theta))
        with ((sin theta * sin theta + cos theta * cos theta)
              / (sin theta * sin theta)) by (field; lra).
      rewrite Hsc. field. lra.
Qed.

Lemma traced_directions_witness :
  comp 1 (norm (0, sampleS 0, 1.0 / tan ((FOV_DEG * 0.5 * PI) / 180.0)))
  < comp 1 (norm (0, sampleS 1, 1.0 / tan ((FOV_DEG * 0.5 * PI) / 180.0))).
Proof.
  apply (proj1 (proj2 (proj2 (proj2 (proj2 (proj2
           (traced_directions 0 0 1))))))).
  lia.
Defined.

(** ** The sort of [renderGradient] reverses the samples *)

Section SortDescending.

Variable A : Type.
Variable key : A -> R.

Let compareFn (a b : A) : R := key a - key b.

Lemma sortBy_descending_from (l acc : list A) :
  StronglySorted (fun a b => key b < key a) l ->
  (forall x y, In x l -> In y acc -> key x < key y) ->
  fold_left (fun sorted x => insertBy compareFn x sorted) l acc
  = rev l ++ acc.
Proof.
  revert acc. induction l as [| x l IH]; intros acc Hs Hlt; [reflexivity|].
  inversion Hs as [| ? ? Hs' Hall]; subst.
  cbn [fold_left rev].
  assert (Hins : insertBy compareFn x acc = x :: acc).
  { destruct acc as [| y acc']; [reflexivity|]. cbn [insertBy].
    assert (key x < key y) by (apply Hlt; left; reflexivity).
    unfold compareFn. destruct (Rlt_dec (key x - key y) 0); [reflexivity | lra]. }
  rewrite Hins, IH.
  - rewrite <- app_assoc. reflexivity.
  - exact Hs'.
  - intros a b Ha [<- | Hb].
    + exact (proj1 (Forall_forall _ _) Hall a Ha).
    + apply Hlt; [right; exact Ha | exact Hb].
Qed.

Lemma sortBy_descending (l : list A) :
  StronglySorted (fun a b => key b < key a) l ->
  sortBy compareFn l = rev l.
Proof.
  intros Hs. unfold sortBy.
  rewrite sortBy_descending_from; [apply app_nil_r | exact Hs |].
  intros x y _ [].
Qed.

End SortDescending.

Lemma map_seq_descending {B : Type} (key : B -> R) (f : nat -> B)
      (start n : nat) :
  (forall i j, (i < j)%nat -> key (f j) < key (f i)) ->
  StronglySorted (fun a b => key b < key a) (map f (seq start n)).
Proof.
  intros Hdec. revert start.
  induction n as [| n IH]; intros start; cbn [seq map]; constructor.
  - apply IH.
  - apply Forall_forall. intros b Hb.
    destruct (proj1 (in_map_iff _ _ _) Hb) as [j [<- Hj]].
    apply Hdec. destruct (proj1 (in_seq _ _ _) Hj). lia.
Qed.

Lemma sampleStops_descending (altitude : R) :
  StronglySorted (fun a b => percent b < percent a) (sampleStops altitude).
Proof.
  rewrite sampleStops_map. apply map_seq_descending.
  intros i j Hij. rewrite !percent_sampleStop.
  apply lt_INR in Hij. lra.
Qed.

(** X16: the percents fall as the sample index grows, so the ascending
    sort of line 241 reverses the array: after it the stop of index [j] is
    the view sample [SAMPLES - 1 - j], at percent [100 j / 31]. *)
Theorem sortedStops_reversed (altitude : R) :
  sortedStops altitude = rev (sampleStops altitude) /\
  forall j, (j < SAMPLES)%nat ->
    nth_error (sortedStops altitude) j
    = Some (sampleStop altitude (SAMPLES - 1 - j)) /\
    percent (sampleStop altitude (SAMPLES - 1 - j)) = 100 * INR j / 31.
Proof.
  assert (Hrev : sortedStops altitude = rev (sampleStops altitude)).
  { unfold sortedStops.
    apply (sortBy_descending Stop percent), sampleStops_descending. }
  split; [exact Hrev|].
  intros j Hj. split.
  - rewrite Hrev, nth_error_rev, sampleStops_length.
    destruct (Nat.ltb_spec j SAMPLES) as [_ | Hge]; [|lia].
    rewrite sampleStops_map.
    replace (SAMPLES - S j)%nat with (SAMPLES - 1 - j)%nat by lia.
    apply nth_error_map_seq. lia.
  - rewrite percent_sampleStop.
    rewrite !minus_INR by (unfold SAMPLES in *; lia).
    unfold SAMPLES. simpl INR. lra.
Qed.

Lemma sortedStops_reversed_witness :
  nth_error (sortedStops 0) 0 = Some (sampleStop 0 (SAMPLES - 1 - 0)).
Proof.
  refine (proj1 (proj2 (sortedStops_reversed 0) 0%nat _)).
  unfold SAMPLES. lia.
Defined.

(** ** The sunrise/sunset correction *)

Lemma twilight_bias_range (t : R) :
  0 <= t <= 1 ->
  - (0.5 * DEG_TO_RAD) <= - (t * t * (3 - 2 * t)) * 0.5 * (PI / 180) <= 0.
Proof.
  intros Ht. pose proof DEG_TO_RAD_pos as Hd. unfold DEG_TO_RAD in *.
  destruct (smoothstep_unit t Ht) as [Hlo Hhi].
  set (s := t * t * (3 - 2 * t)) in *. nra.
Qed.

(** X17: [correctAltitude] never raises the altitude and lowers it by at
    most half a degree, whatever the three dates. *)
Theorem correctAltitude_range (now : Date) (sunAltitude : R)
        (sunTimes : SunTimes) (latitude longitude : R) :
  sunAltitude - 0.5 * DEG_TO_RAD
  <= correctAltitude now sunAltitude sunTimes latitude longitude
  <= sunAltitude.
Proof.
  pose proof DEG_TO_RAD_pos as Hd.
  unfold correctAltitude.
  set (tNow := IZR (getTime now)).
  set (tSunrise := IZR (getTime (sunrise sunTimes))).
  set (tSunset := IZR (getTime (sunset sunTimes))).
  destruct (Rle_dec (tSunset - tSunrise) 0) as [Hspan | Hspan]; [lra|].
  destruct (Rlt_dec _ 0) as [Hbefore | Hbefore].
  - destruct (Rlt_dec _ (tSunrise - tNow)) as [Hfar | Hnear]; [lra|].
    assert (Hpos : 0 < tSunrise - tNow).
    { assert (Hn : (tNow - tSunrise) * / (tSunset - tSunrise) < 0)
        by exact Hbefore.
      assert (Hi : 0 < / (tSunset - tSunrise))
        by (apply Rinv_0_lt_compat; lra).
      nra. }
    pose proof (twilight_bias_range
                  (1 - (tSunrise - tNow) / (30 * 60 * 1000 * 2))) as Hb.
    lra.
  - destruct (Rlt_dec 1 _) as [Hafter | Hday]; [|lra].
    destruct (Rlt_dec _ (tNow - tSunset)) as [Hfar | Hnear]; [lra|].
    assert (Hpos : 0 < tNow - tSunset).
    { assert (Hn : 1 < (tNow - tSunrise) * / (tSunset - tSunrise))
        by exact Hafter.
      assert (Hi : 0 < / (tSunset - tSunrise))
        by (apply Rinv_0_lt_compat; lra).
      assert (He : (tSunset - tSunrise) * / (tSunset - tSunrise) = 1)
        by (apply Rinv_r; lra).
      nra. }
    pose proof (twilight_bias_range
                  (1 - (tNow - tSunset) / (30 * 60 * 1000 * 2))) as Hb.
    lra.
Qed.

Lemma dayPos_sign (tNow tSunrise tSunset : R) :
  tSunrise < tSunset ->
  ((tNow - tSunrise) / (tSunset - tSunrise) < 0 <-> tNow < tSunrise) /\
  (1 < (tNow - tSunrise) / (tSunset - tSunrise) <-> tSunset < tNow).
Proof.
  intros Hspan.
  assert (Hi : 0 < / (tSunset - tSunrise)) by (apply Rinv_0_lt_compat; lra).
  assert (He : (tSunset - tSunrise) * / (tSunset - tSunrise) = 1)
    by (apply Rinv_r; lra).
  unfold Rdiv. split; split; intros H; nra.
Qed.

(** X18: [correctAltitude] returns the altitude unchanged when the sunset
    is not after the sunrise, between sunrise and sunset (both included),
    and more than an hour before the sunrise or after the sunset. *)
Theorem correctAltitude_unchanged (now : Date) (sunAltitude : R)
        (sunTimes : SunTimes) (latitude longitude : R) :
  let tNow := getTime now in
  let tSunrise := getTime (sunrise sunTimes) in
  let tSunset := getTime (sunset sunTimes) in
  (tSunset <= tSunrise \/
   tSunrise <= tNow <= tSunset \/
   tNow < tSunrise - 3600000 \/
   tSunset + 3600000 < tNow)%Z ->
  correctAltitude now sunAltitude sunTimes latitude longitude = sunAltitude.
Proof.
  intros tNow tSunrise tSunset Hcase.
  unfold correctAltitude. fold tNow. fold tSunrise. fold tSunset.
  destruct (Rle_dec (IZR tSunset - IZR tSunrise) 0) as [Hspan | Hspan];
    [reflexivity|].
  assert (Hlt : IZR tSunrise < IZR tSunset) by lra.
  destruct (dayPos_sign (IZR tNow) _ _ Hlt) as [Hb Ha].
  destruct Hcase as [H | [[H1 H2] | [H | H]]].
  - apply IZR_le in H. lra.
  - apply IZR_le in H1, H2.
    destruct (Rlt_dec _ 0) as [Hn |]; [apply (proj1 Hb) in Hn; lra|].
    destruct (Rlt_dec 1 _) as [Hn |]; [apply (proj1 Ha) in Hn; lra|].
    reflexivity.
  - apply IZR_lt in H. rewrite minus_IZR in H.
    destruct (Rlt_dec _ 0) as [Hn | Hn]; [|exfalso; apply Hn, Hb; lra].
    destruct (Rlt_dec _ (IZR tSunrise - IZR tNow)); [reflexivity | lra].
  - apply IZR_lt in H. rewrite plus_IZR in H.
    destruct (Rlt_dec _ 0) as [Hn |]; [apply (proj1 Hb) in Hn; lra|].
    destruct (Rlt_dec 1 _) as [Hn | Hn]; [|exfalso; apply Hn, Ha; lra].
    destruct (Rlt_dec _ (IZR tNow - IZR tSunset)); [reflexivity | lra].
Qed.

Lemma correctAltitude_unchanged_witness :
  correctAltitude (mkDate 43200000) 0.5
                  (mkSunTimes (mkDate 21600000) (mkDate 64800000)) 35 139
  = 0.5.
Proof.
  apply (correctAltitude_unchanged
           (mkDate 43200000) 0.5
           (mkSunTimes (mkDate 21600000) (mkDate 64800000)) 35 139).
  simpl. lia.
Defined.

(** X19: within the hour before the sunrise, and within the hour after the
    sunset, the altitude is lowered by [0.5 s(t)] degrees, where [t] runs
    from 0, an hour away, to 1, at the sunrise or the sunset, and
    [s(t) = t^2 (3 - 2 t)]; the correction is strictly negative less than an
    hour away, and [delta] milliseconds before the sunrise it is the same as
    [delta] milliseconds after the sunset. *)
Theorem correctAltitude_twilight (tSunrise tSunset delta : Z)
        (sunAltitude latitude longitude : R) :
  (tSunrise < tSunset)%Z -> (0 < delta <= 3600000)%Z ->
  let sunTimes := mkSunTimes (mkDate tSunrise) (mkDate tSunset) in
  let t := 1 - IZR delta / 3600000 in
  let dawn :=
    correctAltitude (mkDate (tSunrise - delta)) sunAltitude sunTimes
                    latitude longitude in
  let dusk :=
    correctAltitude (mkDate (tSunset + delta)) sunAltitude sunTimes
                    latitude longitude in
  dawn = sunAltitude - 0.5 * (t * t * (3 - 2 * t)) * DEG_TO_RAD /\
  dusk = dawn /\
  ((delta < 3600000)%Z -> dawn < sunAltitude).
Proof.
  intros Hspan [Hd0 Hd1] sunTimes t dawn dusk.
  apply IZR_lt in Hspan, Hd0. apply IZR_le in Hd1.
  destruct (dayPos_sign (IZR (tSunrise - delta)) _ _ Hspan) as [Hb _].
  destruct (dayPos_sign (IZR (tSunset + delta)) _ _ Hspan) as [Hb' Ha'].
  rewrite minus_IZR in Hb. rewrite plus_IZR in Hb', Ha'.
  assert (Hdawn : dawn
                  = sunAltitude - 0.5 * (t * t * (3 - 2 * t)) * DEG_TO_RAD).
  { unfold dawn, correctAltitude, sunTimes. cbn [getTime sunrise sunset].
    rewrite minus_IZR.
    destruct (Rle_dec (IZR tSunset - IZR tSunrise) 0); [lra|].
    destruct (Rlt_dec _ 0) as [Hn | Hn]; [|exfalso; apply Hn, Hb; lra].
    destruct (Rlt_dec _ _) as [Hfar | Hnear]; [lra|].
    unfold DEG_TO_RAD, t.
    replace (IZR tSunrise - (IZR tSunrise - IZR delta)) with (IZR delta)
      by ring.
    field. }
  assert (Hdusk : dusk
                  = sunAltitude - 0.5 * (t * t * (3 - 2 * t)) * DEG_TO_RAD).
  { unfold dusk, correctAltitude, sunTimes. cbn [getTime sunrise sunset].
    rewrite plus_IZR.
    destruct (Rle_dec (IZR tSunset - IZR tSunrise) 0); [lra|].
    destruct (Rlt_dec _ 0) as [Hn |]; [apply (proj1 Hb') in Hn; lra|].
    destruct (Rlt_dec 1 _) as [Hn | Hn]; [|exfalso; apply Hn, Ha'; lra].
    destruct (Rlt_dec _ _) as [Hfar | Hnear]; [lra|].
    unfold DEG_TO_RAD, t.
    replace (IZR tSunset + IZR delta - IZR tSunset) with (IZR delta) by ring.
    field. }
  split; [exact Hdawn|]. split; [congruence|].
  intros Hlt. apply IZR_lt in Hlt. rewrite Hdawn.
  pose proof DEG_TO_RAD_pos as Hdeg.
  assert (Ht : 0 < t <= 1) by (unfold t; lra).
  assert (Hs : 0 < t * t * (3 - 2 * t)).
  { apply Rmult_lt_0_compat; [apply Rmult_lt_0_compat|]; lra. }
  nra.
Qed.

Lemma correctAltitude_twilight_witness :
  correctAltitude (mkDate (64800000 + 1800000)) 0
                  (mkSunTimes (mkDate 21600000) (mkDate 64800000)) 35 139
  = correctAltitude (mkDate (21600000 - 1800000)) 0
                    (mkSunTimes (mkDate 21600000) (mkDate 64800000)) 35 139.
Proof.
  refine (proj1 (proj2 (correctAltitude_twilight
                          21600000 64800000 1800000 0 35 139 _ _))); lia.
Defined.

(** ** The text of the stops *)




Import Fetch.

(** ** The cache of [fetchSunTimes] *)

Lemma cache_get_delete_same (cache : Cache) (key : string) :
  cache_get (cache_delete cache key) key = None.
Proof.
  induction cache as [| [k v] rest IH]; [reflexivity|].
  unfold cache_delete in *. cbn [filter fst].
  destruct (String.eqb k key) eqn:E; cbn [negb]; [exact IH|].
  cbn [cache_get]. rewrite E. exact IH.
Qed.

Lemma cache_get_delete_other (cache : Cache) (key key' : string) :
  key' <> key ->
  cache_get (cache_delete cache key) key' = cache_get cache key'.
Proof.
  intros Hne. induction cache as [| [k v] rest IH]; [reflexivity|].
  unfold cache_delete in *. cbn [filter fst].
  destruct (String.eqb k key) eqn:E; cbn [negb cache_get].
  - apply String.eqb_eq in E. subst k.
    destruct (String.eqb key key') eqn:E'.
    + apply String.eqb_eq in E'. congruence.
    + exact IH.
  - rewrite IH. reflexivity.
Qed.

Lemma cache_delete_absent (cache : Cache) (key : string) :
  cache_get cache key = None -> cache_delete cache key = cache.
Proof.
  induction cache as [| [k v] rest IH]; [reflexivity|].
  cbn [cache_get]. unfold cache_delete in *. cbn [filter fst].
  destruct (String.eqb k key); [discriminate|].
  intros H. cbn [negb]. f_equal. apply IH, H.
Qed.

Lemma cache_get_set_same (cache : Cache) (key : string)
      (v : Promise SunTimes) :
  cache_get (cache_set cache key v) key = Some v.
Proof.
  unfold cache_set. cbn [cache_get]. now rewrite String.eqb_refl.
Qed.

Lemma cache_get_set_other (cache : Cache) (key key' : string)
      (v : Promise SunTimes) :
  key' <> key ->
  cache_get (cache_set cache key v) key' = cache_get cache key'.
Proof.
  intros Hne. unfold cache_set. cbn [cache_get].
  destruct (String.eqb key key') eqn:E.
  - apply String.eqb_eq in E. congruence.
  - apply cache_get_delete_other, Hne.
Qed.

Lemma cache_delete_set_absent (cache : Cache) (key : string)
      (v : Promise SunTimes) :
  cache_get cache key = None ->
  cache_delete (cache_set cache key v) key = cache.
Proof.
  intros Hc. unfold cache_set. rewrite (cache_delete_absent _ _ Hc).
  unfold cache_delete. cbn [filter fst].
  rewrite String.eqb_refl. cbn [negb].
  apply (cache_delete_absent _ _ Hc).
Qed.

Lemma Math_round_bounds (x : R) :
  IZR (Math_round x) - / 2 <= x < IZR (Math_round x) + / 2.
Proof.
  unfold Math_round. pose proof (Zfloor_bound (x + / 2)). lra.
Qed.

(** Two longitudes that round to the same degree lie in the same nominal
    time zone: the zone boundaries, at 7.5 degrees plus a multiple of 15,
    are boundaries of the rounding too. *)
Lemma same_degree_same_zone (x y : R) :
  Math_round x = Math_round y ->
  Math_round (x / 15) = Math_round (y / 15).
Proof.
  intros Hxy.
  pose proof (Math_round_bounds x) as Hx.
  pose proof (Math_round_bounds y) as Hy. rewrite <- Hxy in Hy.
  pose proof (Math_round_bounds (x / 15)) as Hk.
  set (m := Math_round x) in *. set (k := Math_round (x / 15)) in *.
  clearbody m k.
  assert (Hlo : (15 * k - 8 < m)%Z).
  { apply lt_IZR. rewrite minus_IZR, mult_IZR. lra. }
  assert (Hhi : (m < 15 * k + 8)%Z).
  { apply lt_IZR. rewrite plus_IZR, mult_IZR. lra. }
  assert (Hlo' : IZR (15 * k - 7) <= IZR m) by (apply IZR_le; lia).
  assert (Hhi' : IZR m <= IZR (15 * k + 7)) by (apply IZR_le; lia).
  rewrite minus_IZR, mult_IZR in Hlo'. rewrite plus_IZR, mult_IZR in Hhi'.
  symmetry. unfold Math_round. apply Zfloor_eq. lra.
Qed.

Section FetchProperties.

Variable getUTCFullYear : Z -> Z.
Variable getUTCMonth : Z -> Z.
Variable getUTCDate : Z -> Z.
Variable parseDate : string -> Date.
Variable SunTimesProvider : Type.
Variable isDefaultSunTimesProvider : SunTimesProvider -> bool.
Variable toString : SunTimesProvider -> string.
Variable call : SunTimesProvider -> SunTimesRequest -> Promise SunTimesResponse.

Let fetch :=
  fetchSunTimes getUTCFullYear getUTCMonth getUTCDate parseDate
                SunTimesProvider isDefaultSunTimesProvider toString call.
Let keyOf :=
  cacheKey getUTCFullYear getUTCMonth getUTCDate
           SunTimesProvider isDefaultSunTimesProvider toString.

(** X21: once a call of [fetchSunTimes] has been answered, every later
    call whose cache key is the same gets the same sun times from the
    cache, sends no request to any provider and leaves the cache as it is;
    the entries of the other keys are those of before. *)
Theorem fetchSunTimes_answers_from_cache
        (latitude longitude : R) (date : Date) (provider : SunTimesProvider)
        (cache : Cache) (sunTimes : SunTimes) :
  outcome (fetch latitude longitude date provider cache) = Some sunTimes ->
  let cache1 := cacheAfter (fetch latitude longitude date provider cache) in
  (forall latitude' longitude' date' provider',
      keyOf latitude' longitude' date' provider'
      = keyOf latitude longitude date provider ->
      fetch latitude' longitude' date' provider' cache1
      = {| outcome := Some sunTimes; cacheAfter := cache1;
           requests := [] |}) /\
  (forall key, key <> keyOf latitude longitude date provider ->
               cache_get cache1 key = cache_get cache key).
Proof.
  intros Hout cache1.
  assert (Hget : cache_get cache1 (keyOf latitude longitude date provider)
                 = Some (Some sunTimes) /\
                 forall key, key <> keyOf latitude longitude date provider ->
                             cache_get cache1 key = cache_get cache key).
  { unfold cache1. unfold fetch, fetchSunTimes in Hout |- *.
    fold keyOf in Hout |- *.
    destruct (cache_get cache (keyOf latitude longitude date provider))
      as [promise |] eqn:Hc.
    - cbn [outcome cacheAfter] in *. subst promise. split; [exact Hc|].
      reflexivity.
    - destruct (call provider _) as [result |].
      + cbn [outcome cacheAfter] in *. split.
        * rewrite cache_get_set_same. f_equal. exact Hout.
        * intros key Hne. apply cache_get_set_other, Hne.
      + cbn [outcome] in Hout. discriminate. }
  destruct Hget as [Hsame Hother].
  split; [|exact Hother].
  intros latitude' longitude' date' provider' Hkey.
  unfold fetch, fetchSunTimes. fold keyOf. rewrite Hkey, Hsame.
  reflexivity.
Qed.

(** X22: when the key is not in the cache and the provider fails, the
    call fails, one request has been sent, and the cache is left exactly as
    it was: the failure is not cached and the next call asks again. *)
Theorem fetchSunTimes_failure_not_cached
        (latitude longitude : R) (date : Date) (provider : SunTimesProvider)
        (cache : Cache) :
  let request :=
    {| req_latitude := latitude; req_longitude := longitude;
       req_date := dateStr getUTCFullYear getUTCMonth getUTCDate
                           longitude date |} in
  cache_get cache (keyOf latitude longitude date provider) = None ->
  call provider request = None ->
  fetch latitude longitude date provider cache
  = {| outcome := None; cacheAfter := cache; requests := [request] |}.
Proof.
  intros request Hc Hcall.
  unfold fetch, fetchSunTimes. fold keyOf. rewrite Hc.
  fold request. rewrite Hcall.
  f_equal. apply cache_delete_set_absent, Hc.
Qed.

(** X23: the key rounds the coordinates to whole degrees and tells custom
    providers apart by their text only: two calls for the same date whose
    latitudes round to the same degree, whose longitudes do, and whose
    providers have the same identifier, share one cache entry. *)
Theorem cacheKey_shared
        (latitude longitude latitude' longitude' : R) (date : Date)
        (provider provider' : SunTimesProvider) :
  Math_round latitude = Math_round latitude' ->
  Math_round longitude = Math_round longitude' ->
  providerId SunTimesProvider isDefaultSunTimesProvider toString provider
  = providerId SunTimesProvider isDefaultSunTimesProvider toString provider' ->
  keyOf latitude longitude date provider
  = keyOf latitude' longitude' date provider'.
Proof.
  intros Hlat Hlng Hid. unfold keyOf, cacheKey, dateStr.
  rewrite Hlat, Hlng, Hid, (same_degree_same_zone _ _ Hlng).
  reflexivity.
Qed.

End FetchProperties.

Lemma fetchSunTimes_answers_from_cache_witness :
  let fetch :=
    fetchSunTimes (fun _ => 2024%Z) (fun _ => 5%Z) (fun _ => 21%Z)
                  (fun _ => mkDate 0) unit (fun _ => true)
                  (fun _ => EmptyString)
                  (fun _ _ =>
                     Some (mkSunTimesResponse (IsDate (mkDate 21600000))
                                              (IsDate (mkDate 64800000)))) in
  fetch 35 139 (mkDate 0) tt
        (cacheAfter (fetch 35 139 (mkDate 0) tt []))
  = {| outcome := Some (mkSunTimes (mkDate 21600000) (mkDate 64800000));
       cacheAfter := cacheAfter (fetch 35 139 (mkDate 0) tt []);
       requests := [] |}.
Proof.
  intros fetch.
  refine (proj1 (fetchSunTimes_answers_from_cache
                   (fun _ => 2024%Z) (fun _ => 5%Z) (fun _ => 21%Z)
                   (fun _ => mkDate 0) unit (fun _ => true)
                   (fun _ => EmptyString)
                   (fun _ _ =>
                      Some (mkSunTimesResponse (IsDate (mkDate 21600000))
                                               (IsDate (mkDate 64800000))))
                   35 139 (mkDate 0) tt []
                   (mkSunTimes (mkDate 21600000) (mkDate 64800000)) _)
                35 139 (mkDate 0) tt _); reflexivity.
Defined.

Lemma fetchSunTimes_failure_not_cached_witness :
  outcome (fetchSunTimes (fun _ => 2024%Z) (fun _ => 5%Z) (fun _ => 21%Z)
                         (fun _ => mkDate 0) unit (fun _ => true)
                         (fun _ => EmptyString) (fun _ _ => None)
                         35 139 (mkDate 0) tt [])
  = None.
Proof.
  rewrite (fetchSunTimes_failure_not_cached
             (fun _ => 2024%Z) (fun _ => 5%Z) (fun _ => 21%Z)
             (fun _ => mkDate 0) unit (fun _ => true)
             (fun _ => EmptyString) (fun _ _ => None)
             35 139 (mkDate 0) tt []); reflexivity.
Defined.

Lemma cacheKey_shared_witness :
  cacheKey (fun _ => 2024%Z) (fun _ => 5%Z) (fun _ => 21%Z)
           unit (fun _ => true) (fun _ => EmptyString)
           35.2 139 (mkDate 0) tt
  = cacheKey (fun _ => 2024%Z) (fun _ => 5%Z) (fun _ => 21%Z)
             unit (fun _ => true) (fun _ => EmptyString)
             35.4 139 (mkDate 0) tt.
Proof.
  apply (cacheKey_shared (fun _ => 2024%Z) (fun _ => 5%Z) (fun _ => 21%Z)
                         unit (fun _ => true) (fun _ => EmptyString)
                         35.2 139 35.4 139 (mkDate 0) tt tt).
  - transitivity 35%Z; [|symmetry]; apply Zfloor_eq; lra.
  - reflexivity.
  - reflexivity.
Defined.

(** * Safety of the ray march *)

(** ** A floor under the transmittance of an upward ray *)

Lemma exp_INR_le (n : nat) : exp (INR n) <= 3 ^ n.
Proof.
  induction n as [| n IH].
  - simpl. rewrite exp_0. lra.
  - rewrite S_INR, exp_plus. simpl pow.
    pose proof exp_le_3 as H3. pose proof (exp_pos (INR n)) as Hp.
    pose proof (exp_pos 1) as H1.
    rewrite (Rmult_comm 3).
    apply Rmult_le_compat; lra.
Qed.

Lemma exp_floor (n : nat) (x : R) : - INR n <= x -> / 3 ^ n <= exp x.
Proof.
  intros Hx.
  assert (Hn : exp (- INR n) <= exp x).
  { destruct (Req_dec (- INR n) x) as [<- | Hne]; [lra|].
    left. apply exp_increasing. lra. }
  assert (Hi : / 3 ^ n <= exp (- INR n)).
  { rewrite exp_Ropp. apply Rinv_le_contravar; [apply exp_pos|].
    apply exp_INR_le. }
  lra.
Qed.

Lemma fold_seq_invariant {A : Type} (P : nat -> A -> Prop)
      (f : A -> nat -> A) (n : nat) (a : A) :
  P 0%nat a ->
  (forall j x, (j < n)%nat -> P j x -> P (S j) (f x j)) ->
  P n (fold_left f (seq 0 n) a).
Proof.
  intros H0 Hstep.
  assert (Hgen : forall m start x,
             (start + m <= n)%nat -> P start x ->
             P (start + m)%nat (fold_left f (seq start m) x)).
  { induction m as [| m IH]; intros start x Hle Hx.
    - rewrite Nat.add_0_r. exact Hx.
    - cbn [seq fold_left].
      replace (start + S m)%nat with (S start + m)%nat by lia.
      apply IH; [lia|]. apply Hstep; [lia | exact Hx]. }
  apply (Hgen n 0%nat a); [lia | exact H0].
Qed.

(** What [intersectSphere] returns solves the quadratic. *)
Lemma intersectSphere_solves (p d : Vec3) (r t : R) :
  intersectSphere p d r = Some t ->
  (t + dot p d) ^ 2 = dot p d ^ 2 - (dot p p - r ^ 2).
Proof.
  unfold intersectSphere.
  set (b := dot p d). set (D := b ^ 2 - (dot p p - r ^ 2)).
  destruct (Rlt_dec D 0) as [| HD]; [discriminate|].
  assert (Hs : sqrt D * sqrt D = D) by (apply sqrt_sqrt; lra).
  destruct (Rlt_dec (- b - sqrt D) 0); intros H; injection H as <-; nra.
Qed.

Lemma len_at_least (v : Vec3) (rho : R) :
  0 <= rho -> rho * rho <= dot v v -> rho <= len v.
Proof.
  intros Hr Hv. unfold len.
  apply Rle_trans with (sqrt (rho * rho)).
  - rewrite sqrt_square by exact Hr. lra.
  - apply sqrt_le_1_alt. exact Hv.
Qed.

(** The optical depths of [n] steps along a segment of non-negative length
    on which no sample lies below the ground: each is at most the length
    covered. *)
Lemma opticalDepth_covered (o d : Vec3) (seg : R) (n : nat) :
  0 <= seg ->
  (forall t, 0 <= t -> GROUND_RADIUS <= len (add o (scale d t))) ->
  let st :=
    fold_left (fun st (_ : nat) => opticalDepthStep o d seg st) (seq 0 n)
              {| od_t := 0.5 * seg; odRayleigh := 0; odMie := 0;
                 odOzone := 0 |} in
  odRayleigh st <= INR n * seg /\ odMie st <= INR n * seg /\
  odOzone st <= INR n * seg.
Proof.
  intros Hseg Hup st.
  assert (H : od_t st = 0.5 * seg + INR n * seg /\
              odRayleigh st <= INR n * seg /\ odMie st <= INR n * seg /\
              odOzone st <= INR n * seg).
  { unfold st.
    apply (fold_seq_invariant
             (fun j s => od_t s = 0.5 * seg + INR j * seg /\
                         odRayleigh s <= INR j * seg /\
                         odMie s <= INR j * seg /\
                         odOzone s <= INR j * seg)).
    - cbn [od_t odRayleigh odMie odOzone]. simpl INR. lra.
    - intros j s _ [Ht [HR [HM HO]]].
      unfold opticalDepthStep. cbn [od_t odRayleigh odMie odOzone].
      rewrite S_INR.
      assert (Hj : 0 <= INR j) by apply pos_INR.
      assert (Ht0 : 0 <= od_t s) by (rewrite Ht; nra).
      pose proof (Hup _ Ht0) as Hlen.
      set (h := len (add o (scale d (od_t s))) - GROUND_RADIUS) in *.
      assert (Hh : 0 <= h) by (unfold h; lra).
      assert (HdR : exp (- h / RAYLEIGH_SCALE_HEIGHT) <= 1).
      { apply exp_nonpos_le_1. unfold RAYLEIGH_SCALE_HEIGHT, Rdiv. nra. }
      assert (HdM : exp (- h / MIE_SCALE_HEIGHT) <= 1).
      { apply exp_nonpos_le_1. unfold MIE_SCALE_HEIGHT, Rdiv. nra. }
      pose proof (ozoneDensity_range h) as [_ Hoz].
      split; [lra|]. split; [nra|]. split; nra. }
  tauto.
Qed.

(** Along a segment of negative length the optical depths are not
    positive. *)
Lemma opticalDepth_backwards (o d : Vec3) (seg : R) (n : nat) :
  seg <= 0 ->
  let st :=
    fold_left (fun st (_ : nat) => opticalDepthStep o d seg st) (seq 0 n)
              {| od_t := 0.5 * seg; odRayleigh := 0; odMie := 0;
                 odOzone := 0 |} in
  odRayleigh st <= 0 /\ odMie st <= 0 /\ odOzone st <= 0.
Proof.
  intros Hseg st. unfold st.
  apply (fold_invariant
           (fun s => odRayleigh s <= 0 /\ odMie s <= 0 /\ odOzone s <= 0)).
  - intros s _ [HR [HM HO]].
    unfold opticalDepthStep. cbn [odRayleigh odMie odOzone].
    set (h := len (add o (scale d (od_t s))) - GROUND_RADIUS).
    pose proof (exp_pos (- h / RAYLEIGH_SCALE_HEIGHT)).
    pose proof (exp_pos (- h / MIE_SCALE_HEIGHT)).
    pose proof (ozoneDensity_range h) as [Hoz _].
    split; [nra|]. split; nra.
  - cbn [odRayleigh odMie odOzone]. lra.
Qed.

Lemma comp_at_least (k : nat) (v : Vec3) (lo : R) :
  lo <= comp 0 v -> lo <= comp 1 v -> lo <= comp 2 v -> lo <= comp k v.
Proof.
  destruct v as [[v0 v1] v2]. destruct k as [| [| k]]; simpl; auto.
Qed.

Lemma integrateTransmittance_floor (o d : Vec3) (dist : R) (k : nat) :
  dist <= 1200000 ->
  (forall t, 0 <= t -> GROUND_RADIUS <= len (add o (scale d t))) ->
  / 3 ^ 46 <= comp k (integrateTransmittance o d dist).
Proof.
  intros Hdist Hup. unfold integrateTransmittance.
  set (seg := dist / INR SAMPLES).
  set (st := fold_left _ _ _).
  assert (H32 : INR SAMPLES = 32) by (unfold SAMPLES; simpl; lra).
  assert (Hod : odRayleigh st <= 1200000 /\ odMie st <= 1200000 /\
                odOzone st <= 1200000).
  { destruct (Rle_dec 0 seg) as [Hseg | Hseg].
    - destruct (opticalDepth_covered o d seg SAMPLES Hseg Hup)
        as [HR [HM HO]].
      fold st in HR, HM, HO. rewrite H32 in HR, HM, HO.
      assert (Hs : 32 * seg = dist) by (unfold seg; rewrite H32; field).
      lra.
    - assert (Hneg : seg <= 0) by lra.
      destruct (opticalDepth_backwards o d seg SAMPLES Hneg)
        as [HR [HM HO]].
      fold st in HR, HM, HO. lra. }
  destruct Hod as [HR [HM HO]].
  apply comp_at_least; unfold vecExp; cbn [comp];
    unfold RAYLEIGH_SCATTER, MIE_ABSORB, OZONE_ABSORB; cbn [comp];
    apply (exp_floor 46); simpl INR; lra.
Qed.

(** Every component of the transmittance from a height at or above the
    ground along a ray that does not point downwards is at least
    [3 ^ -46]: such a ray stays above the ground and leaves the atmosphere
    within 1200 km. *)
Lemma computeTransmittance_floor (height angle : R) (k : nat) :
  0 <= height -> 0 <= cos angle ->
  / 3 ^ 46 <= comp k (computeTransmittance height angle).
Proof.
  intros Hh Hc. unfold computeTransmittance.
  set (o := (0, GROUND_RADIUS + height, 0)).
  set (d := (sin angle, cos angle, 0)).
  assert (Hone : / 3 ^ 46 <= 1).
  { rewrite <- Rinv_1. apply Rinv_le_contravar; [lra|].
    apply pow_R1_Rle. lra. }
  destruct (intersectSphere o d TOP_RADIUS) as [dist |] eqn:Hi;
    [|apply comp_at_least; simpl; lra].
  destruct (falsy (Some dist)); [apply comp_at_least; simpl; lra|].
  pose proof (intersectSphere_solves _ _ _ _ Hi) as Hq.
  assert (Hb : dot o d = (GROUND_RADIUS + height) * cos angle)
    by (unfold o, d, dot; ring).
  assert (Hoo : dot o o = (GROUND_RADIUS + height) * (GROUND_RADIUS + height))
    by (unfold o, dot; ring).
  rewrite Hb, Hoo in Hq.
  assert (HG : 0 < GROUND_RADIUS) by (unfold GROUND_RADIUS; lra).
  apply integrateTransmittance_floor.
  - destruct (Rle_dec dist 0) as [| Hpos]; [lra|].
    assert (Hb0 : 0 <= (GROUND_RADIUS + height) * cos angle)
      by (apply Rmult_le_pos; lra).
    assert (Hsq : dist * dist <= TOP_RADIUS ^ 2 - GROUND_RADIUS * GROUND_RADIUS)
      by nra.
    unfold TOP_RADIUS, GROUND_RADIUS in Hsq. nra.
  - intros t Ht. apply len_at_least; [lra|].
    unfold o, d, add, scale, dot.
    assert (Hs2 : 0 <= sin angle * t * (sin angle * t)) by nra.
    assert (Hct : 0 <= cos angle * t) by (apply Rmult_le_pos; lra).
    nra.
Qed.

(** ** The samples of the ray march *)

(** A view direction of [renderGradient]: a unit vector of the plane x = 0
    that points forward and not downwards. *)
Lemma viewDirection_shape (i : nat) :
  exists vy vz,
    norm (0, sampleS i, 1.0 / tan ((FOV_DEG * 0.5 * PI) / 180.0))
    = (0, vy, vz) /\
    0 <= vy /\ 0 < vz /\ vy * vy + vz * vz = 1.
Proof.
  pose proof focalZ_pos as Hf. pose proof (sampleS_nonneg i) as Hs.
  set (f := 1.0 / tan ((FOV_DEG * 0.5 * PI) / 180.0)) in *.
  set (s := sampleS i) in *.
  unfold norm, len.
  assert (Hq : dot (0, s, f) (0, s, f) = s * s + f * f) by (unfold dot; ring).
  rewrite Hq.
  assert (Hpos : 0 < s * s + f * f) by nra.
  assert (HL : 0 < sqrt (s * s + f * f)) by (apply sqrt_lt_R0; exact Hpos).
  assert (HLL : sqrt (s * s + f * f) * sqrt (s * s + f * f) = s * s + f * f)
    by (apply sqrt_sqrt; lra).
  set (L := sqrt (s * s + f * f)) in *.
  exists (s / L), (f / L).
  split; [f_equal; f_equal; unfold Rdiv; ring|].
  split; [apply Rmult_le_pos; [exact Hs | left; apply Rinv_0_lt_compat, HL]|].
  split; [apply Rdiv_lt_0_compat; assumption|].
  replace (s / L * (s / L) + f / L * (f / L))
    with ((s * s + f * f) / (L * L)) by (field; lra).
  rewrite HLL. field. lra.
Qed.

Lemma tRay_marchStep (sun view o : Vec3) (seg : R) (down : bool)
      (tc : Vec3) (st : March) :
  tRay (marchStep sun view o seg down tc st) = tRay st + seg.
Proof. reflexivity. Qed.

(** When iteration [j] of the ray march starts, [tRay] is the middle of
    segment [j]. *)
Lemma tRay_before (sun view o : Vec3) (seg : R) (down : bool) (tc : Vec3)
      (j : nat) :
  tRay (fold_left (fun st (_ : nat) => marchStep sun view o seg down tc st)
                  (seq 0 j)
                  {| tRay := seg * 0.5; inscattered := (0, 0, 0) |})
  = seg * 0.5 + INR j * seg.
Proof.
  apply (fold_seq_invariant (fun n st => tRay st = seg * 0.5 + INR n * seg)).
  - cbn [tRay]. simpl INR. lra.
  - intros n st _ Hst. rewrite tRay_marchStep, Hst, S_INR. lra.
Qed.

(** A sample of a ray that leaves the ground and does not point downwards
    is not below the ground. *)
Lemma sample_above_ground (vy vz t : R) :
  0 <= vy -> 0 <= t ->
  GROUND_RADIUS <= len (add (0, GROUND_RADIUS, 0) (scale (0, vy, vz) t)).
Proof.
  intros Hvy Ht. apply len_at_least; [unfold GROUND_RADIUS; lra|].
  unfold add, scale, dot.
  assert (HG : 0 < GROUND_RADIUS) by (unfold GROUND_RADIUS; lra).
  assert (0 <= vy * t) by (apply Rmult_le_pos; assumption).
  nra.
Qed.

Lemma cos_viewAngle (x : R) : 0 <= cos (acos (Rabs (clamp x (-1) 1))).
Proof.
  rewrite cos_acos by apply abs_clamp_range. apply Rabs_pos.
Qed.

(** The transmittance the ray march divides by, for a camera on the
    ground and a view direction of [renderGradient]. *)
Lemma transmittanceToSpace_floor (vy vz t : R) (k : nat) :
  0 <= vy -> 0 <= t ->
  let rayOrigin : Vec3 := (0, GROUND_RADIUS, 0) in
  let viewDirection : Vec3 := (0, vy, vz) in
  let samplePos := add rayOrigin (scale viewDirection t) in
  let sampleRadius := len samplePos in
  let upUnit : Vec3 :=
    (comp 0 samplePos / sampleRadius,
     comp 1 samplePos / sampleRadius,
     comp 2 samplePos / sampleRadius) in
  let viewCos := clamp (dot upUnit viewDirection) (-1) 1 in
  / 3 ^ 46
  <= comp k (computeTransmittance (sampleRadius - GROUND_RADIUS)
                                  (acos (Rabs viewCos))).
Proof.
  intros Hvy Ht rayOrigin viewDirection samplePos sampleRadius upUnit viewCos.
  apply computeTransmittance_floor.
  - pose proof (sample_above_ground vy vz t Hvy Ht) as H.
    fold rayOrigin viewDirection samplePos sampleRadius in H. lra.
  - apply cos_viewAngle.
Qed.

(** C8: for every altitude, inside or outside [-pi/2, pi/2],
    [renderGradient] returns a result with its gradient string and its two
    colours.  In the ray march of every view sample the ray starts on the
    ground and does not point downwards, so the quotient of line 195 is the
    one computed, and when any iteration [j] starts the transmittance it
    divides by, [transmittanceToSpace], is at least [3 ^ -46] in every
    channel: no division by a zero transmittance occurs. *)
Theorem C8_renderGradient_total (altitude : R) :
  (exists result, renderGradient altitude = Some result) /\
  forall (i j k : nat),
    let cameraPosition : Vec3 := (0, GROUND_RADIUS, 0) in
    let sunDirection := norm (cos altitude, sin altitude, 0) in
    let focalZ := 1.0 / tan ((FOV_DEG * 0.5 * PI) / 180.0) in
    let viewDirection := norm (0, sampleS i, focalZ) in
    exists tExitTop,
      intersectSphere cameraPosition viewDirection TOP_RADIUS = Some tExitTop /\
      0 < tExitTop /\
      let rayOrigin := cameraPosition in
      let segmentLength := tExitTop / INR SAMPLES in
      let rayOriginRadius := len rayOrigin in
      ~ dot rayOrigin viewDirection / rayOriginRadius < 0.0 /\
      let startHeight := rayOriginRadius - GROUND_RADIUS in
      let startRayCos :=
        clamp (dot (comp 0 rayOrigin / rayOriginRadius,
                    comp 1 rayOrigin / rayOriginRadius,
                    comp 2 rayOrigin / rayOriginRadius)
                   viewDirection) (-1) 1 in
      let transmittanceCameraToSpace :=
        computeTransmittance startHeight (acos (Rabs startRayCos)) in
      let st :=
        fold_left (fun st (_ : nat) =>
                     marchStep sunDirection viewDirection rayOrigin
                               segmentLength false
                               transmittanceCameraToSpace st)
                  (seq 0 j)
                  {| tRay := segmentLength * 0.5;
                     inscattered := (0, 0, 0) |} in
      let samplePos := add rayOrigin (scale viewDirection (tRay st)) in
      let sampleRadius := len samplePos in
      let upUnit : Vec3 :=
        (comp 0 samplePos / sampleRadius,
         comp 1 samplePos / sampleRadius,
         comp 2 samplePos / sampleRadius) in
      let sampleHeight := sampleRadius - GROUND_RADIUS in
      let viewCos := clamp (dot upUnit viewDirection) (-1) 1 in
      let viewAngle := acos (Rabs viewCos) in
      let transmittanceToSpace := computeTransmittance sampleHeight viewAngle in
      / 3 ^ 46 <= comp k transmittanceToSpace.
Proof.
  split.
  { destruct (renderGradient_returns altitude) as [first [last [_ [_ Hr]]]].
    eexists. exact Hr. }
  intros i j k cameraPosition sunDirection focalZ viewDirection.
  destruct (viewDirection_shape i) as [vy [vz [Hview [Hvy [Hvz Hunit]]]]].
  fold focalZ in Hview. fold viewDirection in Hview.
  assert (Hin : dot cameraPosition cameraPosition < TOP_RADIUS ^ 2).
  { unfold cameraPosition, dot, TOP_RADIUS, GROUND_RADIUS. lra. }
  destruct (intersectSphere_from_inside cameraPosition viewDirection
                                        TOP_RADIUS Hin) as [Hsome Hpos].
  eexists. split; [exact Hsome|]. split; [exact Hpos|].
  set (tExitTop := - dot cameraPosition viewDirection + sqrt _) in *.
  intros rayOrigin segmentLength rayOriginRadius.
  assert (HG : 0 < GROUND_RADIUS) by (unfold GROUND_RADIUS; lra).
  assert (Hradius : rayOriginRadius = GROUND_RADIUS).
  { unfold rayOriginRadius, rayOrigin, cameraPosition, len, dot.
    replace (0 * 0 + GROUND_RADIUS * GROUND_RADIUS + 0 * 0)
      with (GROUND_RADIUS * GROUND_RADIUS) by ring.
    apply sqrt_square. lra. }
  split.
  { rewrite Hradius, Hview. unfold rayOrigin, cameraPosition, dot.
    replace ((0 * 0 + GROUND_RADIUS * vy + 0 * vz) / GROUND_RADIUS) with vy
      by (field; lra).
    lra. }
  intros startHeight startRayCos transmittanceCameraToSpace st.
  assert (Ht : tRay st = segmentLength * 0.5 + INR j * segmentLength)
    by apply tRay_before.
  assert (Hseg : 0 < segmentLength).
  { unfold segmentLength. apply Rdiv_lt_0_compat; [exact Hpos|].
    unfold SAMPLES. simpl. lra. }
  assert (Ht0 : 0 <= tRay st).
  { rewrite Ht. pose proof (pos_INR j). nra. }
  generalize dependent (tRay st). intros t _ Ht0.
  rewrite Hview. unfold rayOrigin, cameraPosition.
  exact (transmittanceToSpace_floor vy vz t k Hvy Ht0).
Qed.

(** ** The exit distance from inside the atmosphere *)

(** From a point at the radius [rho] on the vertical axis, along a unit
    direction, the top of the atmosphere is at least [TOP_RADIUS - rho]
    away. *)
Lemma exit_distance_floor (rho dx dy dz dist : R) :
  0 <= rho < TOP_RADIUS ->
  dx * dx + dy * dy + dz * dz = 1 ->
  intersectSphere (0, rho, 0) (dx, dy, dz) TOP_RADIUS = Some dist ->
  0 < dist ->
  TOP_RADIUS - rho <= dist.
Proof.
  intros Hrho Hunit Hi Hpos.
  pose proof (intersectSphere_solves _ _ _ _ Hi) as Hq.
  unfold dot in Hq. simpl pow in Hq.
  assert (He : dist * dist + 2 * (rho * dy * dist)
               = TOP_RADIUS * TOP_RADIUS - rho * rho) by lra.
  assert (Hdy : dy <= 1).
  { destruct (Rle_dec dy 1) as [| Hn]; [assumption|].
    assert (1 < dy * dy) by nra.
    pose proof (Rle_0_sqr dx) as Hx. pose proof (Rle_0_sqr dz) as Hz.
    unfold Rsqr in Hx, Hz. lra. }
  assert (HT : 0 < TOP_RADIUS) by (unfold TOP_RADIUS; lra).
  assert (Hprod : 0 <= rho * dist * (1 - dy)).
  { apply Rmult_le_pos; [apply Rmult_le_pos|]; lra. }
  assert (Hsq : TOP_RADIUS * TOP_RADIUS <= (dist + rho) * (dist + rho)) by lra.
  destruct (Rle_dec (TOP_RADIUS - rho) dist) as [| Hn]; [assumption|].
  exfalso.
  assert (Hlt : dist + rho < TOP_RADIUS) by lra.
  assert ((dist + rho) * (dist + rho) < TOP_RADIUS * TOP_RADIUS)
    by (apply Rmult_le_0_lt_compat; lra).
  lra.
Qed.




(** ** The range of the transmittance *)

(** X13: from a height inside the atmosphere (or below the ground, down to
    the centre of the earth) no component of [computeTransmittance] is
    negative or above 1, whatever the angle; from a height at or above the
    ground, along a ray that does not point downwards ([cos angle >= 0]),
    every component is at least [3 ^ -46]. *)
Theorem computeTransmittance_range (height angle : R) (k : nat) :
  - GROUND_RADIUS <= height < TOP_RADIUS - GROUND_RADIUS ->
  0 <= comp k (computeTransmittance height angle) <= 1 /\
  (0 <= height -> 0 <= cos angle ->
   / 3 ^ 46 <= comp k (computeTransmittance height angle)).
Proof.
  intros Hh. split.
  - pose proof (computeTransmittance_unit height angle k Hh). lra.
  - intros H0 Hc. apply computeTransmittance_floor; assumption.
Qed.

Lemma computeTransmittance_range_witness :
  0 <= comp 0 (computeTransmittance 5000 0) <= 1 /\
  / 3 ^ 46 <= comp 0 (computeTransmittance 5000 0).
Proof.
  destruct (computeTransmittance_range 5000 0 0) as [Hr Hf].
  - unfold TOP_RADIUS, GROUND_RADIUS. lra.
  - split; [exact Hr|]. apply Hf; [lra|]. rewrite cos_0. lra.
Defined.

(** ** A floor under the radiance by day *)

Lemma sunDirection_unit (altitude : R) :
  norm (cos altitude, sin altitude, 0) = (cos altitude, sin altitude, 0).
Proof.
  unfold norm, len, dot.
  replace (cos altitude * cos altitude + sin altitude * sin altitude + 0 * 0)
    with 1.
  - rewrite sqrt_1. f_equal; [f_equal|]; field.
  - pose proof (sin2_cos2 altitude) as H. unfold Rsqr in H. lra.
Qed.

(** A sample of a view ray of [renderGradient] before the exit point lies
    between the ground and the top of the atmosphere. *)
Lemma sample_inside (vy vz t tExitTop : R) :
  0 <= vy -> vy * vy + vz * vz = 1 ->
  intersectSphere (0, GROUND_RADIUS, 0) (0, vy, vz) TOP_RADIUS
  = Some tExitTop ->
  0 <= t < tExitTop ->
  GROUND_RADIUS <= len (add (0, GROUND_RADIUS, 0) (scale (0, vy, vz) t))
  < TOP_RADIUS.
Proof.
  intros Hvy Hunit Hi [Ht0 Ht1].
  split; [apply sample_above_ground; assumption|].
  pose proof (intersectSphere_solves _ _ _ _ Hi) as Hq.
  unfold dot in Hq. simpl pow in Hq.
  assert (HG : 0 < GROUND_RADIUS) by (unfold GROUND_RADIUS; lra).
  assert (HT : 0 < TOP_RADIUS) by (unfold TOP_RADIUS; lra).
  assert (He : tExitTop * tExitTop + 2 * (GROUND_RADIUS * vy * tExitTop)
               = TOP_RADIUS * TOP_RADIUS - GROUND_RADIUS * GROUND_RADIUS)
    by lra.
  set (pos := add (0, GROUND_RADIUS, 0) (scale (0, vy, vz) t)).
  assert (Hpos : dot pos pos
                 = GROUND_RADIUS * GROUND_RADIUS
                   + 2 * (GROUND_RADIUS * vy * t) + t * t).
  { unfold pos, add, scale, dot.
    replace (t * t) with ((vy * vy + vz * vz) * (t * t))
      by (rewrite Hunit; ring).
    ring. }
  assert (Hlt : dot pos pos < TOP_RADIUS * TOP_RADIUS).
  { rewrite Hpos.
    assert (t * t < tExitTop * tExitTop) by nra.
    assert (GROUND_RADIUS * vy * t <= GROUND_RADIUS * vy * tExitTop).
    { apply Rmult_le_compat_l; [|lra]. apply Rmult_le_pos; lra. }
    lra. }
  unfold len. rewrite <- (sqrt_square TOP_RADIUS) by lra.
  apply sqrt_lt_1_alt. split; [|exact Hlt].
  rewrite Hpos.
  assert (0 <= GROUND_RADIUS * vy * t)
    by (apply Rmult_le_pos; [apply Rmult_le_pos|]; lra).
  nra.
Qed.

Lemma clamp_nonneg (x : R) : 0 <= x -> 0 <= clamp x (-1) 1.
Proof.
  intros Hx. unfold clamp, Rmax, Rmin.
  destruct (Rle_dec 1 x); destruct (Rle_dec (-1) _); lra.
Qed.

(** With the sun on or above the horizon, the ray from a sample towards
    the sun does not point downwards. *)
Lemma cos_sunAngle (vy vz t altitude : R) :
  0 <= vy -> 0 <= t -> 0 <= sin altitude ->
  let samplePos := add (0, GROUND_RADIUS, 0) (scale (0, vy, vz) t) in
  let sampleRadius := len samplePos in
  let upUnit : Vec3 :=
    (comp 0 samplePos / sampleRadius,
     comp 1 samplePos / sampleRadius,
     comp 2 samplePos / sampleRadius) in
  0 <= cos (acos (clamp (dot upUnit (cos altitude, sin altitude, 0)) (-1) 1)).
Proof.
  intros Hvy Ht Hs samplePos sampleRadius upUnit.
  rewrite cos_acos by apply clamp_range.
  apply clamp_nonneg.
  pose proof (sample_above_ground vy vz t Hvy Ht) as Hr.
  fold samplePos sampleRadius in Hr.
  assert (HG : 0 < GROUND_RADIUS) by (unfold GROUND_RADIUS; lra).
  assert (Hi : 0 < / sampleRadius) by (apply Rinv_0_lt_compat; lra).
  unfold upUnit, samplePos, add, scale, dot. cbn [comp].
  fold samplePos. fold sampleRadius.
  replace ((0 + 0 * t) / sampleRadius * cos altitude
           + (GROUND_RADIUS + vy * t) / sampleRadius * sin altitude
           + (0 + vz * t) / sampleRadius * 0)
    with ((GROUND_RADIUS + vy * t) * sin altitude * / sampleRadius)
    by (unfold Rdiv; ring).
  assert (0 <= vy * t) by (apply Rmult_le_pos; assumption).
  apply Rmult_le_pos; [apply Rmult_le_pos|]; lra.
Qed.

Lemma gain_floor (ratio tL ray mie e r seg : R) :
  0 <= e -> e <= ratio -> e <= tL -> 0 <= r -> r <= ray -> 0 <= mie ->
  0 <= seg ->
  e * e * r * seg <= ratio * (tL * (ray + mie)) * seg.
Proof.
  intros He Hratio HtL Hr Hray Hmie Hseg.
  apply Rmult_le_compat_r; [exact Hseg|].
  rewrite Rmult_assoc.
  apply Rmult_le_compat; [exact He | | exact Hratio |].
  - apply Rmult_le_pos; assumption.
  - apply Rmult_le_compat; [exact He | exact Hr | exact HtL | lra].
Qed.

(** What one iteration of the ray march adds to a channel, by day. *)
Lemma marchStep_gain_floor (vy vz altitude seg tExitTop : R) (tc : Vec3)
      (st : March) (k : nat) :
  0 <= vy -> vy * vy + vz * vz = 1 -> 0 <= sin altitude ->
  intersectSphere (0, GROUND_RADIUS, 0) (0, vy, vz) TOP_RADIUS
  = Some tExitTop ->
  0 <= tRay st < tExitTop -> 0 <= seg ->
  (forall j, / 3 ^ 46 <= comp j tc) ->
  comp k (inscattered st)
  + / 3 ^ 46 * / 3 ^ 46 * (5.802e-6 * / 3 ^ 13 * (3 / 64)) * seg
  <= comp k (inscattered
               (marchStep (cos altitude, sin altitude, 0) (0, vy, vz)
                          (0, GROUND_RADIUS, 0) seg false tc st)).
Proof.
  intros Hvy Hunit Hsin Hexit Ht Hseg Htc.
  pose proof (sample_inside vy vz (tRay st) tExitTop Hvy Hunit Hexit Ht)
    as Hinside.
  pose proof (cos_sunAngle vy vz (tRay st) altitude Hvy (proj1 Ht) Hsin)
    as Hsun.
  unfold marchStep. cbn [inscattered]. cbv zeta in Hsun.
  set (sun := (cos altitude, sin altitude, 0)) in *.
  set (view := (0, vy, vz)) in *.
  set (samplePos := add (0, GROUND_RADIUS, 0) (scale view (tRay st))) in *.
  set (sampleHeight := len samplePos - GROUND_RADIUS).
  set (up := (comp 0 samplePos / len samplePos,
              comp 1 samplePos / len samplePos,
              comp 2 samplePos / len samplePos)) in *.
  set (tS := computeTransmittance sampleHeight
                                  (acos (Rabs (clamp (dot up view) (-1) 1)))).
  set (tL := computeTransmittance sampleHeight
                                  (acos (clamp (dot up sun) (-1) 1))).
  set (phaseR := rayleighPhase (acos (clamp (dot sun view) (-1) 1))).
  set (phaseM := miePhase (acos (clamp (dot sun view) (-1) 1))).
  set (dR := exp (- sampleHeight / RAYLEIGH_SCALE_HEIGHT)).
  set (dM := exp (- sampleHeight / MIE_SCALE_HEIGHT)).
  assert (Hh : 0 <= sampleHeight < TOP_RADIUS - GROUND_RADIUS)
    by (unfold sampleHeight; lra).
  assert (He : 0 < / 3 ^ 46).
  { apply Rinv_0_lt_compat. apply pow_lt. lra. }
  assert (HtS : forall j, 0 < comp j tS <= 1).
  { intros j. apply computeTransmittance_unit.
    unfold GROUND_RADIUS in *. lra. }
  assert (HtL : forall j, / 3 ^ 46 <= comp j tL).
  { intros j. apply computeTransmittance_floor; [lra | exact Hsun]. }
  assert (Hratio : forall j, / 3 ^ 46 <= comp j tc / comp j tS).
  { intros j. specialize (HtS j). specialize (Htc j).
    apply Rle_trans with (comp j tc); [exact Htc|].
    apply Rmult_le_reg_r with (comp j tS); [lra|].
    unfold Rdiv. rewrite Rmult_assoc, Rinv_l by lra.
    assert (0 <= comp j tc) by lra. nra. }
  assert (HdR : / 3 ^ 13 <= dR).
  { apply (exp_floor 13). simpl INR.
    unfold RAYLEIGH_SCALE_HEIGHT, TOP_RADIUS, GROUND_RADIUS in *. lra. }
  assert (HpR : 3 / 64 <= phaseR).
  { pose proof (rayleighPhase_range (acos (clamp (dot sun view) (-1) 1)))
      as [Hlo _]. fold phaseR in Hlo.
    pose proof PI_4 as Hpi4. pose proof PI_RGT_0 as Hpi.
    apply Rle_trans with (3 / (16 * PI)); [|exact Hlo].
    unfold Rdiv. apply Rmult_le_compat_l; [lra|].
    apply Rinv_le_contravar; lra. }
  assert (HpM : 0 < phaseM) by apply miePhase_pos.
  assert (HdM : 0 < dM) by apply exp_pos.
  assert (H13 : 0 < / 3 ^ 13).
  { apply Rinv_0_lt_compat. apply pow_lt. lra. }
  assert (Hray : forall j,
             5.802e-6 * / 3 ^ 13 * (3 / 64)
             <= comp j RAYLEIGH_SCATTER * dR * phaseR).
  { intros j.
    assert (Hc : 5.802e-6 <= comp j RAYLEIGH_SCATTER)
      by (apply comp_at_least; unfold RAYLEIGH_SCATTER; simpl; lra).
    apply Rmult_le_compat; [|lra| |exact HpR].
    - apply Rmult_le_pos; lra.
    - apply Rmult_le_compat; lra. }
  assert (Hmie : 0 <= MIE_SCATTER * dM * phaseM).
  { apply Rmult_le_pos; [apply Rmult_le_pos|]; unfold MIE_SCATTER; lra. }
  assert (Hr0 : 0 <= 5.802e-6 * / 3 ^ 13 * (3 / 64)).
  { apply Rmult_le_pos; [apply Rmult_le_pos|]; lra. }
  destruct k as [| [| k]]; cbn [comp];
    apply Rplus_le_compat_l;
    (apply gain_floor;
     [lra | apply Hratio | apply HtL | exact Hr0 | apply Hray | exact Hmie
      | exact Hseg]).
Qed.

Lemma radiance_floor_value :
  / 3 ^ 110
  <= 100000 * (/ 3 ^ 46 * / 3 ^ 46 * (5.802e-6 * / 3 ^ 13 * (3 / 64))).
Proof.
  assert (H109 : / 3 ^ 46 * / 3 ^ 46 * / 3 ^ 13 * / 3 ^ 4 = / 3 ^ 109).
  { rewrite <- !Rinv_mult, <- !pow_add. reflexivity. }
  assert (Hle : / 3 ^ 110 <= / 3 ^ 109).
  { apply Rinv_le_contravar; [apply pow_lt; lra|].
    apply Rle_pow; [lra | lia]. }
  assert (HC : / 3 ^ 4 <= 100000 * 5.802e-6 * (3 / 64)) by (simpl pow; lra).
  assert (HA : 0 < / 3 ^ 46) by (apply Rinv_0_lt_compat, pow_lt; lra).
  assert (HB : 0 < / 3 ^ 13) by (apply Rinv_0_lt_compat, pow_lt; lra).
  set (A := / 3 ^ 46) in *. set (B := / 3 ^ 13) in *.
  set (C := / 3 ^ 4) in *. set (X := / 3 ^ 109) in *.
  set (Y := / 3 ^ 110) in *.
  clearbody A B C X Y.
  assert (HAB : 0 < A * A * B).
  { apply Rmult_lt_0_compat; [apply Rmult_lt_0_compat|]; assumption. }
  assert (A * A * B * C <= A * A * B * (100000 * 5.802e-6 * (3 / 64)))
    by (apply Rmult_le_compat_l; lra).
  lra.
Qed.

(** The radiance the 32 iterations of the ray march accumulate, by day. *)
Lemma march_floor (vy vz altitude tExitTop : R) (tc : Vec3) (k : nat) :
  0 <= vy -> vy * vy + vz * vz = 1 -> 0 <= sin altitude ->
  intersectSphere (0, GROUND_RADIUS, 0) (0, vy, vz) TOP_RADIUS
  = Some tExitTop ->
  0 < tExitTop ->
  (forall j, / 3 ^ 46 <= comp j tc) ->
  let segmentLength := tExitTop / INR SAMPLES in
  let st :=
    fold_left (fun st (_ : nat) =>
                 marchStep (cos altitude, sin altitude, 0) (0, vy, vz)
                           (0, GROUND_RADIUS, 0) segmentLength false tc st)
              (seq 0 SAMPLES)
              {| tRay := segmentLength * 0.5; inscattered := (0, 0, 0) |} in
  tExitTop * (/ 3 ^ 46 * / 3 ^ 46 * (5.802e-6 * / 3 ^ 13 * (3 / 64)))
  <= comp k (inscattered st).
Proof.
  intros Hvy Hunit Hsin Hexit Hpos Htc seg st.
  set (gamma := / 3 ^ 46 * / 3 ^ 46 * (5.802e-6 * / 3 ^ 13 * (3 / 64))).
  assert (H32 : INR SAMPLES = 32) by (unfold SAMPLES; simpl; lra).
  assert (Hseg : tExitTop = 32 * seg) by (unfold seg; rewrite H32; field).
  assert (Hseg0 : 0 < seg) by lra.
  assert (H : tRay st = seg * 0.5 + INR SAMPLES * seg /\
              forall c, INR SAMPLES * (gamma * seg) <= comp c (inscattered st)).
  { unfold st.
    apply (fold_seq_invariant
             (fun j s => tRay s = seg * 0.5 + INR j * seg /\
                         forall c, INR j * (gamma * seg)
                                   <= comp c (inscattered s))).
    - split; [cbn [tRay]; simpl INR; lra|].
      intros c. cbn [inscattered]. simpl INR.
      destruct c as [| [| c]]; simpl; lra.
    - intros j s Hj [Ht Hins]. split.
      + rewrite tRay_marchStep, Ht, S_INR. lra.
      + intros c. rewrite S_INR.
        assert (Hj' : INR j + 1 <= 32).
        { rewrite <- H32, <- S_INR. apply le_INR. lia. }
        assert (Hj0 : 0 <= INR j) by apply pos_INR.
        assert (Hrange : 0 <= tRay s < tExitTop).
        { rewrite Ht, Hseg. split; nra. }
        pose proof (marchStep_gain_floor vy vz altitude seg tExitTop tc s c
                                         Hvy Hunit Hsin Hexit Hrange
                                         (Rlt_le _ _ Hseg0) Htc) as Hgain.
        fold gamma in Hgain. specialize (Hins c).
        eapply Rle_trans; [|exact Hgain]. lra. }
  destruct H as [_ H]. specialize (H k). rewrite H32 in H.
  rewrite Hseg. lra.
Qed.

(** X14: [inscatter] never returns a negative channel; and for the camera
    of [renderGradient], every view sample and every altitude with the sun
    on or above the horizon ([sin altitude >= 0]), every channel of the
    radiance is at least [3 ^ -110], so it is strictly positive. *)
Theorem inscatter_nonneg_and_day_floor (k : nat) :
  (forall cameraPosition sunDirection viewDirection,
      0 <= comp k (inscatter cameraPosition sunDirection viewDirection)) /\
  forall altitude i,
    0 <= sin altitude ->
    / 3 ^ 110
    <= comp k (inscatter (0, GROUND_RADIUS, 0)
                         (norm (cos altitude, sin altitude, 0))
                         (norm (0, sampleS i,
                                1.0 / tan ((FOV_DEG * 0.5 * PI) / 180.0)))).
Proof.
  split.
  - intros cameraPosition sunDirection viewDirection.
    pose proof (inscatter_cases cameraPosition sunDirection viewDirection k)
      as Hc.
    destruct (intersectSphere _ _ _) as [t |].
    + destruct (Rlt_dec 0 t); [lra|].
      rewrite Hc. destruct k as [| [| k]]; simpl; lra.
    + rewrite Hc. destruct k as [| [| k]]; simpl; lra.
  - intros altitude i Hsin.
    destruct (viewDirection_shape i) as [vy [vz [Hview [Hvy [Hvz Hunit]]]]].
    rewrite Hview, sunDirection_unit.
    set (cam := (0, GROUND_RADIUS, 0)). set (view := (0, vy, vz)).
    assert (HG : 0 < GROUND_RADIUS) by (unfold GROUND_RADIUS; lra).
    assert (Hin : dot cam cam < TOP_RADIUS ^ 2).
    { unfold cam, dot, TOP_RADIUS, GROUND_RADIUS. lra. }
    destruct (intersectSphere_from_inside cam view TOP_RADIUS Hin)
      as [Hsome Hpos].
    set (tExitTop := - dot cam view + sqrt _) in *.
    assert (Hfloor : TOP_RADIUS - GROUND_RADIUS <= tExitTop).
    { apply (exit_distance_floor GROUND_RADIUS 0 vy vz tExitTop);
        [unfold TOP_RADIUS, GROUND_RADIUS; lra | lra | exact Hsome
         | exact Hpos]. }
    assert (Hlen : len cam = GROUND_RADIUS).
    { unfold cam, len, dot.
      replace (0 * 0 + GROUND_RADIUS * GROUND_RADIUS + 0 * 0)
        with (GROUND_RADIUS * GROUND_RADIUS) by ring.
      apply sqrt_square. lra. }
    unfold inscatter. rewrite Hsome.
    destruct (Rlt_dec 0 tExitTop) as [_ | Hn]; [|contradiction].
    rewrite vmap_comp.
    destruct (Rlt_dec (dot cam view / len cam) 0.0) as [Hdown | _].
    { exfalso. rewrite Hlen in Hdown. unfold cam, view, dot in Hdown.
      replace ((0 * 0 + GROUND_RADIUS * vy + 0 * vz) / GROUND_RADIUS)
        with vy in Hdown by (field; lra).
      lra. }
    set (tc := computeTransmittance _ _).
    assert (Htc : forall j, / 3 ^ 46 <= comp j tc).
    { intros j. unfold tc. apply computeTransmittance_floor.
      - rewrite Hlen. lra.
      - apply cos_viewAngle. }
    pose proof (march_floor vy vz altitude tExitTop tc k Hvy Hunit Hsin
                            Hsome Hpos Htc) as Hm.
    cbv zeta in Hm. fold cam view in Hm.
    pose proof radiance_floor_value as Hv.
    set (gamma := / 3 ^ 46 * / 3 ^ 46 * (5.802e-6 * / 3 ^ 13 * (3 / 64)))
      in *.
    assert (Hg : 0 <= gamma).
    { unfold gamma.
      assert (0 < / 3 ^ 46) by (apply Rinv_0_lt_compat, pow_lt; lra).
      assert (0 < / 3 ^ 13) by (apply Rinv_0_lt_compat, pow_lt; lra).
      apply Rmult_le_pos; [apply Rmult_le_pos; lra|].
      apply Rmult_le_pos; [apply Rmult_le_pos|]; lra. }
    assert (Hte : 100000 * gamma <= tExitTop * gamma).
    { apply Rmult_le_compat_r; [exact Hg|].
      unfold TOP_RADIUS, GROUND_RADIUS in Hfloor. lra. }
    unfold SUN_INTENSITY.
    set (x := comp k (inscattered _)) in *.
    set (Y := / 3 ^ 110) in *. clearbody Y gamma x. lra.
Qed.

Lemma inscatter_nonneg_and_day_floor_witness :
  / 3 ^ 110
  <= comp 0 (inscatter (0, GROUND_RADIUS, 0)
                       (norm (cos (PI / 2), sin (PI / 2), 0))
                       (norm (0, sampleS 31,
                              1.0 / tan ((FOV_DEG * 0.5 * PI) / 180.0)))).
Proof.
  apply (proj2 (inscatter_nonneg_and_day_floor 0) (PI / 2) 31%nat).
  rewrite sin_PI2. lra.
Defined.
